(** * bob: indicator pipeline, decision engine and backtest loop

    A shallow embedding of the JavaScript sources
      - [src/indicators/*.js] (SMA, EMA, RSI, ATR, Bollinger, MACD,
        Stochastic, ADX, support and resistance),
      - [src/patterns/candlePatterns.js],
      - [src/strategies/bob-is-awesome.js] ([analyze]),
      - [src/simulator.js] ([run]),
      - [src/utils/account.js],
      - [src/database.js] ([resampleCandles], and the rows and the
        transaction of [saveTrades]),
    together with the properties of the specification that concern them
    and further properties of the code.

    Numbers.  A JavaScript number is modelled by [num]: an exact rational
    ([Qc]) or one of the IEEE special values [PInf], [NInf], [NaN].  The
    special values follow IEEE-754 (so [0/0] is [NaN], [x/0] is an infinity,
    every comparison with [NaN] is false); binary64 rounding and the sign of
    zero are not modelled: arithmetic on finite values is exact.  A
    statement about the value of a sum, product or quotient is therefore a
    statement of exact arithmetic, and says so; the program's value can
    differ from it by rounding.  [Binary64] has the moving averages once
    more over binary64 floats, to evaluate the program's own arithmetic
    where rounding decides.

    Failure.  Reading a property of [undefined] (an array read out of range
    followed by [.close]) throws a [TypeError]; such code lives in the
    [result] monad. *)

From Stdlib Require Import ZArith QArith Qcanon Qround List String Bool Lia Lqa.
From Stdlib Require Floats.
Import ListNotations.

(* ===================================================================== *)
(** * JavaScript numbers *)
(* ===================================================================== *)

Module Num.

Inductive num : Type :=
| Fin (q : Qc)
| PInf
| NInf
| NaN.

Definition qz (z : Z) : Qc := Q2Qc (inject_Z z).
Definition qfrac (a : Z) (b : positive) : Qc := Q2Qc (a # b).

(** Integer and decimal literals. *)
Definition nZ (z : Z) : num := Fin (qz z).
Definition nQ (a : Z) (b : positive) : num := Fin (qfrac a b).

Definition q_ltb (a b : Qc) : bool :=
  match (a ?= b)%Qc with Lt => true | _ => false end.
Definition q_leb (a b : Qc) : bool :=
  match (a ?= b)%Qc with Gt => false | _ => true end.
Definition q_eqb (a b : Qc) : bool :=
  match (a ?= b)%Qc with Eq => true | _ => false end.

(** [-x] *)
Definition neg (x : num) : num :=
  match x with
  | Fin a => Fin (- a)%Qc
  | PInf => NInf
  | NInf => PInf
  | NaN => NaN
  end.

(** [x + y] *)
Definition add (x y : num) : num :=
  match x, y with
  | NaN, _ | _, NaN => NaN
  | Fin a, Fin b => Fin (a + b)%Qc
  | PInf, NInf | NInf, PInf => NaN
  | PInf, _ | _, PInf => PInf
  | NInf, _ | _, NInf => NInf
  end.

(** [x - y] *)
Definition sub (x y : num) : num := add x (neg y).

(** The sign of a rational: [Lt] negative, [Eq] zero, [Gt] positive. *)
Definition q_sign (a : Qc) : comparison := (a ?= qz 0)%Qc.

(** An infinity scaled by the sign of a finite factor ([0 * Infinity] is
    [NaN]). *)
Definition inf_times (pos : bool) (s : comparison) : num :=
  match s with
  | Eq => NaN
  | Gt => if pos then PInf else NInf
  | Lt => if pos then NInf else PInf
  end.

(** [x * y] *)
Definition mul (x y : num) : num :=
  match x, y with
  | NaN, _ | _, NaN => NaN
  | Fin a, Fin b => Fin (a * b)%Qc
  | Fin a, PInf | PInf, Fin a => inf_times true (q_sign a)
  | Fin a, NInf | NInf, Fin a => inf_times false (q_sign a)
  | PInf, PInf | NInf, NInf => PInf
  | PInf, NInf | NInf, PInf => NInf
  end.

(** [x / y].  A zero divisor is read as [+0]. *)
Definition div (x y : num) : num :=
  match x, y with
  | NaN, _ | _, NaN => NaN
  | Fin a, Fin b =>
      if q_eqb b (qz 0)
      then match q_sign a with Eq => NaN | Gt => PInf | Lt => NInf end
      else Fin (a / b)%Qc
  | Fin _, (PInf | NInf) => Fin (qz 0)
  | PInf, Fin b => if q_ltb b (qz 0) then NInf else PInf
  | NInf, Fin b => if q_ltb b (qz 0) then PInf else NInf
  | (PInf | NInf), (PInf | NInf) => NaN
  end.

(** [x < y] *)
Definition ltb (x y : num) : bool :=
  match x, y with
  | NaN, _ | _, NaN => false
  | Fin a, Fin b => q_ltb a b
  | NInf, (Fin _ | PInf) => true
  | Fin _, PInf => true
  | _, _ => false
  end.

(** [x <= y] *)
Definition leb (x y : num) : bool :=
  match x, y with
  | NaN, _ | _, NaN => false
  | Fin a, Fin b => q_leb a b
  | NInf, _ => true
  | _, PInf => true
  | _, _ => false
  end.

(** [x > y] and [x >= y] *)
Definition gtb (x y : num) : bool := ltb y x.
Definition geb (x y : num) : bool := leb y x.

(** [x === y] on numbers. *)
Definition eqb (x y : num) : bool :=
  match x, y with
  | Fin a, Fin b => q_eqb a b
  | PInf, PInf | NInf, NInf => true
  | _, _ => false
  end.

(** [Math.abs] *)
Definition abs (x : num) : num :=
  match x with
  | Fin a => if q_ltb a (qz 0) then Fin (- a)%Qc else Fin a
  | PInf | NInf => PInf
  | NaN => NaN
  end.

(** [Math.max(x, y)] and [Math.min(x, y)]: [NaN] if either argument is. *)
Definition max (x y : num) : num :=
  match x, y with
  | NaN, _ | _, NaN => NaN
  | _, _ => if ltb x y then y else x
  end.

Definition min (x y : num) : num :=
  match x, y with
  | NaN, _ | _, NaN => NaN
  | _, _ => if ltb y x then y else x
  end.

Definition max3 (x y z : num) : num := max (max x y) z.

(** Truthiness of a number: [0] and [NaN] are falsy. *)
Definition truthy (x : num) : bool :=
  match x with
  | Fin a => negb (q_eqb a (qz 0))
  | PInf | NInf => true
  | NaN => false
  end.

(** [x || d] *)
Definition or_else (x d : num) : num := if truthy x then x else d.

(** The nearest multiple of 1/100 of a non-negative rational, ties going
    to the larger one. *)
Definition round2 (a : Qc) : Qc :=
  Q2Qc (Qfloor (a * qfrac 100 1 + qfrac 1 2)%Qc # 100).

(** [parseFloat(x.toFixed(2))]: [toFixed] rounds the absolute value and
    puts the sign back. *)
Definition toFixed2 (x : num) : num :=
  match x with
  | Fin a => if q_ltb a (qz 0) then Fin (- round2 (- a))%Qc else Fin (round2 a)
  | _ => x
  end.

Definition is_finite (x : num) : bool :=
  match x with Fin _ => true | _ => false end.

Definition is_nan (x : num) : bool :=
  match x with NaN => true | _ => false end.

End Num.
Export Num.

Declare Scope num_scope.
Delimit Scope num_scope with num.
Bind Scope num_scope with num.
Infix "+" := add : num_scope.
Infix "-" := sub : num_scope.
Infix "*" := mul : num_scope.
Infix "/" := div : num_scope.
Infix "<?" := ltb : num_scope.
Infix "<=?" := leb : num_scope.
Infix ">?" := gtb : num_scope.
Infix ">=?" := geb : num_scope.
Infix "=?" := eqb : num_scope.

(* ===================================================================== *)
(** * Exceptions and loops *)
(* ===================================================================== *)

(** The outcome of a JavaScript call: a value, or a thrown exception. *)
Inductive result (A : Type) : Type :=
| Ok (a : A)
| TypeError
| DataError.
Arguments Ok {A} a.
Arguments TypeError {A}.
Arguments DataError {A}.

Definition bind {A B} (r : result A) (k : A -> result B) : result B :=
  match r with
  | Ok a => k a
  | TypeError => TypeError
  | DataError => DataError
  end.

Notation "x <- c ;; k" := (bind c (fun x => k))
  (at level 61, c at next level, right associativity).

(** [l[i]] followed by a property read: a [TypeError] out of range. *)
Definition get {A} (l : list A) (i : Z) : result A :=
  if (i <? 0)%Z then TypeError
  else match nth_error l (Z.to_nat i) with
       | Some a => Ok a
       | None => TypeError
       end.

(** [l[i]] alone: [undefined] ([None]) out of range. *)
Definition item {A} (l : list A) (i : Z) : option A :=
  if (i <? 0)%Z then None else nth_error l (Z.to_nat i).

Definition len {A} (l : list A) : Z := Z.of_nat (List.length l).

(** [l.slice(a, b)] for [0 <= a]. *)
Definition slice {A} (l : list A) (a b : Z) : list A :=
  firstn (Z.to_nat (b - a)) (skipn (Z.to_nat a) l).

(** [l.slice(0, -1)] *)
Definition slice_init {A} (l : list A) : list A := removelast l.

(** [l.slice(-k)] for [0 < k]. *)
Definition slice_last {A} (l : list A) (k : Z) : list A :=
  skipn (Z.to_nat (len l - k)) l.

(** [for (let i = a; ...; i++) body], run [n] times from [i]. *)
Fixpoint for_loop {S} (n : nat) (i : Z) (body : Z -> S -> result S) (s : S)
  : result S :=
  match n with
  | O => Ok s
  | Datatypes.S n' => s' <- body i s ;; for_loop n' (i + 1)%Z body s'
  end.

(** [for (let i = a; i < b; i++) body] *)
Definition for_range {S} (a b : Z) (body : Z -> S -> result S) (s : S)
  : result S :=
  for_loop (Z.to_nat (b - a)) a body s.

(** Number of a loop bound or period. *)
Definition ofZ (z : Z) : num := nZ z.

(* ===================================================================== *)
(** * Bars *)
(* ===================================================================== *)

(** One OHLCV bar as the price table stores it; prices are finite. *)
Record Candle : Type := mkCandle {
  time : Z;
  open : Qc;
  high : Qc;
  low : Qc;
  close : Qc;
  volume : Qc
}.

(** The moving averages read only [.close], and [calculateMACD] feeds
    [calculateEMA] objects [{ close: x }] that are not bars. *)
Class HasClose (A : Type) : Type := close_of : A -> num.

#[export] Instance Candle_HasClose : HasClose Candle :=
  fun c => Fin (close c).

Record CloseOnly : Type := mkCloseOnly { co_close : num }.

#[export] Instance CloseOnly_HasClose : HasClose CloseOnly := co_close.

Definition open_of (c : Candle) : num := Fin (open c).
Definition high_of (c : Candle) : num := Fin (high c).
Definition low_of (c : Candle) : num := Fin (low c).

(* ===================================================================== *)
(** * Indicators *)
(* ===================================================================== *)

Local Open Scope Z_scope.

(** [sum += candles[i].close] for [i] in [a, b). *)
Definition sum_closes {A} `{HasClose A} (candles : list A) (a b : Z)
  : result num :=
  for_range a b
    (fun i sum => c <- get candles i ;; Ok (sum + close_of c)%num)
    (nZ 0).

(** smaIndicator.js *)
Definition calculateSMA {A} `{HasClose A} (candles : list A) (period : Z)
  : result num :=
  if len candles <? period then
    c <- get candles (len candles - 1) ;; Ok (close_of c)
  else
    sum <- sum_closes candles (len candles - period) (len candles) ;;
    Ok (sum / ofZ period)%num.

(** emaIndicator.js *)
Definition calculateEMA {A} `{HasClose A} (candles : list A) (period : Z)
  : result num :=
  if len candles <? period then
    c <- get candles (len candles - 1) ;; Ok (close_of c)
  else
    sum <- sum_closes candles (len candles - period) (len candles) ;;
    let sma := (sum / ofZ period)%num in
    let multiplier := (nZ 2 / ofZ (period + 1))%num in
    for_range (len candles - period + 1) (len candles)
      (fun i ema =>
         c <- get candles i ;;
         Ok ((close_of c - ema) * multiplier + ema)%num)
      sma.

(** [candles[i].close - candles[i - 1].close] *)
Definition close_change (candles : list Candle) (i : Z) : result num :=
  c <- get candles i ;;
  p <- get candles (i - 1) ;;
  Ok (close_of c - close_of p)%num.

(** rsiIndicator.js *)
Definition calculateRSI (candles : list Candle) (period : Z) : result num :=
  if len candles <? period + 1 then Ok (nZ 50)
  else
    gl <- for_range 1 (period + 1)
            (fun i (gl : num * num) =>
               let '(gains, losses) := gl in
               change <- close_change candles i ;;
               if (change >=? nZ 0)%num
               then Ok ((gains + change)%num, losses)
               else Ok (gains, (losses - change)%num))
            (nZ 0, nZ 0) ;;
    let '(gains, losses) := gl in
    let avgGain := (gains / ofZ period)%num in
    let avgLoss := (losses / ofZ period)%num in
    avg <- for_range (period + 1) (len candles)
             (fun i (avg : num * num) =>
                let '(avgGain, avgLoss) := avg in
                change <- close_change candles i ;;
                let currentGain :=
                  if (change >=? nZ 0)%num then change else nZ 0 in
                let currentLoss :=
                  if (change >=? nZ 0)%num then nZ 0 else neg change in
                Ok (((avgGain * ofZ (period - 1) + currentGain)
                       / ofZ period)%num,
                    ((avgLoss * ofZ (period - 1) + currentLoss)
                       / ofZ period)%num))
             (avgGain, avgLoss) ;;
    let '(avgGain, avgLoss) := avg in
    if (avgLoss =? nZ 0)%num then Ok (nZ 100)
    else
      let rs := (avgGain / avgLoss)%num in
      Ok (nZ 100 - nZ 100 / (nZ 1 + rs))%num.

(** The true range of bar [i]:
    [max(high - low, |high - prevClose|, |low - prevClose|)]. *)
Definition true_range (candles : list Candle) (i : Z) : result num :=
  c <- get candles i ;;
  p <- get candles (i - 1) ;;
  let tr1 := (high_of c - low_of c)%num in
  let tr2 := abs (high_of c - close_of p)%num in
  let tr3 := abs (low_of c - close_of p)%num in
  Ok (max3 tr1 tr2 tr3).

(** [trueRanges.push(tr)] for every bar after the first. *)
Definition true_ranges (candles : list Candle) : result (list num) :=
  for_range 1 (len candles)
    (fun i trs => tr <- true_range candles i ;; Ok (trs ++ [tr]))
    [].

(** Reading [xs[i]] into arithmetic: [undefined] becomes [NaN]. *)
Definition item_num (xs : list num) (i : Z) : num :=
  match item xs i with Some x => x | None => NaN end.

(** atrIndicator.js *)
Definition calculateATR (candles : list Candle) (period : Z) : result num :=
  if len candles <? period + 1 then Ok (nZ 0)
  else
    trueRanges <- true_ranges candles ;;
    atr0 <- for_range 0 period
              (fun i atr => Ok (atr + item_num trueRanges i)%num)
              (nZ 0) ;;
    for_range period (len trueRanges)
      (fun i atr =>
         Ok ((atr * ofZ (period - 1) + item_num trueRanges i)
               / ofZ period)%num)
      (atr0 / ofZ period)%num.

(** bollingerBandsIndicator.js.  [Math.sqrt] is not rational: it is a
    parameter of the model. *)
Record Bands : Type := mkBands { upper : num; middle : num; lower : num }.

Section Bollinger.

Variable sqrt : num -> num.

Definition calculateBollingerBands (candles : list Candle)
  (period : Z) (multiplier : num) : result Bands :=
  if len candles <? period then
    c <- get candles (len candles - 1) ;;
    Ok (mkBands (close_of c) (close_of c) (close_of c))
  else
    sum <- sum_closes candles (len candles - period) (len candles) ;;
    let sma := (sum / ofZ period)%num in
    sumSquaredDiff <-
      for_range (len candles - period) (len candles)
        (fun i acc =>
           c <- get candles i ;;
           let diff := (close_of c - sma)%num in
           Ok (acc + diff * diff)%num)
        (nZ 0) ;;
    let stdDev := sqrt (sumSquaredDiff / ofZ period)%num in
    Ok (mkBands (sma + multiplier * stdDev)%num sma
                (sma - multiplier * stdDev)%num).

End Bollinger.

(** A JavaScript value that is a number, [undefined] or [null]. *)
Inductive jsval : Type :=
| Undefined
| Null
| Number (n : num).

(** [ToNumber] *)
Definition to_number (v : jsval) : num :=
  match v with
  | Undefined => NaN
  | Null => nZ 0
  | Number n => n
  end.

(** [xs[i]] as a value. *)
Definition item_val (xs : list num) (i : Z) : jsval :=
  match item xs i with Some x => Number x | None => Undefined end.

Record Stoch : Type := mkStoch { k : jsval; d : jsval }.

(** The highest high and lowest low of bars [a..b]. *)
Definition high_low (candles : list Candle) (a b : Z)
  : result (num * num) :=
  for_range a (b + 1)
    (fun j (hl : num * num) =>
       let '(highestHigh, lowestLow) := hl in
       c <- get candles j ;;
       Ok (max highestHigh (high_of c), min lowestLow (low_of c)))
    (NInf, PInf).

(** One raw %K value. *)
Definition raw_k (candles : list Candle) (period i : Z) : result num :=
  hl <- high_low candles (i - period + 1) i ;;
  let '(highestHigh, lowestLow) := hl in
  c <- get candles i ;;
  let currentClose := close_of c in
  Ok ((currentClose - lowestLow) / (highestHigh - lowestLow) * nZ 100)%num.

(** One 3-bar smoothing pass. *)
Definition smooth_pass (values : list num) : result (list num) :=
  for_range 2 (len values)
    (fun i temp =>
       Ok (temp ++ [((item_num values i + item_num values (i - 1)
                      + item_num values (i - 2)) / nZ 3)%num]))
    [].

(** stochasticIndicator.js *)
Definition calculateStochastic (candles : list Candle)
  (period smoothK smoothD : Z) : result Stoch :=
  if len candles <? period then Ok (mkStoch (Number (nZ 50)) (Number (nZ 50)))
  else
    rawKValues <-
      for_range (period - 1) (len candles)
        (fun i raws => rawK <- raw_k candles period i ;; Ok (raws ++ [rawK]))
        [] ;;
    smoothedKValues <-
      for_range 0 smoothK (fun _ values => smooth_pass values) rawKValues ;;
    dValue <-
      (if len smoothedKValues >=? smoothD then
         sum <- for_range (len smoothedKValues - smoothD)
                  (len smoothedKValues)
                  (fun i sum => Ok (sum + item_num smoothedKValues i)%num)
                  (nZ 0) ;;
         Ok (Number (sum / ofZ smoothD)%num)
       else
         Ok (item_val smoothedKValues (len smoothedKValues - 1))) ;;
    Ok (mkStoch (item_val smoothedKValues (len smoothedKValues - 1)) dValue).

(** The three series of [calculateADX]. *)
Record DMSeries : Type := mkDM {
  plusDM : list num;
  minusDM : list num;
  trueRange : list num
}.

Definition dm_step (candles : list Candle) (i : Z) (s : DMSeries)
  : result DMSeries :=
  c <- get candles i ;;
  p <- get candles (i - 1) ;;
  tr <- true_range candles i ;;
  let upMove := (high_of c - high_of p)%num in
  let downMove := (low_of p - low_of c)%num in
  let plus :=
    if (upMove >? downMove)%num && (upMove >? nZ 0)%num
    then upMove else nZ 0 in
  let minus :=
    if (downMove >? upMove)%num && (downMove >? nZ 0)%num
    then downMove else nZ 0 in
  Ok (mkDM (plusDM s ++ [plus]) (minusDM s ++ [minus]) (trueRange s ++ [tr])).

(** [xs.slice(0, period).reduce((a, b) => a + b, 0)] *)
Definition sum_first (xs : list num) (period : Z) : num :=
  fold_left add (slice xs 0 period) (nZ 0).

(** [(|plusDI - minusDI| / (plusDI + minusDI)) * 100] from the smoothed
    sums. *)
Definition dx_of (smoothedTR smoothedPlusDM smoothedMinusDM : num) : num :=
  let plusDI := (smoothedPlusDM / smoothedTR * nZ 100)%num in
  let minusDI := (smoothedMinusDM / smoothedTR * nZ 100)%num in
  (abs (plusDI - minusDI) / (plusDI + minusDI) * nZ 100)%num.

Record ADXState : Type := mkADX {
  smoothedTR : num;
  smoothedPlusDM : num;
  smoothedMinusDM : num;
  DX : num
}.

(** adxIndicator.js *)
Definition calculateADX (candles : list Candle) (period : Z)
  : result jsval :=
  if len candles <? period + 2 then Ok Null
  else
    s <- for_range 1 (len candles) (dm_step candles) (mkDM [] [] []) ;;
    let tr0 := sum_first (trueRange s) period in
    let plus0 := sum_first (plusDM s) period in
    let minus0 := sum_first (minusDM s) period in
    final <-
      for_range period (len (trueRange s))
        (fun i st =>
           let tr := (smoothedTR st - smoothedTR st / ofZ period
                      + item_num (trueRange s) i)%num in
           let plus := (smoothedPlusDM st - smoothedPlusDM st / ofZ period
                        + item_num (plusDM s) i)%num in
           let minus := (smoothedMinusDM st - smoothedMinusDM st / ofZ period
                         + item_num (minusDM s) i)%num in
           Ok (mkADX tr plus minus (dx_of tr plus minus)))
        (mkADX tr0 plus0 minus0 (dx_of tr0 plus0 minus0)) ;;
    Ok (Number (toFixed2 (DX final))).

Record MACD : Type := mkMACD {
  macdLine : num;
  signalLine : num;
  histogram : num
}.

(** macdIndicator.js *)
Definition calculateMACD (candles : list Candle)
  (fastPeriod slowPeriod signalPeriod : Z) : result MACD :=
  fastEMA <- calculateEMA candles fastPeriod ;;
  slowEMA <- calculateEMA candles slowPeriod ;;
  let macdLine := (fastEMA - slowEMA)%num in
  let macdCandles :=
    map (fun _ => mkCloseOnly (fastEMA - slowEMA)%num)
        (slice_last candles signalPeriod) in
  signalLine <- calculateEMA macdCandles signalPeriod ;;
  let histogram := (macdLine - signalLine)%num in
  Ok (mkMACD macdLine signalLine histogram).

(** The default arguments. *)
Definition calculateMACD_default (candles : list Candle) : result MACD :=
  calculateMACD candles 12 26 9.
Definition calculateStochastic_default (candles : list Candle)
  : result Stoch :=
  calculateStochastic candles 14 1 3.

(* ===================================================================== *)
(** * Candle patterns read by the strategy *)
(* ===================================================================== *)

Definition q_gtb (a b : Qc) : bool := q_ltb b a.

(** candlePatterns.js *)
Definition isBullishEngulfing (currentCandle previousCandle : Candle) : bool :=
  let prevBearish := q_ltb (close previousCandle) (open previousCandle) in
  let currBullish := q_gtb (close currentCandle) (open currentCandle) in
  let engulfed :=
    q_ltb (open currentCandle) (close previousCandle)
    && q_gtb (close currentCandle) (open previousCandle) in
  prevBearish && currBullish && engulfed.

Definition isBearishEngulfing (currentCandle previousCandle : Candle) : bool :=
  let prevBullish := q_gtb (close previousCandle) (open previousCandle) in
  let currBearish := q_ltb (close currentCandle) (open currentCandle) in
  let engulfed :=
    q_gtb (open currentCandle) (close previousCandle)
    && q_ltb (close currentCandle) (open previousCandle) in
  prevBullish && currBearish && engulfed.

(* ===================================================================== *)
(** * Decision engine: strategies/bob-is-awesome.js *)
(* ===================================================================== *)

Local Open Scope string_scope.
Local Open Scope list_scope.
Local Open Scope Z_scope.

Inductive Direction : Type := Long | Short.

Inductive Action : Type := Stop | Wait | Hold | Exit | Buy | Sell.

(** utils/account.js, [createAccount]. *)
Record Account : Type := mkAccount { balance : num; equity : num }.

Definition createAccount (initialBalance : num) : Account :=
  mkAccount initialBalance initialBalance.

(** The open position the simulator keeps. *)
Record Position : Type := mkPosition {
  direction : Direction;
  entryPrice : num;
  size : num;
  margin : num;
  leverage : num;
  entryTime : Z;
  entryReason : string;
  stopLoss : num;
  takeProfit : num;
  entryBalance : num;
  volatilityPercent : num;
  adx : jsval
}.

(** The order parameters of a buy or sell signal.  [o_volatilityPercent]
    is the number that the string [volatilityPercent.toFixed(2)] denotes. *)
Record Order : Type := mkOrder {
  o_direction : Direction;
  o_price : num;
  o_positionSize : num;
  o_leverage : num;
  o_stopLoss : num;
  o_takeProfit : num;
  o_volatilityPercent : num;
  o_adx : jsval
}.

(** The signal object, one constructor per [action]. *)
Inductive Signal : Type :=
| SigStop (reason : string)
| SigWait (reason : string)
| SigHold (reason : string)
| SigExit (reason : string) (price : num)
| SigBuy (reason : string) (o : Order)
| SigSell (reason : string) (o : Order).

Definition action (s : Signal) : Action :=
  match s with
  | SigStop _ => Stop
  | SigWait _ => Wait
  | SigHold _ => Hold
  | SigExit _ _ => Exit
  | SigBuy _ _ => Buy
  | SigSell _ _ => Sell
  end.

Definition reason (s : Signal) : string :=
  match s with
  | SigStop r | SigWait r | SigHold r | SigExit r _
  | SigBuy r _ | SigSell r _ => r
  end.

(** [adx !== null && adx < c] and [adx !== null && adx > c] *)
Definition adx_below (adx : jsval) (c : num) : bool :=
  match adx with Null => false | _ => (to_number adx <? c)%num end.
Definition adx_above (adx : jsval) (c : num) : bool :=
  match adx with Null => false | _ => (to_number adx >? c)%num end.

(** Strategy constants. *)
Definition profitTarget : num := nQ 1 10.
Definition stopLossPct : num := nQ 15 100.
Definition riskPercentage : num := nQ 3 10.
Definition strategyLeverage : num := nZ 3.

(** Everything [analyze] computes before it branches. *)
Record Snapshot : Type := mkSnapshot {
  currentCandle : Candle;
  previousCandle : Candle;
  ema5 : num;
  prevEma5 : num;
  rsi : num;
  prevRsi : num;
  snap_volatilityPercent : num;
  snap_adx : jsval;
  macd : MACD;
  prevMacd : MACD;
  stoch : Stoch;
  prevStoch : Stoch
}.

Definition snapshot (candles : list Candle) : result Snapshot :=
  currentCandle <- get candles (len candles - 1) ;;
  previousCandle <- get candles (len candles - 2) ;;
  ema5 <- calculateEMA candles 5 ;;
  ema8 <- calculateEMA candles 8 ;;
  ema13 <- calculateEMA candles 13 ;;
  prevEma5 <- calculateEMA (slice_init candles) 5 ;;
  prevEma8 <- calculateEMA (slice_init candles) 8 ;;
  rsi <- calculateRSI candles 14 ;;
  prevRsi <- calculateRSI (slice_init candles) 14 ;;
  atr <- calculateATR candles 14 ;;
  let volatilityPercent :=
    if (close_of currentCandle >? nZ 0)%num
    then (atr / close_of currentCandle * nZ 100)%num else nZ 0 in
  adx <- calculateADX candles 14 ;;
  macd <- calculateMACD_default candles ;;
  prevMacd <- calculateMACD_default (slice_init candles) ;;
  stoch <- calculateStochastic_default candles ;;
  prevStoch <- calculateStochastic_default (slice_init candles) ;;
  let isBullishEngulfing := isBullishEngulfing currentCandle previousCandle in
  let isBearishEngulfing := isBearishEngulfing currentCandle previousCandle in
  Ok (mkSnapshot currentCandle previousCandle ema5 prevEma5 rsi prevRsi
        volatilityPercent adx macd prevMacd stoch prevStoch).

(** The sizing block of [analyze]: risk 0.3% of the balance over the stop
    distance, capped at 20% of the balance. *)
Definition position_size (accountBalance close_now : num) : num :=
  let riskAmount := (accountBalance * (riskPercentage / nZ 100))%num in
  let stopLossAmount := (close_now * (stopLossPct / nZ 100))%num in
  let positionSize := (riskAmount / stopLossAmount)%num in
  let maxPositionValue := (accountBalance * nQ 20 100)%num in
  let positionValue := (positionSize * close_now)%num in
  if (positionValue >? maxPositionValue)%num
  then (maxPositionValue / close_now)%num else positionSize.

Section Decide.

Variable s : Snapshot.

Let close_now : num := close_of (currentCandle s).
Let bullishCandle : bool := (close_now >? open_of (currentCandle s))%num.
Let bearishCandle : bool := (close_now <? open_of (currentCandle s))%num.
Let momentumUp : bool := (close_now >? close_of (previousCandle s))%num.
Let momentumDown : bool := (close_now <? close_of (previousCandle s))%num.
Let microUptrend : bool := (ema5 s >? prevEma5 s)%num.
Let microDowntrend : bool := (ema5 s <? prevEma5 s)%num.
Let hist : num := histogram (macd s).

(** The branch of [analyze] taken while a position is open. *)
Definition manage (currentPosition : Position) : Signal :=
  let currentPnL :=
    match direction currentPosition with
    | Long => ((close_now - entryPrice currentPosition)
               / entryPrice currentPosition * nZ 100)%num
    | Short => ((entryPrice currentPosition - close_now)
                / entryPrice currentPosition * nZ 100)%num
    end in
  if (currentPnL >=? profitTarget)%num then
    SigExit "Take profit hit" close_now
  else if (currentPnL <=? neg stopLossPct)%num then
    SigExit "Stop loss hit" close_now
  else
    match direction currentPosition with
    | Long =>
        if bearishCandle || microDowntrend || (hist <? nZ 0)%num then
          SigExit "Trend change" close_now
        else if (currentPnL >? nQ 5 100)%num
                && (close_now * nQ 9995 10000
                    >? entryPrice currentPosition)%num then
          SigExit "Trailing stop hit" close_now
        else SigHold "Maintaining position"
    | Short =>
        if bullishCandle || microUptrend || (hist >? nZ 0)%num then
          SigExit "Trend change" close_now
        else if (currentPnL >? nQ 5 100)%num
                && (close_now * nQ 10005 10000
                    <? entryPrice currentPosition)%num then
          SigExit "Trailing stop hit" close_now
        else SigHold "Maintaining position"
    end.

(** The branch of [analyze] taken while no position is open. *)
Definition look_for_entry (accountBalance : num) : Signal :=
  let volatilityPercent := snap_volatilityPercent s in
  let adx := snap_adx s in
  if (volatilityPercent <? nQ 2 100)%num then
    SigWait "Extremely low volatility"
  else if adx_below adx (nZ 15) && (volatilityPercent <? nQ 5 100)%num then
    SigWait "Weak trend with insufficient volatility"
  else
    let positionSize := position_size accountBalance close_now in
    let stoch_k := to_number (k (stoch s)) in
    let stoch_d := to_number (d (stoch s)) in
    let longSignal :=
      (bullishCandle || momentumUp)
      && (microUptrend || (rsi s >? nZ 40)%num || (hist >? nZ 0)%num
          || (stoch_k >? stoch_d)%num) in
    let oversoldBounce :=
      ((rsi s <? nZ 40)%num && (rsi s >? prevRsi s)%num)
      && (bullishCandle || momentumUp) in
    let strongTrendUp := adx_above adx (nZ 20) && microUptrend in
    if (longSignal || oversoldBounce || strongTrendUp)
       && negb (adx_below adx (nZ 15) && (rsi s >? nZ 60)%num) then
      let reason :=
        if strongTrendUp then "Strong uptrend detected"
        else if oversoldBounce then "Oversold bounce"
        else "Long setup" in
      SigBuy reason
        (mkOrder Long close_now positionSize strategyLeverage
           (close_now * (nZ 1 - stopLossPct / nZ 100))%num
           (close_now * (nZ 1 + profitTarget / nZ 100))%num
           (toFixed2 volatilityPercent) adx)
    else
      let shortSignal :=
        (bearishCandle || momentumDown)
        && (microDowntrend || (rsi s <? nZ 60)%num || (hist <? nZ 0)%num
            || (stoch_k <? stoch_d)%num) in
      let overboughtDrop :=
        ((rsi s >? nZ 60)%num && (rsi s <? prevRsi s)%num)
        && (bearishCandle || momentumDown) in
      let strongTrendDown := adx_above adx (nZ 20) && microDowntrend in
      if (shortSignal || overboughtDrop || strongTrendDown)
         && negb (adx_below adx (nZ 15) && (rsi s <? nZ 40)%num) then
        let reason :=
          if strongTrendDown then "Strong downtrend detected"
          else if overboughtDrop then "Overbought drop"
          else "Short setup" in
        SigSell reason
          (mkOrder Short close_now positionSize strategyLeverage
             (close_now * (nZ 1 + stopLossPct / nZ 100))%num
             (close_now * (nZ 1 - profitTarget / nZ 100))%num
             (toFixed2 volatilityPercent) adx)
      else SigWait "Waiting for setup".

End Decide.

(** [analyze(candles, currentPosition, account, config)]; [config] is not
    read. *)
Definition analyze (candles : list Candle) (currentPosition : option Position)
  (account : Account) : result Signal :=
  let accountBalance := or_else (balance account) (nZ 1000) in
  if (accountBalance <=? nZ 0)%num then
    Ok (SigStop "Account bankrupt - balance is zero or negative")
  else if len candles <? 15 then Ok (SigWait "Not enough data")
  else
    s <- snapshot candles ;;
    match currentPosition with
    | Some p => Ok (manage s p)
    | None => Ok (look_for_entry s accountBalance)
    end.

(* ===================================================================== *)
(** * Backtest engine: simulator.js *)
(* ===================================================================== *)

(** The part of the configuration that [run] reads for the arithmetic. *)
Record Config : Type := mkConfig {
  initialBalance : num;
  feePercentage : num
}.

(** A closed trade: the position's fields and the exit's. *)
Record Trade : Type := mkTrade {
  position : Position;
  exitPrice : num;
  exitTime : Z;
  exitReason : string;
  profit : num;
  profitPercentage : num;
  fees : num
}.

(** An element of [tradeHistory]: a closed trade, or the record pushed when
    the strategy asks to stop. *)
Inductive LedgerEntry : Type :=
| ClosedTrade (t : Trade)
| HaltEntry (timestamp : Z) (reason : string) (balance : num).

(** The variables of the loop.  [engineCalls] is a ghost log: the bar index
    of every call of [strategy.analyze], latest first. *)
Record SimState : Type := mkSim {
  tradingAccount : Account;
  currentPosition : option Position;
  tradeHistory : list LedgerEntry;
  engineCalls : list Z
}.

Inductive Flow : Type :=
| Continue (st : SimState)
| Break (st : SimState).

Definition flow_state (f : Flow) : SimState :=
  match f with Continue st | Break st => st end.

Definition set_balance (a : Account) (b : num) : Account :=
  mkAccount b (equity a).

Section Step.

Variable config : Config.

Definition fee_rate : num := (feePercentage config / nZ 100)%num.

(** [signal.positionSize * signal.leverage] *)
Definition leveraged_size (signal : Order) : num :=
  (o_positionSize signal * o_leverage signal)%num.

(** [(positionSize * currentPrice) / signal.leverage] *)
Definition required_margin (currentCandle : Candle) (signal : Order) : num :=
  (leveraged_size signal * close_of currentCandle / o_leverage signal)%num.

(** [margin * (config.feePercentage / 100)] *)
Definition entry_fees (currentCandle : Candle) (signal : Order) : num :=
  (required_margin currentCandle signal * fee_rate)%num.

(** The entry branch, the same for [buy] and [sell]. *)
Definition enter (currentCandle : Candle) (reason : string) (signal : Order)
  (st : SimState) : Flow :=
  let currentPrice := close_of currentCandle in
  let positionSize := leveraged_size signal in
  let margin := required_margin currentCandle signal in
  let fees := entry_fees currentCandle signal in
  if (margin + fees >? balance (tradingAccount st))%num then Continue st
  else
    let pos :=
      mkPosition (o_direction signal) currentPrice positionSize margin
        (o_leverage signal) (time currentCandle) reason
        (o_stopLoss signal) (o_takeProfit signal)
        (balance (tradingAccount st))
        (o_volatilityPercent signal) (o_adx signal) in
    Continue
      (mkSim
         (set_balance (tradingAccount st)
            (balance (tradingAccount st) - (margin + fees))%num)
         (Some pos) (tradeHistory st) (engineCalls st)).

(** [(exit - entry) * size] for a long, [(entry - exit) * size] for a
    short. *)
Definition pnl_of (p : Position) (currentPrice : num) : num :=
  match direction p with
  | Long => ((currentPrice - entryPrice p) * size p)%num
  | Short => ((entryPrice p - currentPrice) * size p)%num
  end.

(** The trade recorded when [p] is closed at the bar's close. *)
Definition close_trade (currentCandle : Candle) (exitReason : string)
  (p : Position) : Trade :=
  let currentPrice := close_of currentCandle in
  let pnl := pnl_of p currentPrice in
  let exitFees := (margin p * fee_rate)%num in
  let totalPnl := (pnl - exitFees)%num in
  let profitPercentage := (totalPnl / margin p * nZ 100)%num in
  mkTrade p currentPrice (time currentCandle) exitReason totalPnl
    profitPercentage exitFees.

(** The closing code, shared by the exit branch and the four price
    triggers. *)
Definition close_position (currentCandle : Candle) (exitReason : string)
  (p : Position) (st : SimState) : Flow :=
  let trade := close_trade currentCandle exitReason p in
  Continue
    (mkSim
       (set_balance (tradingAccount st)
          (balance (tradingAccount st) + (margin p + profit trade))%num)
       None
       (tradeHistory st ++ [ClosedTrade trade])
       (engineCalls st)).

(** The stop-loss and take-profit monitoring of the last [else if]. *)
Definition price_triggers (currentCandle : Candle) (p : Position)
  (st : SimState) : Flow :=
  let currentPrice := close_of currentCandle in
  match direction p with
  | Long =>
      if (currentPrice <=? stopLoss p)%num then
        close_position currentCandle "Stop loss triggered" p st
      else if (currentPrice >=? takeProfit p)%num then
        close_position currentCandle "Take profit triggered" p st
      else Continue st
  | Short =>
      if (currentPrice >=? stopLoss p)%num then
        close_position currentCandle "Stop loss triggered" p st
      else if (currentPrice <=? takeProfit p)%num then
        close_position currentCandle "Take profit triggered" p st
      else Continue st
  end.

(** What the loop body does with the strategy's signal. *)
Definition apply_signal (currentCandle : Candle) (signal : Signal)
  (st : SimState) : Flow :=
  match signal with
  | SigStop reason =>
      Break
        (mkSim (tradingAccount st) (currentPosition st)
           (tradeHistory st
            ++ [HaltEntry (time currentCandle) reason
                  (balance (tradingAccount st))])
           (engineCalls st))
  | _ =>
      match signal, currentPosition st with
      | SigBuy reason o, None => enter currentCandle reason o st
      | SigSell reason o, None => enter currentCandle reason o st
      | SigExit reason _, Some p => close_position currentCandle reason p st
      | _, Some p => price_triggers currentCandle p st
      | _, None => Continue st
      end
  end.

(** The low-balance test at the top of the loop body: [true] when the loop
    breaks before the strategy is called. *)
Definition balance_break (st : SimState) : bool :=
  let b := balance (tradingAccount st) in
  match currentPosition st with
  | None => if (b <? nZ 2)%num then false else (b <? nQ 1 2)%num
  | Some _ => (b <? nQ 1 2)%num
  end.

Definition log_call (i : Z) (st : SimState) : SimState :=
  mkSim (tradingAccount st) (currentPosition st) (tradeHistory st)
    (i :: engineCalls st).

(** One iteration of the loop, at bar [i]. *)
Definition step (priceData : list Candle) (i : Z) (st : SimState)
  : result Flow :=
  let candles := slice priceData 0 (i + 1) in
  currentCandle <- get candles i ;;
  if balance_break st then Ok (Break st)
  else
    signal <- analyze candles (currentPosition st) (tradingAccount st) ;;
    Ok (apply_signal currentCandle signal (log_call i st)).

(** [for (let i = ...; i < priceData.length; i++)], stopped by [break]. *)
Fixpoint sim_loop (priceData : list Candle) (n : nat) (i : Z) (st : SimState)
  : result SimState :=
  match n with
  | O => Ok st
  | S n' =>
      f <- step priceData i st ;;
      match f with
      | Continue st' => sim_loop priceData n' (i + 1) st'
      | Break st' => Ok st'
      end
  end.

(** [trade.profit] of a ledger element; the stop record has none. *)
Definition entry_profit (e : LedgerEntry) : jsval :=
  match e with
  | ClosedTrade t => Number (profit t)
  | HaltEntry _ _ _ => Undefined
  end.

Record Stats : Type := mkStats {
  stat_initialBalance : num;
  finalBalance : num;
  totalTrades : Z;
  winningTrades : Z;
  losingTrades : Z;
  winRate : num;
  profitFactor : num;
  pnl : num;
  pnlPercentage : num
}.

(** [xs.reduce((sum, trade) => sum + trade.profit, 0)] *)
Definition sum_profit (xs : list LedgerEntry) : num :=
  fold_left (fun sum e => (sum + to_number (entry_profit e))%num) xs (nZ 0).

Definition compute_stats (st : SimState) : Stats :=
  let history := tradeHistory st in
  let winning :=
    filter (fun e => (to_number (entry_profit e) >? nZ 0)%num) history in
  let losing :=
    filter (fun e => (to_number (entry_profit e) <=? nZ 0)%num) history in
  let totalProfit := sum_profit winning in
  let totalLoss := abs (sum_profit losing) in
  let bal := balance (tradingAccount st) in
  mkStats (initialBalance config) bal (len history) (len winning) (len losing)
    (if len history >? 0
     then (ofZ (len winning) / ofZ (len history) * nZ 100)%num else nZ 0)
    (if (totalLoss >? nZ 0)%num then (totalProfit / totalLoss)%num
     else if (totalProfit >? nZ 0)%num then PInf else nZ 0)
    (bal - initialBalance config)%num
    ((bal / initialBalance config - nZ 1) * nZ 100)%num.

Definition initial_state : SimState :=
  mkSim (createAccount (initialBalance config)) None [] [].

(** The index of the first bar the loop visits. *)
Definition first_bar : Z := 50.

(** [run(config)] from the bars the database finally delivers (after the
    CSV import, when it was needed); no bars at all is the thrown
    missing-data error.  Persisting the result and logging are left out. *)
Definition run (priceData : list Candle)
  : result (Stats * list LedgerEntry) :=
  if len priceData =? 0 then DataError
  else
    st <- sim_loop priceData (Z.to_nat (len priceData - first_bar))
            first_bar initial_state ;;
    Ok (compute_stats st, tradeHistory st).

(** The loop alone, for statements about its final state. *)
Definition run_loop (priceData : list Candle) : result SimState :=
  sim_loop priceData (Z.to_nat (len priceData - first_bar))
    first_bar initial_state.

End Step.

(** The order parameters of an enter signal. *)
Definition entry_order (s : Signal) : option Order :=
  match s with
  | SigBuy _ o | SigSell _ o => Some o
  | _ => None
  end.

(** utils/config.js: the defaults of the fee and of the starting balance. *)
Definition default_config : Config := mkConfig (nZ 10000) (nQ 75 1000).

(* ===================================================================== *)
(** * Support and resistance: supportResistanceIndicator.js *)
(* ===================================================================== *)

(** [for (let j = ...; ...; j++) { if (cond) return ...; }], run [n]
    times from [j]: whether the [return] was taken. *)
Fixpoint return_loop (n : nat) (j : Z) (cond : Z -> result bool)
  : result bool :=
  match n with
  | O => Ok false
  | S n' =>
      hit <- cond j ;;
      if hit then Ok true else return_loop n' (j + 1) cond
  end.

(** [for (let j = a; j < b; j++) { if (cond) return ...; }] *)
Definition return_range (a b : Z) (cond : Z -> result bool) : result bool :=
  return_loop (Z.to_nat (b - a)) a cond.

Definition isSupport (candles : list Candle) (i lookback : Z) : result bool :=
  if (i <? lookback) || (i >=? len candles - lookback) then Ok false
  else
    cur <- get candles i ;;
    let currentLow := low_of cur in
    before <- return_range (i - lookback) i
                (fun j => c <- get candles j ;;
                          Ok (currentLow >=? low_of c)%num) ;;
    if before then Ok false
    else
      after <- return_range (i + 1) (i + lookback + 1)
                 (fun j => c <- get candles j ;;
                           Ok (currentLow >=? low_of c)%num) ;;
      if after then Ok false else Ok true.

Definition isResistance (candles : list Candle) (i lookback : Z)
  : result bool :=
  if (i <? lookback) || (i >=? len candles - lookback) then Ok false
  else
    cur <- get candles i ;;
    let currentHigh := high_of cur in
    before <- return_range (i - lookback) i
                (fun j => c <- get candles j ;;
                          Ok (currentHigh <=? high_of c)%num) ;;
    if before then Ok false
    else
      after <- return_range (i + 1) (i + lookback + 1)
                 (fun j => c <- get candles j ;;
                           Ok (currentHigh <=? high_of c)%num) ;;
      if after then Ok false else Ok true.

(* ===================================================================== *)
(** * Candle patterns: patterns/candlePatterns.js *)
(* ===================================================================== *)

(** [Math.abs], [Math.max] and [Math.min] on finite prices, and [>=]. *)
Definition q_abs (a : Qc) : Qc := if q_ltb a (qz 0) then (- a)%Qc else a.
Definition q_max (a b : Qc) : Qc := if q_ltb a b then b else a.
Definition q_min (a b : Qc) : Qc := if q_ltb b a then b else a.
Definition q_geb (a b : Qc) : bool := q_leb b a.

Definition isDoji (candle : Candle) (tolerance : Qc) : bool :=
  let bodySize := q_abs (close candle - open candle)%Qc in
  let candleRange := (high candle - low candle)%Qc in
  q_leb bodySize (candleRange * (tolerance / qz 100))%Qc.

(** The default tolerance, 0.05. *)
Definition isDoji_default (candle : Candle) : bool :=
  isDoji candle (qfrac 5 100).

Definition isHammer (candle : Candle) : bool :=
  let bodySize := q_abs (close candle - open candle)%Qc in
  let upperShadow :=
    (high candle - q_max (open candle) (close candle))%Qc in
  let lowerShadow :=
    (q_min (open candle) (close candle) - low candle)%Qc in
  q_geb lowerShadow (bodySize * qz 2)%Qc
  && q_leb upperShadow (bodySize * qfrac 1 2)%Qc.

Definition isShootingStar (candle : Candle) : bool :=
  let bodySize := q_abs (close candle - open candle)%Qc in
  let upperShadow :=
    (high candle - q_max (open candle) (close candle))%Qc in
  let lowerShadow :=
    (q_min (open candle) (close candle) - low candle)%Qc in
  q_geb upperShadow (bodySize * qz 2)%Qc
  && q_leb lowerShadow (bodySize * qfrac 1 2)%Qc.

Definition isBullishHarami (currentCandle previousCandle : Candle) : bool :=
  let prevBearish := q_ltb (close previousCandle) (open previousCandle) in
  let currBullish := q_gtb (close currentCandle) (open currentCandle) in
  let insideBody :=
    q_gtb (open currentCandle) (close previousCandle)
    && q_ltb (close currentCandle) (open previousCandle) in
  prevBearish && currBullish && insideBody.

Definition isBearishHarami (currentCandle previousCandle : Candle) : bool :=
  let prevBullish := q_gtb (close previousCandle) (open previousCandle) in
  let currBearish := q_ltb (close currentCandle) (open currentCandle) in
  let insideBody :=
    q_ltb (open currentCandle) (close previousCandle)
    && q_gtb (close currentCandle) (open previousCandle) in
  prevBullish && currBearish && insideBody.

Definition isMorningStar (c1 c2 c3 : Candle) : bool :=
  let c1Bearish := q_ltb (close c1) (open c1) in
  let c1LargeBody :=
    q_gtb (q_abs (close c1 - open c1))
          ((high c1 - low c1) * qfrac 6 10)%Qc in
  let c2SmallBody :=
    q_ltb (q_abs (close c2 - open c2))
          ((high c2 - low c2) * qfrac 3 10)%Qc in
  let gapDown := q_ltb (q_max (open c2) (close c2)) (close c1) in
  let c3Bullish := q_gtb (close c3) (open c3) in
  let c3LargeBody :=
    q_gtb (q_abs (close c3 - open c3))
          ((high c3 - low c3) * qfrac 6 10)%Qc in
  let closes := q_gtb (close c3) ((open c1 + close c1) / qz 2)%Qc in
  c1Bearish && c1LargeBody && c2SmallBody && gapDown && c3Bullish
  && c3LargeBody && closes.

Definition isEveningStar (c1 c2 c3 : Candle) : bool :=
  let c1Bullish := q_gtb (close c1) (open c1) in
  let c1LargeBody :=
    q_gtb (q_abs (close c1 - open c1))
          ((high c1 - low c1) * qfrac 6 10)%Qc in
  let c2SmallBody :=
    q_ltb (q_abs (close c2 - open c2))
          ((high c2 - low c2) * qfrac 3 10)%Qc in
  let gapUp := q_gtb (q_min (open c2) (close c2)) (close c1) in
  let c3Bearish := q_ltb (close c3) (open c3) in
  let c3LargeBody :=
    q_gtb (q_abs (close c3 - open c3))
          ((high c3 - low c3) * qfrac 6 10)%Qc in
  let closes := q_ltb (close c3) ((open c1 + close c1) / qz 2)%Qc in
  c1Bullish && c1LargeBody && c2SmallBody && gapUp && c3Bearish
  && c3LargeBody && closes.

Definition isThreeWhiteSoldiers (c1 c2 c3 : Candle) : bool :=
  let allBullish :=
    q_gtb (close c1) (open c1) && q_gtb (close c2) (open c2)
    && q_gtb (close c3) (open c3) in
  let higherCloses :=
    q_gtb (close c3) (close c2) && q_gtb (close c2) (close c1) in
  let properOpens :=
    q_gtb (open c2) (open c1) && q_ltb (open c2) (close c1)
    && q_gtb (open c3) (open c2) && q_ltb (open c3) (close c2) in
  let smallUpperWicks :=
    q_ltb (high c1 - close c1)%Qc ((close c1 - open c1) * qfrac 3 10)%Qc
    && q_ltb (high c2 - close c2)%Qc ((close c2 - open c2) * qfrac 3 10)%Qc
    && q_ltb (high c3 - close c3)%Qc ((close c3 - open c3) * qfrac 3 10)%Qc in
  allBullish && higherCloses && properOpens && smallUpperWicks.

Definition isThreeBlackCrows (c1 c2 c3 : Candle) : bool :=
  let allBearish :=
    q_ltb (close c1) (open c1) && q_ltb (close c2) (open c2)
    && q_ltb (close c3) (open c3) in
  let lowerCloses :=
    q_ltb (close c3) (close c2) && q_ltb (close c2) (close c1) in
  let properOpens :=
    q_ltb (open c2) (open c1) && q_gtb (open c2) (close c1)
    && q_ltb (open c3) (open c2) && q_gtb (open c3) (close c2) in
  let smallLowerWicks :=
    q_ltb (open c1 - low c1)%Qc ((open c1 - close c1) * qfrac 3 10)%Qc
    && q_ltb (open c2 - low c2)%Qc ((open c2 - close c2) * qfrac 3 10)%Qc
    && q_ltb (open c3 - low c3)%Qc ((open c3 - close c3) * qfrac 3 10)%Qc in
  allBearish && lowerCloses && properOpens && smallLowerWicks.

(** [calcCandleStrength(candle)]; [None] is a missing candle. *)
Definition calcCandleStrength (candle : option Candle) : Qc :=
  match candle with
  | None => qz 0
  | Some candle =>
      let strength := qz 0 in
      let range := (high candle - low candle)%Qc in
      let body := q_abs (close candle - open candle)%Qc in
      let upperWick :=
        (high candle - q_max (open candle) (close candle))%Qc in
      let lowerWick :=
        (q_min (open candle) (close candle) - low candle)%Qc in
      let isBullish := q_gtb (close candle) (open candle) in
      let strength :=
        (strength + (if isBullish then qz 3 else qz (-3)))%Qc in
      let strength :=
        if q_gtb body (range * qfrac 7 10)%Qc then
          (strength + (if isBullish then qz 3 else qz (-3)))%Qc
        else if q_ltb body (range * qfrac 2 10)%Qc then
          (strength / qz 2)%Qc
        else strength in
      let strength :=
        if isBullish && q_gtb lowerWick (body * qz 2)%Qc then
          (strength + qz 2)%Qc
        else if negb isBullish && q_gtb upperWick (body * qz 2)%Qc then
          (strength - qz 2)%Qc
        else strength in
      q_max (qz (-10)) (q_min (qz 10) strength)
  end.

(** The object [detectPattern] returns; only the answer on fewer than
    three candles has no [direction]. *)
Record Pattern : Type := mkPattern {
  pattern : string;
  strength : Qc;
  pattern_direction : option string
}.

(** [detectPattern(candles)] for an array [candles]. *)
Definition detectPattern (candles : list Candle) : result Pattern :=
  if len candles <? 3 then Ok (mkPattern "unknown" (qz 0) None)
  else
    c1 <- get candles (len candles - 3) ;;
    c2 <- get candles (len candles - 2) ;;
    c3 <- get candles (len candles - 1) ;;
    if isMorningStar c1 c2 c3 then
      Ok (mkPattern "morning_star" (qz 9) (Some "bullish"))
    else if isEveningStar c1 c2 c3 then
      Ok (mkPattern "evening_star" (qz (-9)) (Some "bearish"))
    else if isThreeWhiteSoldiers c1 c2 c3 then
      Ok (mkPattern "three_white_soldiers" (qz 8) (Some "bullish"))
    else if isThreeBlackCrows c1 c2 c3 then
      Ok (mkPattern "three_black_crows" (qz (-8)) (Some "bearish"))
    else if isBullishEngulfing c3 c2 then
      Ok (mkPattern "bullish_engulfing" (qz 7) (Some "bullish"))
    else if isBearishEngulfing c3 c2 then
      Ok (mkPattern "bearish_engulfing" (qz (-7)) (Some "bearish"))
    else if isBullishHarami c3 c2 then
      Ok (mkPattern "bullish_harami" (qz 5) (Some "bullish"))
    else if isBearishHarami c3 c2 then
      Ok (mkPattern "bearish_harami" (qz (-5)) (Some "bearish"))
    else if isDoji_default c3 then
      Ok (mkPattern "doji" (qz 0) (Some "neutral"))
    else if isHammer c3 then
      Ok (mkPattern "hammer" (qz 6) (Some "bullish"))
    else if isShootingStar c3 then
      Ok (mkPattern "shooting_star" (qz (-6)) (Some "bearish"))
    else
      let strength := calcCandleStrength (Some c3) in
      Ok (mkPattern "basic_candle" strength
            (Some (if q_gtb strength (qz 0) then "bullish"
                   else if q_ltb strength (qz 0) then "bearish"
                   else "neutral"))).

(* ===================================================================== *)
(** * Account utilities: utils/account.js *)
(* ===================================================================== *)

Definition calculatePositionSize (balance price riskPercentage leverage : num)
  : num :=
  let riskAmount := (balance * (riskPercentage / nZ 100))%num in
  (riskAmount / price * leverage)%num.

Definition calculateMargin (price size leverage : num) : num :=
  (price * size / leverage)%num.

Definition calculatePnL (direction : string)
  (entryPrice currentPrice size : num) : num :=
  if String.eqb direction "long"
  then ((currentPrice - entryPrice) * size)%num
  else ((entryPrice - currentPrice) * size)%num.

(* ===================================================================== *)
(** * Resampling: database.js *)
(* ===================================================================== *)

(** The [switch] of [resampleCandles]: the length of a recognised
    interval in milliseconds. *)
Definition interval_ms (interval : string) : option Z :=
  if String.eqb interval "1h" then Some (60 * 60 * 1000)
  else if String.eqb interval "4h" then Some (4 * 60 * 60 * 1000)
  else if String.eqb interval "1d" then Some (24 * 60 * 60 * 1000)
  else None.

(** [Math.floor(candle.time / intervalMs) * intervalMs] *)
Definition interval_start (intervalMs : Z) (candle : Candle) : Z :=
  time candle / intervalMs * intervalMs.

(** The group a first candle opens, and the update by a later candle.
    [timestamp] is a copy of [time] in every candle the module builds and
    has no field of its own here. *)
Definition new_group (intervalStart : Z) (candle : Candle) : Candle :=
  mkCandle intervalStart (open candle) (high candle) (low candle)
    (close candle) (volume candle).

Definition update_group (group candle : Candle) : Candle :=
  mkCandle (time group) (open group)
    (q_max (high group) (high candle))
    (q_min (low group) (low candle))
    (close candle)
    (volume group + volume candle)%Qc.

(** One iteration of the grouping loop on the object [groupedCandles],
    kept as the list of its entries in the order of their creation. *)
Fixpoint add_candle (intervalStart : Z) (candle : Candle)
  (groupedCandles : list (Z * Candle)) : list (Z * Candle) :=
  match groupedCandles with
  | [] => [(intervalStart, new_group intervalStart candle)]
  | (key, group) :: rest =>
      if key =? intervalStart
      then (key, update_group group candle) :: rest
      else (key, group) :: add_candle intervalStart candle rest
  end.

Definition group_candles (intervalMs : Z) (candles : list Candle)
  : list (Z * Candle) :=
  fold_left
    (fun groupedCandles candle =>
       add_candle (interval_start intervalMs candle) candle groupedCandles)
    candles [].

(** [.sort((a, b) => a.time - b.time)]: the stable sort by time. *)
Fixpoint insert_by_time (c : Candle) (sorted : list Candle) : list Candle :=
  match sorted with
  | [] => [c]
  | x :: rest =>
      if time c <=? time x then c :: x :: rest
      else x :: insert_by_time c rest
  end.

Definition sort_by_time (l : list Candle) : list Candle :=
  fold_right insert_by_time [] l.

Definition resampleCandles (candles : list Candle) (interval : string)
  : list Candle :=
  if String.eqb interval "1m" || (len candles =? 0) then candles
  else
    match interval_ms interval with
    | None => candles
    | Some intervalMs =>
        sort_by_time (map snd (group_candles intervalMs candles))
    end.

(* ===================================================================== *)
(** * Saving the trades: database.js *)
(* ===================================================================== *)

(** A row of the table [trades]: the columns copied from the trade, the
    leverage column and the two balance columns.  The two time columns
    are the ISO strings of the trade's times. *)
Record TradeRow : Type := mkTradeRow {
  row_trade : Trade;
  row_leverage : num;
  prev_balance : num;
  new_balance : num
}.

(** [new Date(t).toISOString()] throws a [RangeError] unless [t] is a time
    value, at most 8.64e15 ms from the epoch. *)
Definition valid_time (t : Z) : bool := Z.abs t <=? 8640000000000000.

(** The body of the loop of [saveTrades] up to the call of
    [insertStmt.run]: the row, or [None] when building it throws.  The
    record of a stop has no [entryTime], and [new Date(undefined)] is no
    date. *)
Definition trade_row (runningBalance : num) (trade : LedgerEntry)
  : option TradeRow :=
  match trade with
  | ClosedTrade t =>
      let prevBalance := runningBalance in
      let runningBalance := (runningBalance + profit t)%num in
      if valid_time (entryTime (position t)) && valid_time (exitTime t)
      then Some (mkTradeRow t (or_else (leverage (position t)) (nZ 1))
                   prevBalance runningBalance)
      else None
  | HaltEntry _ _ _ => None
  end.

(** The loop: the rows handed to the insert statement, or [None] when an
    iteration throws. *)
Fixpoint insert_rows (runningBalance : num) (trades : list LedgerEntry)
  : option (list TradeRow) :=
  match trades with
  | [] => Some []
  | trade :: rest =>
      match trade_row runningBalance trade with
      | None => None
      | Some row =>
          match insert_rows (new_balance row) rest with
          | None => None
          | Some rows => Some (row :: rows)
          end
      end
  end.

(** [saveTrades(simulationId, trades, account)] on a database that accepts
    every statement: the returned flag and the rows that the transaction
    leaves in the table, none after ROLLBACK.  [simulationId] is [None]
    when [saveSimulation] returned [null]. *)
Definition saveTrades (simulationId : option Z) (trades : list LedgerEntry)
  (initialBalance : num) : bool * list TradeRow :=
  match simulationId with
  | None | Some 0 => (false, [])
  | Some _ =>
      match insert_rows initialBalance trades with
      | Some rows => (true, rows)
      | None => (false, [])
      end
  end.

(* ===================================================================== *)
(** * The moving averages in binary64 *)
(* ===================================================================== *)

(** The program's numbers are IEEE-754 binary64.  The functions below are
    [calculateEMA] and [calculateMACD] once more, line for line, over the
    kernel's binary64 floats ([PrimFloat], round to nearest even), where
    the functions above compute with exact rationals.  An array of
    candles is given by its [close] fields, the only fields that the two
    functions read.  They serve to evaluate the program's own arithmetic
    at concrete inputs. *)
Module Binary64.

Definition f64 : Set := PrimFloat.float.

(** The double of a loop bound or period, and of an integer price. *)
Definition ofZ (z : Z) : f64 := PrimFloat.of_uint63 (Uint63.of_Z z).

(** [sum += candles[i].close] for [i] in [a, b). *)
Definition sum_closes (closes : list f64) (a b : Z) : result f64 :=
  for_range a b
    (fun i sum => c <- get closes i ;; Ok (PrimFloat.add sum c))
    (ofZ 0).

(** emaIndicator.js *)
Definition calculateEMA (closes : list f64) (period : Z) : result f64 :=
  if len closes <? period then get closes (len closes - 1)
  else
    sum <- sum_closes closes (len closes - period) (len closes) ;;
    let sma := PrimFloat.div sum (ofZ period) in
    let multiplier := PrimFloat.div (ofZ 2) (ofZ (period + 1)) in
    for_range (len closes - period + 1) (len closes)
      (fun i ema =>
         c <- get closes i ;;
         Ok (PrimFloat.add
               (PrimFloat.mul (PrimFloat.sub c ema) multiplier) ema))
      sma.

Record MACD : Set := mkMACD {
  macdLine : f64;
  signalLine : f64;
  histogram : f64
}.

(** macdIndicator.js *)
Definition calculateMACD (closes : list f64)
  (fastPeriod slowPeriod signalPeriod : Z) : result MACD :=
  fastEMA <- calculateEMA closes fastPeriod ;;
  slowEMA <- calculateEMA closes slowPeriod ;;
  let macdLine := PrimFloat.sub fastEMA slowEMA in
  let macdCandles :=
    map (fun _ => PrimFloat.sub fastEMA slowEMA)
        (slice_last closes signalPeriod) in
  signalLine <- calculateEMA macdCandles signalPeriod ;;
  let histogram := PrimFloat.sub macdLine signalLine in
  Ok (mkMACD macdLine signalLine histogram).

(** [macd.histogram > 0] and [macd.histogram < 0], [false] when the call
    throws. *)
Definition histogram_positive (r : result MACD) : bool :=
  match r with
  | Ok m => PrimFloat.ltb (ofZ 0) (histogram m)
  | _ => false
  end.

Definition histogram_negative (r : result MACD) : bool :=
  match r with
  | Ok m => PrimFloat.ltb (histogram m) (ofZ 0)
  | _ => false
  end.

(** [signalLine === macdLine] *)
Definition signal_is_macd (r : result MACD) : bool :=
  match r with
  | Ok m => PrimFloat.eqb (signalLine m) (macdLine m)
  | _ => false
  end.

End Binary64.

(* ===================================================================== *)
(** * Test data of the specification's scenarios *)
(* ===================================================================== *)

(** A flat bar: open = high = low = close = 100. *)
Definition flat_bar (t : Z) : Candle :=
  mkCandle t (qz 100) (qz 100) (qz 100) (qz 100) (qz 1).

Definition flat_bars (n : nat) : list Candle :=
  map (fun i => flat_bar (Z.of_nat i)) (seq 0 n).

(** A rising market: bar [i] closes at [100 + i], opens half a point lower
    and ranges one point either side of the close. *)
Definition rising_bar (i : nat) : Candle :=
  let p := qz (100 + Z.of_nat i) in
  mkCandle (Z.of_nat i) (p - qfrac 1 2)%Qc (p + qz 1)%Qc (p - qz 1)%Qc p (qz 1).

Definition rising_bars (n : nat) : list Candle := map rising_bar (seq 0 n).

(** A falling market, bar [i] closing at [200 - i], followed by three bars
    at 450: a short entered at bar 50 is closed at three times its entry
    price. *)
Definition falling_bar (i : nat) : Candle :=
  let p := qz (200 - Z.of_nat i) in
  mkCandle (Z.of_nat i) (p + qfrac 1 2)%Qc (p + qz 1)%Qc (p - qz 1)%Qc p (qz 1).

Definition spike_bar (t : Z) : Candle :=
  mkCandle t (qz 450) (qz 451) (qz 449) (qz 450) (qz 1).

Definition crash_bars : list Candle :=
  map falling_bar (seq 0 51) ++ [spike_bar 51; spike_bar 52; spike_bar 53].

(* ===================================================================== *)
(** * Vocabulary of the statements *)
(* ===================================================================== *)

(** [true] when the strategy, with no position open, stops at its
    low-volatility test. *)
Definition low_volatility (candles : list Candle) : bool :=
  match snapshot candles with
  | Ok s => (snap_volatilityPercent s <? nQ 2 100)%num
  | _ => false
  end.

(** [|x - y| <= eps] *)
Definition approx (x y eps : num) : bool := (abs (x - y) <=? eps)%num.

(** The reasons of the strategy's own exits. *)
Definition engine_exit_reason (r : string) : Prop :=
  r = "Take profit hit" \/ r = "Stop loss hit"
  \/ r = "Trend change" \/ r = "Trailing stop hit".


(** The signal of the strategy at the last of 51 rising bars, asked with a
    balance of exactly 0 (which it takes for 1000): a buy. *)
Definition buy_at_zero_balance : Signal :=
  Eval vm_compute in
    match analyze (rising_bars 51) None (createAccount (nZ 0)) with
    | Ok s => s
    | _ => SigWait ""
    end.

Definition order_at_zero_balance : Order :=
  Eval vm_compute in
    match entry_order buy_at_zero_balance with
    | Some o => o
    | None => mkOrder Long NaN NaN NaN NaN NaN NaN Null
    end.

(** A state with nothing open and a balance of exactly 0. *)
Definition zero_balance_state : SimState :=
  mkSim (createAccount (nZ 0)) None [] [].

(** Scenario C: a long position entered at 100 with its stop at 99.85, and
    a bar closing at 99.80. *)
Definition scenario_c_position : Position :=
  mkPosition Long (nZ 100) (nZ 6) (nZ 200) (nZ 3) 50 "Long setup"
    (nQ 9985 100) (nQ 1001 10) (nZ 10000) (nQ 126 100) Null.

Definition scenario_c_bar : Candle :=
  mkCandle 51 (qz 100) (qz 100) (qfrac 998 10) (qfrac 998 10) (qz 1).

Definition scenario_c_state : SimState :=
  mkSim (mkAccount (nQ 979985 100) (nZ 10000)) (Some scenario_c_position)
    [] [50].

(** The sum of the [profit] fields of the closed trades of a ledger. *)
Definition trade_profits (l : list LedgerEntry) : num :=
  fold_left
    (fun acc e =>
       match e with
       | ClosedTrade t => (acc + profit t)%num
       | HaltEntry _ _ _ => acc
       end)
    l (nZ 0).

(** The sum of the entry fees of the closed trades: each is the fee rate
    times the margin, as the exit fee is. *)
Definition entry_fees_paid (config : Config) (l : list LedgerEntry) : num :=
  fold_left
    (fun acc e =>
       match e with
       | ClosedTrade t => (acc + margin (position t) * fee_rate config)%num
       | HaltEntry _ _ _ => acc
       end)
    l (nZ 0).

(** The state after the loop over 56 rising bars: three trades, all
    closed. *)
Definition rising_run_state : SimState :=
  Eval vm_compute in
    match run_loop default_config (rising_bars 56) with
    | Ok st => st
    | _ => initial_state default_config
    end.

(** Every close of the series is the finite number [f a]. *)
Definition closes_are {A} `{HasClose A} (f : A -> Qc) (l : list A) : Prop :=
  forall a, In a l -> close_of a = Fin (f a).

(** The accounting invariant of the loop, for an initial balance [b0] and
    a fee percentage [fee]: the balance is finite and equals the initial
    balance plus the recorded profits less the entry fees of the closed
    trades, less margin and entry fee of the open position, if any; the
    open position remembers the balance before it opened. *)
Definition accounted (config : Config) (b0 fee : Qc) (st : SimState) : Prop :=
  exists b P F,
    balance (tradingAccount st) = Fin b
    /\ trade_profits (tradeHistory st) = Fin P
    /\ entry_fees_paid config (tradeHistory st) = Fin F
    /\ match currentPosition st with
       | None => b = (b0 + P - F)%Qc
       | Some p =>
           exists e z m,
             entryPrice p = Fin e /\ size p = Fin z /\ margin p = Fin m
             /\ entryBalance p = Fin (b0 + P - F)%Qc
             /\ b = (b0 + P - F - (m + m * (fee / qz 100)))%Qc
       end.

(** The bar indices [i, i + 1, ..., i + k - 1]. *)
Definition zrange (i : Z) (k : nat) : list Z :=
  map (fun j => i + Z.of_nat j) (seq 0 k).

(** The state after the loop over the bars of the run into bankruptcy. *)
Definition crash_run_state : SimState :=
  Eval vm_compute in
    match run_loop default_config crash_bars with
    | Ok st => st
    | _ => initial_state default_config
    end.

(** The signal of the strategy at the last of 51 rising bars, asked with
    the default balance of 10000, and its order. *)
Definition first_entry_signal : Signal :=
  Eval vm_compute in
    match analyze (rising_bars 51) None (createAccount (nZ 10000)) with
    | Ok s => s
    | _ => SigWait ""
    end.

Definition first_entry_order : Order :=
  Eval vm_compute in
    match entry_order first_entry_signal with
    | Some o => o
    | None => mkOrder Long NaN NaN NaN NaN NaN NaN Null
    end.

(** The closed trades of a ledger, in order. *)
Definition closed_trades (l : list LedgerEntry) : list Trade :=
  flat_map (fun e => match e with
                     | ClosedTrade t => [t]
                     | HaltEntry _ _ _ => []
                     end) l.

(** The number of halt records of a ledger. *)
Definition halt_count (l : list LedgerEntry) : Z :=
  len (filter (fun e => match e with
                        | ClosedTrade _ => false
                        | HaltEntry _ _ _ => true
                        end) l).

(** The statistics of the run into bankruptcy. *)
Definition crash_run_stats : Stats :=
  Eval vm_compute in compute_stats default_config crash_run_state.

(** A finite number that is not negative. *)
Definition nonneg (x : num) : Prop := exists q, x = Fin q /\ (qz 0 <= q)%Qc.

(** A finite number between the rationals [lo] and [hi]. *)
Definition within (lo hi : Qc) (x : num) : Prop :=
  exists q, x = Fin q /\ (lo <= q)%Qc /\ (q <= hi)%Qc.

(** A pair of finite, non-negative numbers. *)
Definition nonneg_pair (gl : num * num) : Prop :=
  exists a b, gl = (Fin a, Fin b) /\ (qz 0 <= a)%Qc /\ (qz 0 <= b)%Qc.

(** The actions a signal can carry while a position is open, and while
    none is. *)
Definition answers_to (currentPosition : option Position) (a : Action)
  : bool :=
  match currentPosition, a with
  | Some _, (Stop | Wait | Exit | Hold) => true
  | None, (Stop | Wait | Buy | Sell) => true
  | _, _ => false
  end.

(** Bar [i] has [lookback] bars on either side, and [f] at bar [i] is
    strictly below [f] at each of them. *)
Definition strict_local_min (f : Candle -> Qc) (candles : list Candle)
  (i lookback : Z) : Prop :=
  lookback <= i < len candles - lookback
  /\ forall j cur c,
       i - lookback <= j <= i + lookback -> j <> i ->
       get candles i = Ok cur -> get candles j = Ok c ->
       (f cur < f c)%Qc.

Definition strict_local_max (f : Candle -> Qc) (candles : list Candle)
  (i lookback : Z) : Prop :=
  lookback <= i < len candles - lookback
  /\ forall j cur c,
       i - lookback <= j <= i + lookback -> j <> i ->
       get candles i = Ok cur -> get candles j = Ok c ->
       (f c < f cur)%Qc.

(** Bars with lows 5 4 3 1 3 4 5 and highs 1 2 3 9 3 2 1: bar 3 is a
    support and a resistance. *)
Definition valley_bars : list Candle :=
  map (fun '(t, l, h) => mkCandle t (qz 2) (qz h) (qz l) (qz 2) (qz 1))
      [(0, 5, 1); (1, 4, 2); (2, 3, 3); (3, 1, 9); (4, 3, 3); (5, 4, 2);
       (6, 5, 1)].

(** The common shape of [isSupport] and [isResistance]: [hit cur c] is the
    comparison that makes the function return [false]. *)
Definition pivot (hit : Candle -> Candle -> bool) (candles : list Candle)
  (i lookback : Z) : result bool :=
  if (i <? lookback) || (i >=? len candles - lookback) then Ok false
  else
    cur <- get candles i ;;
    before <- return_range (i - lookback) i
                (fun j => c <- get candles j ;; Ok (hit cur c)) ;;
    if before then Ok false
    else
      after <- return_range (i + 1) (i + lookback + 1)
                 (fun j => c <- get candles j ;; Ok (hit cur c)) ;;
      if after then Ok false else Ok true.

(** Lows 3 1 3 1 3 under highs 5 7 5 7 5: bars 1 and 3 are supports and
    resistances for a lookback of 1. *)
Definition zigzag_bars : list Candle :=
  map (fun '(t, l, h) => mkCandle t (qz 4) (qz h) (qz l) (qz 4) (qz 1))
      [(0, 3, 5); (1, 1, 7); (2, 3, 5); (3, 1, 7); (4, 3, 5)].

(** How many of the tests hold. *)
Definition how_many (tests : list bool) : nat :=
  List.length (filter (fun b => b) tests).

(** The direction that goes with the sign of a strength. *)
Definition direction_of_sign (s : Qc) : string :=
  match (s ?= qz 0)%Qc with
  | Gt => "bullish"
  | Lt => "bearish"
  | Eq => "neutral"
  end.

(** The strengths [calcCandleStrength] gives to a candle that closes
    above its open, and to any other candle. *)
Definition bullish_strengths : list Qc :=
  [qfrac 3 2; qz 3; qfrac 7 2; qz 5; qz 6; qz 8].
Definition bearish_strengths : list Qc :=
  [qfrac (-3) 2; qz (-3); qfrac (-7) 2; qz (-5); qz (-6); qz (-8)].

(** The sum of the volumes of a list of candles. *)
Definition total_volume (l : list Candle) : Qc :=
  fold_right (fun c acc => (volume c + acc)%Qc) (qz 0) l.

(** Every element is below all the later ones. *)
Fixpoint increasing (l : list Z) : Prop :=
  match l with
  | [] => True
  | x :: rest => (forall y, In y rest -> x < y) /\ increasing rest
  end.

(** The grouping has been done for the interval: the times are starts of
    the interval, in strictly increasing order. *)
Definition resampled (intervalMs : Z) (l : list Candle) : Prop :=
  increasing (map time l)
  /\ forall c, In c l -> interval_start intervalMs c = time c.

(** The position's direction as the string of the source. *)
Definition direction_name (d : Direction) : string :=
  match d with Long => "long" | Short => "short" end.

(** Seven one-minute bars over three hours, not in the order of time. *)
Definition minute_bars : list Candle :=
  map (fun '(t, o, h, l, c, v) =>
         mkCandle t (qz o) (qz h) (qz l) (qz c) (qz v))
      [(7200000, 10, 12, 9, 11, 5);
       (60000, 20, 22, 19, 21, 1);
       (7260000, 11, 15, 10, 14, 2);
       (120000, 21, 25, 18, 19, 3);
       (3600000, 30, 31, 29, 30, 7);
       (180000, 19, 20, 17, 18, 4);
       (7320000, 14, 14, 8, 9, 6)].

(** The entries of [groupedCandles] while the loop runs: the keys differ,
    every group carries its key as its time, and every key is the start
    of an interval. *)
Definition grouped (ms : Z) (g : list (Z * Candle)) : Prop :=
  NoDup (map fst g)
  /\ forall k c, In (k, c) g -> time c = k /\ k / ms * ms = k.

(** The rows saved for the run over 56 rising bars. *)
Definition rising_run_rows : list TradeRow :=
  Eval vm_compute in
    snd (saveTrades (Some 1) (tradeHistory rising_run_state) (nZ 10000)).

(** A value that is [undefined] or a number between 0 and 100. *)
Definition percent_or_undefined (v : jsval) : Prop :=
  v = Undefined \/ exists x, v = Number x /\ within (qz 0) (qz 100) x.

(** A bar whose close lies between its low and its high, and whose high
    is above its low. *)
Definition proper_bar (c : Candle) : Prop :=
  (low c <= close c)%Qc /\ (close c <= high c)%Qc /\ (low c < high c)%Qc.

(** [NaN], or a number between 0 and 100. *)
Definition nan_or_percent (x : num) : Prop :=
  x = NaN \/ within (qz 0) (qz 100) x.

(** The three series have one length and hold finite numbers that are
    not negative. *)
Definition dm_series_ok (s : DMSeries) : Prop :=
  len (plusDM s) = len (trueRange s)
  /\ len (minusDM s) = len (trueRange s)
  /\ Forall nonneg (plusDM s) /\ Forall nonneg (minusDM s)
  /\ Forall nonneg (trueRange s).

Definition adx_state_ok (st : ADXState) : Prop :=
  nonneg (smoothedTR st) /\ nonneg (smoothedPlusDM st)
  /\ nonneg (smoothedMinusDM st) /\ nan_or_percent (DX st).

(** Twelve bars closing at 1, 2, ..., 12, and twelve closing at 3, 6,
    ..., 36, as doubles. *)
Definition closes_1_to_12 : list Binary64.f64 :=
  map Binary64.ofZ [1; 2; 3; 4; 5; 6; 7; 8; 9; 10; 11; 12].
Definition closes_3_to_36 : list Binary64.f64 :=
  map Binary64.ofZ [3; 6; 9; 12; 15; 18; 21; 24; 27; 30; 33; 36].

(** The two updates of the balance that one recorded trade stands for,
    in the order and with the grouping of the loop:
    [balance -= (margin + fees)] at the entry and
    [balance += margin + totalPnl] at the exit. *)
Definition replay_trade (config : Config) (b : num) (e : LedgerEntry) : num :=
  match e with
  | ClosedTrade t =>
      let m := margin (position t) in
      (b - (m + m * fee_rate config) + (m + profit t))%num
  | HaltEntry _ _ _ => b
  end.

(** The ledger replayed from a starting balance. *)
Definition replay (config : Config) (b : num) (l : list LedgerEntry) : num :=
  fold_left (replay_trade config) l b.

(** The balance is the replayed ledger, less margin and entry fee of the
    open position, if any. *)
Definition replayed (config : Config) (st : SimState) : Prop :=
  match currentPosition st with
  | None =>
      balance (tradingAccount st)
      = replay config (initialBalance config) (tradeHistory st)
  | Some p =>
      balance (tradingAccount st)
      = (replay config (initialBalance config) (tradeHistory st)
         - (margin p + margin p * fee_rate config))%num
  end.

(* ===================================================================== *)
(** * Proof tools *)
(* ===================================================================== *)

(** Closed goals: evaluate both sides, then compare the rationals by value
    (two [Qc] with the same reduced fraction are equal). *)
Ltac js_eval :=
  vm_compute;
  repeat first [ reflexivity
               | apply Qc_is_canon; reflexivity
               | f_equal ].

Lemma q_ltb_lt (a b : Qc) : q_ltb a b = true <-> (a < b)%Qc.
Proof.
  unfold q_ltb. rewrite Qclt_alt.
  destruct (a ?= b)%Qc; split; intros; congruence.
Qed.

Lemma q_leb_le (a b : Qc) : q_leb a b = true <-> (a <= b)%Qc.
Proof.
  unfold q_leb. rewrite Qcle_alt.
  destruct (a ?= b)%Qc; split; intros; congruence.
Qed.

Lemma q_eqb_eq (a b : Qc) : q_eqb a b = true <-> a = b.
Proof.
  unfold q_eqb. rewrite Qceq_alt.
  destruct (a ?= b)%Qc; split; intros; congruence.
Qed.

Lemma q_ltb_ge (a b : Qc) : q_ltb a b = false <-> (b <= a)%Qc.
Proof.
  destruct (q_ltb a b) eqn:E.
  - apply q_ltb_lt in E. split; [discriminate|].
    intros H. exfalso. exact (Qclt_not_le _ _ E H).
  - split; [intros _|reflexivity].
    apply Qcnot_lt_le. intros H. apply q_ltb_lt in H. congruence.
Qed.

Lemma q_leb_gt (a b : Qc) : q_leb a b = false <-> (b < a)%Qc.
Proof.
  destruct (q_leb a b) eqn:E.
  - apply q_leb_le in E. split; [discriminate|].
    intros H. exfalso. exact (Qclt_not_le _ _ H E).
  - split; [intros _|reflexivity].
    apply Qcnot_le_lt. intros H. apply q_leb_le in H. congruence.
Qed.

(** An order statement on [Qc] as the same statement on [Q]. *)
Ltac qc2q :=
  unfold Qclt, Qcle, Qcminus, Qcdiv, Qcplus, Qcmult, Qcopp, Qcinv in *;
  cbn [this Q2Qc] in *;
  repeat (setoid_rewrite Qred_correct);
  repeat match goal with
         | H : _ |- _ => setoid_rewrite Qred_correct in H
         end;
  repeat match goal with
         | q : Qc |- _ => destruct q as [q ?]; cbn [this] in *
         end;
  change (inject_Z 0) with (0%Q) in *.



#[global] Arguments q_ltb : simpl never.
#[global] Arguments q_leb : simpl never.
#[global] Arguments q_eqb : simpl never.

Lemma len_nonneg {A} (l : list A) : 0 <= len l.
Proof. unfold len. lia. Qed.

Lemma len_app {A} (l1 l2 : list A) : len (l1 ++ l2) = len l1 + len l2.
Proof. unfold len. rewrite length_app. lia. Qed.

Lemma len_nil_iff {A} (l : list A) : len l = 0 <-> l = [].
Proof.
  unfold len. destruct l; simpl; split; intros; try reflexivity;
    try discriminate; lia.
Qed.

Lemma get_ok {A} (l : list A) (i : Z) :
  0 <= i < len l -> exists a, get l i = Ok a.
Proof.
  intros [H0 H1]. unfold get.
  destruct (i <? 0) eqn:E; [apply Z.ltb_lt in E; lia|].
  destruct (nth_error l (Z.to_nat i)) eqn:N; [eauto|].
  apply nth_error_None in N. unfold len in H1. lia.
Qed.

Lemma get_inv {A} (l : list A) (i : Z) (a : A) :
  get l i = Ok a -> 0 <= i < len l.
Proof.
  unfold get. destruct (i <? 0) eqn:E; [discriminate|].
  apply Z.ltb_ge in E.
  destruct (nth_error l (Z.to_nat i)) eqn:N; [|discriminate].
  intros _. split; [exact E|].
  assert (Hn : (Z.to_nat i < List.length l)%nat)
    by (apply nth_error_Some; congruence).
  unfold len. lia.
Qed.

Lemma get_last {A} (front : list A) (c : A) :
  get (front ++ [c]) (len (front ++ [c]) - 1) = Ok c.
Proof.
  assert (E : len (front ++ [c]) - 1 = Z.of_nat (List.length front)).
  { unfold len. rewrite length_app. simpl. lia. }
  rewrite E. unfold get.
  destruct (Z.of_nat (List.length front) <? 0) eqn:L;
    [apply Z.ltb_lt in L; lia|].
  rewrite Nat2Z.id, nth_error_app2 by lia.
  rewrite Nat.sub_diag. reflexivity.
Qed.

Lemma get_in {A} (l : list A) (i : Z) (a : A) : get l i = Ok a -> In a l.
Proof.
  unfold get. destruct (i <? 0); [discriminate|].
  destruct (nth_error l (Z.to_nat i)) eqn:N; [|discriminate].
  intros [= <-]. eapply nth_error_In; eassumption.
Qed.

(** The loop rule: an invariant [P i s] that every iteration in range
    re-establishes (without throwing) holds when the loop is left. *)
Lemma for_loop_inv {St} (P : Z -> St -> Prop) (body : Z -> St -> result St) :
  forall (n : nat) (i : Z) (s : St),
    P i s ->
    (forall j t, i <= j < i + Z.of_nat n -> P j t ->
                 exists t', body j t = Ok t' /\ P (j + 1) t') ->
    exists s', for_loop n i body s = Ok s' /\ P (i + Z.of_nat n) s'.
Proof.
  induction n as [|n IH]; intros i s HP Hbody.
  - exists s. simpl. rewrite Z.add_0_r. auto.
  - destruct (Hbody i s) as (t & Ht & HPt); [lia | exact HP |].
    destruct (IH (i + 1) t HPt) as (s' & Hs' & HPs').
    + intros j u Hj HPu. apply Hbody; [lia | exact HPu].
    + exists s'. split; [simpl; rewrite Ht; exact Hs'|].
      replace (i + Z.of_nat (S n)) with (i + 1 + Z.of_nat n) by lia.
      exact HPs'.
Qed.

Lemma for_range_inv {St} (P : Z -> St -> Prop) (body : Z -> St -> result St)
  (a b : Z) (s : St) :
  a <= b ->
  P a s ->
  (forall j t, a <= j < b -> P j t ->
               exists t', body j t = Ok t' /\ P (j + 1) t') ->
  exists s', for_range a b body s = Ok s' /\ P b s'.
Proof.
  intros Hab HP Hbody. unfold for_range.
  destruct (@for_loop_inv _ P body (Z.to_nat (b - a)) a s HP)
    as (s' & H1 & H2).
  - intros j t Hj. apply Hbody. lia.
  - exists s'. split; [exact H1|].
    replace (a + Z.of_nat (Z.to_nat (b - a))) with b in H2 by lia.
    exact H2.
Qed.

Lemma for_range_empty {St} (body : Z -> St -> result St) (a b : Z) (s : St) :
  b <= a -> for_range a b body s = Ok s.
Proof.
  intros H. unfold for_range.
  replace (Z.to_nat (b - a)) with 0%nat by lia. reflexivity.
Qed.

(* ===================================================================== *)
(** * Fallback values (section 4.1, section 8) *)
(* ===================================================================== *)

(** What the code keeps of C6.  With fewer bars than its guard asks for,
    every indicator returns its fallback without throwing: RSI 50 and ATR 0
    below [period + 1] bars, Stochastic {50, 50} below [period] bars, ADX
    null below [period + 2] bars, on the empty sequence too; SMA, EMA and
    the Bollinger bands return the latest close below [period] bars when
    there is a latest bar. *)
Theorem indicator_fallbacks (sqrt : num -> num) (candles : list Candle)
  (period : Z) :
  (len candles < period ->
   forall front c, candles = front ++ [c] ->
     calculateSMA candles period = Ok (Fin (close c))
     /\ calculateEMA candles period = Ok (Fin (close c))
     /\ forall multiplier,
          calculateBollingerBands sqrt candles period multiplier
          = Ok (mkBands (Fin (close c)) (Fin (close c)) (Fin (close c))))
  /\ (len candles < period + 1 ->
      calculateRSI candles period = Ok (nZ 50)
      /\ calculateATR candles period = Ok (nZ 0))
  /\ (len candles < period ->
      forall smoothK smoothD,
        calculateStochastic candles period smoothK smoothD
        = Ok (mkStoch (Number (nZ 50)) (Number (nZ 50))))
  /\ (len candles < period + 2 -> calculateADX candles period = Ok Null).
Proof.
  split; [|split; [|split]].
  - intros H front c ->. apply Z.ltb_lt in H.
    unfold calculateSMA, calculateEMA, calculateBollingerBands.
    rewrite H, get_last. repeat split.
  - intros H. apply Z.ltb_lt in H.
    unfold calculateRSI, calculateATR. rewrite H. split; reflexivity.
  - intros H smoothK smoothD. apply Z.ltb_lt in H.
    unfold calculateStochastic. rewrite H. reflexivity.
  - intros H. apply Z.ltb_lt in H.
    unfold calculateADX. rewrite H. reflexivity.
Qed.

(** The theorem at three flat bars and period 14. *)
Lemma indicator_fallbacks_witness :
  calculateSMA (flat_bars 3) 14 = Ok (Fin (qz 100))
  /\ calculateRSI (flat_bars 3) 14 = Ok (nZ 50)
  /\ calculateStochastic (flat_bars 3) 14 1 3
     = Ok (mkStoch (Number (nZ 50)) (Number (nZ 50)))
  /\ calculateADX (flat_bars 3) 14 = Ok Null.
Proof.
  destruct (indicator_fallbacks (fun x => x) (flat_bars 3) 14)
    as (Hma & Hrsi & Hst & Hadx).
  split; [|split; [|split]].
  - apply (Hma ltac:(vm_compute; reflexivity) (flat_bars 2) (flat_bar 2)
             eq_refl).
  - apply Hrsi. vm_compute; reflexivity.
  - apply Hst. vm_compute; reflexivity.
  - apply Hadx. vm_compute; reflexivity.
Defined.

(** C6.  The code breaks the claim on the empty sequence, which is
    shorter than every positive period: SMA, EMA and the Bollinger bands
    take their fallback from [candles[candles.length - 1].close], read
    [.close] of [undefined] and throw a [TypeError], where RSI, ATR,
    Stochastic and ADX return their fallbacks on the same input. *)
Theorem empty_sequence_throws (sqrt : num -> num) (multiplier : num)
  (period : Z) :
  0 < period ->
  len (@nil Candle) < period
  /\ calculateSMA (@nil Candle) period = TypeError
  /\ calculateEMA (@nil Candle) period = TypeError
  /\ calculateBollingerBands sqrt [] period multiplier = TypeError
  /\ calculateRSI [] period = Ok (nZ 50)
  /\ calculateATR [] period = Ok (nZ 0)
  /\ (forall smoothK smoothD,
        calculateStochastic [] period smoothK smoothD
        = Ok (mkStoch (Number (nZ 50)) (Number (nZ 50))))
  /\ calculateADX [] period = Ok Null.
Proof.
  intros Hp. change (len (@nil Candle)) with 0.
  assert (H0 : (0 <? period) = true) by (apply Z.ltb_lt; exact Hp).
  assert (H1 : (0 <? period + 1) = true) by (apply Z.ltb_lt; lia).
  assert (H2 : (0 <? period + 2) = true) by (apply Z.ltb_lt; lia).
  unfold calculateSMA, calculateEMA, calculateBollingerBands, calculateRSI,
    calculateATR, calculateStochastic, calculateADX.
  change (len (@nil Candle)) with 0. rewrite H0, H1, H2.
  repeat split. exact Hp.
Qed.

(** The theorem at the default period of the moving averages, 20, and
    two deviations. *)
Lemma empty_sequence_throws_witness :
  calculateSMA (@nil Candle) 20 = TypeError
  /\ calculateEMA (@nil Candle) 20 = TypeError
  /\ calculateBollingerBands (fun x => x) [] 20 (nZ 2) = TypeError
  /\ calculateRSI [] 20 = Ok (nZ 50).
Proof.
  destruct (empty_sequence_throws (fun x => x) (nZ 2) 20)
    as (_ & H1 & H2 & H3 & H4 & _); [reflexivity|].
  repeat split; assumption.
Defined.

(* ===================================================================== *)
(** * Stochastic oscillator just past its guard *)
(* ===================================================================== *)

Lemma high_low_ok (candles : list Candle) (a b : Z) :
  0 <= a -> b < len candles ->
  exists hl, high_low candles a b = Ok hl.
Proof.
  intros Ha Hb. unfold high_low.
  destruct (Z_le_gt_dec a (b + 1)) as [Hab|Hab].
  - destruct (@for_range_inv _ (fun _ _ => True)
                (fun j (hl : num * num) =>
                   let '(highestHigh, lowestLow) := hl in
                   c <- get candles j ;;
                   Ok (max highestHigh (high_of c), min lowestLow (low_of c)))
                a (b + 1) (NInf, PInf) Hab I) as (hl & H & _).
    + intros j [hh ll] Hj _.
      destruct (@get_ok _ candles j) as (c & Hc); [lia|].
      rewrite Hc. simpl. eauto.
    + eauto.
  - rewrite for_range_empty by lia. eauto.
Qed.

Lemma raw_k_ok (candles : list Candle) (period i : Z) :
  0 < period -> period - 1 <= i < len candles ->
  exists r, raw_k candles period i = Ok r.
Proof.
  intros Hp Hi. unfold raw_k.
  destruct (@high_low_ok candles (i - period + 1) i) as ([hh ll] & H);
    [lia | lia |].
  rewrite H. simpl.
  destruct (@get_ok _ candles i) as (c & Hc); [lia|].
  rewrite Hc. simpl. eauto.
Qed.

(** The raw %K series has one value per bar from index [period - 1] on. *)
Lemma raw_k_values_ok (candles : list Candle) (period : Z) :
  0 < period -> period <= len candles ->
  exists raws,
    for_range (period - 1) (len candles)
      (fun i raws => rawK <- raw_k candles period i ;; Ok (raws ++ [rawK]))
      [] = Ok raws
    /\ len raws = len candles - (period - 1).
Proof.
  intros Hp Hlen.
  apply (@for_range_inv _ (fun i (raws : list num) =>
                             len raws = i - (period - 1))).
  - lia.
  - unfold len. simpl. lia.
  - intros j raws Hj Hraws.
    destruct (@raw_k_ok candles period j Hp) as (r & Hr); [lia|].
    rewrite Hr. simpl. eexists. split; [reflexivity|].
    rewrite len_app, Hraws. unfold len at 1. simpl. lia.
Qed.

Lemma smooth_pass_short (values : list num) :
  len values <= 2 -> smooth_pass values = Ok [].
Proof. intros H. unfold smooth_pass. apply for_range_empty. exact H. Qed.

(** C10.  With smoothK = 1 and smoothD = 3, a candle array of [period] or
    [period + 1] bars (for a positive period) yields one or two raw %K
    values, the 3-bar smoothing pass leaves none, and the function returns
    [{ k: undefined, d: undefined }]: the {50, 50} fallback covers only
    arrays shorter than [period]. *)
Theorem stochastic_undefined_after_guard (candles : list Candle) (period : Z) :
  0 < period ->
  period <= len candles <= period + 1 ->
  calculateStochastic candles period 1 3 = Ok (mkStoch Undefined Undefined).
Proof.
  intros Hp [Hlo Hhi]. unfold calculateStochastic.
  destruct (len candles <? period) eqn:G; [apply Z.ltb_lt in G; lia|].
  destruct (@raw_k_values_ok candles period Hp Hlo) as (raws & Hraws & Hlen).
  rewrite Hraws. cbn [bind].
  assert (Hsm : for_range 0 1 (fun _ values => smooth_pass values) raws
                = Ok []).
  { unfold for_range. simpl. rewrite smooth_pass_short by lia. reflexivity. }
  rewrite Hsm. reflexivity.
Qed.

(** The theorem at 14 and 15 flat bars with the default period. *)
Lemma stochastic_undefined_after_guard_witness :
  calculateStochastic (flat_bars 14) 14 1 3 = Ok (mkStoch Undefined Undefined)
  /\ calculateStochastic (flat_bars 15) 14 1 3
     = Ok (mkStoch Undefined Undefined).
Proof.
  split; apply stochastic_undefined_after_guard;
    vm_compute; intuition discriminate.
Defined.

(** Past [period + 1] bars the smoothed series is not empty any more. *)
Example stochastic_at_16_rising :
  calculateStochastic (rising_bars 16) 14 1 3
  = Ok (mkStoch (Number (nQ 280 3)) (Number (nQ 280 3))).
Proof. js_eval. Qed.

(* ===================================================================== *)
(** * Zero denominators *)
(* ===================================================================== *)

(** C7.  Sixteen flat bars pass the length guards of the Stochastic
    oscillator (14 bars) and of ADX (16 bars); the range
    [highestHigh - lowestLow] and the smoothed true range are both zero,
    no branch catches the division, and both indicators return [NaN]. *)
Theorem zero_range_yields_nan :
  (len (flat_bars 16) <? 14) = false
  /\ (len (flat_bars 16) <? 14 + 2) = false
  /\ calculateStochastic (flat_bars 16) 14 1 3
     = Ok (mkStoch (Number NaN) (Number NaN))
  /\ calculateADX (flat_bars 16) 14 = Ok (Number NaN).
Proof. do 3 (split; [vm_compute; reflexivity|]). vm_compute; reflexivity. Qed.

(** The sibling guard: RSI tests its zero denominator. *)
Example rsi_guards_zero_loss :
  calculateRSI (rising_bars 16) 14 = Ok (nZ 100).
Proof. js_eval. Qed.

(* ===================================================================== *)
(** * The bankruptcy test of the strategy *)
(* ===================================================================== *)

Lemma or_else_not_negative (b d : num) :
  (b <? nZ 0)%num = false -> (d <=? nZ 0)%num = false ->
  (or_else b d <=? nZ 0)%num = false.
Proof.
  intros Hb Hd. unfold or_else, truthy.
  destruct b as [q| | |]; simpl in *; try assumption; try reflexivity;
    try discriminate.
  unfold q_eqb, q_ltb in *.
  destruct (q ?= qz 0)%Qc eqn:E; simpl; try assumption; try discriminate.
  unfold q_leb. rewrite E. reflexivity.
Qed.

Lemma not_bankrupt_1000 : (nZ 1000 <=? nZ 0)%num = false.
Proof. reflexivity. Qed.

Lemma analyze_low_volatility (candles : list Candle) (account : Account) :
  (balance account <? nZ 0)%num = false ->
  (len candles <? 15) = true \/ low_volatility candles = true ->
  exists r, analyze candles None account = Ok (SigWait r).
Proof.
  intros Hb H. unfold analyze.
  rewrite (@or_else_not_negative _ _ Hb not_bankrupt_1000).
  destruct (len candles <? 15) eqn:L; [eauto|].
  destruct H as [H|H]; [discriminate|].
  unfold low_volatility in H.
  destruct (snapshot candles) as [s| |]; try discriminate.
  cbn [bind]. unfold look_for_entry. rewrite H. eauto.
Qed.

(* ===================================================================== *)
(** * Scenario A: a flat market *)
(* ===================================================================== *)

(** C5, the claim as stated fails: after warm-up the RSI of twenty flat
    bars is 100, not a value near 50 (every change is zero, zero counts as
    a gain, and a zero average loss returns 100). *)
Lemma flat_rsi_is_not_50 :
  calculateRSI (flat_bars 20) 14 = Ok (nZ 100)
  /\ approx (nZ 100) (nZ 50) (nZ 49) = false.
Proof. split; js_eval. Qed.

(** C5, as amended.  On twenty flat bars at 100 the moving averages are
    100, the MACD line, signal and histogram are 0, ATR(14) is 0 and
    RSI(14) is 100; and on every prefix of the twenty bars the strategy,
    with no position open and a balance that is not negative, answers
    [wait]. *)
Theorem flat_market_scenario :
  calculateSMA (flat_bars 20) 20 = Ok (nZ 100)
  /\ calculateEMA (flat_bars 20) 5 = Ok (nZ 100)
  /\ calculateEMA (flat_bars 20) 20 = Ok (nZ 100)
  /\ calculateMACD_default (flat_bars 20) = Ok (mkMACD (nZ 0) (nZ 0) (nZ 0))
  /\ calculateATR (flat_bars 20) 14 = Ok (nZ 0)
  /\ calculateRSI (flat_bars 20) 14 = Ok (nZ 100)
  /\ forall (n : nat) (account : Account),
       (n <= 20)%nat ->
       (balance account <? nZ 0)%num = false ->
       exists r, analyze (flat_bars n) None account = Ok (SigWait r).
Proof.
  do 6 (split; [js_eval|]).
  intros n account Hn Hb.
  apply analyze_low_volatility; [exact Hb|].
  do 21 (destruct n as [|n]; [vm_compute; auto|]).
  lia.
Qed.

(** The theorem at the full twenty bars and a balance of 10000. *)
Lemma flat_market_scenario_witness :
  exists r, analyze (flat_bars 20) None (createAccount (nZ 10000))
            = Ok (SigWait r).
Proof.
  apply flat_market_scenario; [lia | reflexivity].
Defined.

(* ===================================================================== *)
(** * What the strategy can answer *)
(* ===================================================================== *)

Lemma manage_cases (s : Snapshot) (p : Position) :
  (exists r price, manage s p = SigExit r price /\ engine_exit_reason r)
  \/ manage s p = SigHold "Maintaining position".
Proof.
  unfold manage, engine_exit_reason.
  repeat match goal with
         | |- context [if ?b then _ else _] => destruct b
         | |- context [match direction ?x with _ => _ end] =>
             destruct (direction x)
         end;
    solve [ right; reflexivity | left; eauto 8 ].
Qed.

Lemma look_for_entry_cases (s : Snapshot) (b : num) :
  match look_for_entry s b with
  | SigWait _ => True
  | SigBuy _ o => o_direction o = Long
  | SigSell _ o => o_direction o = Short
  | _ => False
  end.
Proof.
  unfold look_for_entry.
  repeat match goal with
         | |- context [if ?b then _ else _] => destruct b; try exact I
         end;
    reflexivity.
Qed.

(** With a position open the strategy stops, waits (too few bars), holds,
    or exits for one of its own four reasons: it never enters. *)
Lemma analyze_open_position (candles : list Candle) (p : Position)
  (account : Account) (sig : Signal) :
  analyze candles (Some p) account = Ok sig ->
  action sig = Stop \/ action sig = Wait \/ action sig = Hold
  \/ exists r price, sig = SigExit r price /\ engine_exit_reason r.
Proof.
  unfold analyze.
  destruct (_ <=? _)%num; [intros [= <-]; auto|].
  destruct (len candles <? 15); [intros [= <-]; auto|].
  destruct (snapshot candles) as [s| |]; cbn [bind]; try discriminate.
  intros [= <-].
  destruct (manage_cases s p) as [(r & price & -> & Hr)| ->]; eauto 8.
Qed.


(** An enter signal is only ever answered when no position is open. *)
Lemma analyze_enter_no_position (candles : list Candle)
  (pos : option Position) (account : Account) (sig : Signal) (o : Order) :
  analyze candles pos account = Ok sig ->
  entry_order sig = Some o ->
  pos = None.
Proof.
  intros H Ho. destruct pos as [p|]; [|reflexivity].
  apply analyze_open_position in H.
  destruct H as [H|[H|[H|(r & price & E & _)]]];
    destruct sig; simpl in *; discriminate.
Qed.

(* ===================================================================== *)
(** * The loop starts at bar 50 *)
(* ===================================================================== *)

Lemma apply_signal_calls (config : Config) (c : Candle) (sig : Signal)
  (st : SimState) :
  engineCalls (flow_state (apply_signal config c sig st)) = engineCalls st.
Proof.
  unfold apply_signal, enter, price_triggers, close_position.
  destruct sig; destruct (currentPosition st) as [p|]; simpl;
    try reflexivity;
    repeat match goal with
           | |- context [if ?b then _ else _] => destruct b; simpl
           | |- context [match direction ?x with _ => _ end] =>
               destruct (direction x); simpl
           end;
    reflexivity.
Qed.

(** A step calls the strategy at its own bar index or not at all. *)
Lemma step_calls (config : Config) (priceData : list Candle) (i : Z)
  (st : SimState) (f : Flow) :
  step config priceData i st = Ok f ->
  engineCalls (flow_state f) = engineCalls st
  \/ engineCalls (flow_state f) = i :: engineCalls st.
Proof.
  unfold step.
  destruct (get _ i) as [c| |]; cbn [bind]; try discriminate.
  destruct (balance_break st); [intros [= <-]; auto|].
  destruct (analyze _ _ _) as [sig| |]; cbn [bind]; try discriminate.
  intros [= <-]. right. rewrite apply_signal_calls. reflexivity.
Qed.

Lemma sim_loop_calls (config : Config) (priceData : list Candle) (lo : Z) :
  forall (n : nat) (i : Z) (st st' : SimState),
    lo <= i ->
    Forall (fun j => lo <= j) (engineCalls st) ->
    sim_loop config priceData n i st = Ok st' ->
    Forall (fun j => lo <= j) (engineCalls st').
Proof.
  induction n as [|n IH]; intros i st st' Hi Hst; simpl.
  - intros [= <-]. exact Hst.
  - destruct (step config priceData i st) as [f| |] eqn:Hf; cbn [bind];
      try discriminate.
    assert (Hcalls : Forall (fun j => lo <= j) (engineCalls (flow_state f))).
    { destruct (step_calls _ _ _ _ _ Hf) as [E|E]; rewrite E; auto. }
    destruct f as [st1|st1]; simpl in Hcalls.
    + apply IH; [lia | exact Hcalls].
    + intros [= <-]. exact Hcalls.
Qed.

(** C9, the claim as stated fails: a price history of zero bars has fifty
    bars or fewer, and [run] throws the missing-data error instead of
    returning stats. *)
Lemma empty_history_is_an_error :
  len (@nil Candle) <= 50 /\ run default_config [] = DataError.
Proof. split; [discriminate | reflexivity]. Qed.

(** C9, as amended.  The loop starts at bar index 50: every call of the
    strategy is made at a bar index of at least 50; and a price history of
    one to fifty bars makes the loop take no step, so that no position is
    opened, the ledger is empty, [totalTrades] is 0 and [finalBalance] is
    the initial balance. *)
Theorem loop_starts_at_bar_50 (config : Config) (priceData : list Candle) :
  (forall st, run_loop config priceData = Ok st ->
              Forall (fun i => 50 <= i) (engineCalls st))
  /\ (1 <= len priceData <= 50 ->
      run_loop config priceData = Ok (initial_state config)
      /\ exists stats,
           run config priceData = Ok (stats, [])
           /\ totalTrades stats = 0
           /\ finalBalance stats = initialBalance config).
Proof.
  split.
  - intros st H. unfold run_loop in H.
    eapply sim_loop_calls; [| |exact H].
    + unfold first_bar. lia.
    + constructor.
  - intros [Hlo Hhi].
    assert (Hn : Z.to_nat (len priceData - first_bar) = 0%nat)
      by (unfold first_bar; lia).
    unfold run_loop, run. rewrite Hn.
    destruct (len priceData =? 0) eqn:E; [apply Z.eqb_eq in E; lia|].
    simpl. split; [reflexivity|].
    eexists. split; [reflexivity|]. split; reflexivity.
Qed.

(** The theorem at fifty flat bars. *)
Lemma loop_starts_at_bar_50_witness :
  run_loop default_config (flat_bars 50) = Ok (initial_state default_config).
Proof.
  apply loop_starts_at_bar_50. vm_compute. intuition discriminate.
Defined.

(** With 51 bars the strategy is called once, at bar 50. *)
Example one_call_at_51_bars :
  exists st, run_loop default_config (flat_bars 51) = Ok st
             /\ engineCalls st = [50].
Proof. eexists. split; [vm_compute; reflexivity | reflexivity]. Qed.

(* ===================================================================== *)
(** * Insufficient funds *)
(* ===================================================================== *)

(** C8.  When the strategy answers an enter action (buy or sell, which it
    only does while no position is open) and margin plus entry fee exceed
    the balance, the step leaves the account, the (absent) position and the
    ledger as they were, and the loop continues with the next bar. *)
Theorem insufficient_funds_skips (config : Config) (priceData : list Candle)
  (i : Z) (st : SimState) (c : Candle) (sig : Signal) (o : Order) :
  get (slice priceData 0 (i + 1)) i = Ok c ->
  balance_break st = false ->
  analyze (slice priceData 0 (i + 1)) (currentPosition st) (tradingAccount st)
  = Ok sig ->
  entry_order sig = Some o ->
  (required_margin c o + entry_fees config c o
   >? balance (tradingAccount st))%num = true ->
  exists st',
    step config priceData i st = Ok (Continue st')
    /\ tradingAccount st' = tradingAccount st
    /\ currentPosition st = None
    /\ currentPosition st' = None
    /\ tradeHistory st' = tradeHistory st.
Proof.
  intros Hc Hb Hsig Ho Hfunds.
  pose proof (analyze_enter_no_position _ _ _ _ _ Hsig Ho) as Hpos.
  exists (log_call i st). unfold step.
  rewrite Hc. cbn [bind]. rewrite Hb, Hsig. cbn [bind].
  repeat split; try assumption.
  f_equal. unfold apply_signal.
  destruct sig; try discriminate; injection Ho as ->;
    simpl; rewrite Hpos; unfold enter; simpl;
    rewrite Hfunds; reflexivity.
Qed.

(** The theorem at that signal: the entry needs a margin of 200. *)
Lemma insufficient_funds_skips_witness :
  exists st',
    step default_config (rising_bars 51) 50 zero_balance_state
    = Ok (Continue st')
    /\ tradingAccount st' = tradingAccount zero_balance_state
    /\ currentPosition zero_balance_state = None
    /\ currentPosition st' = None
    /\ tradeHistory st' = tradeHistory zero_balance_state.
Proof.
  apply (@insufficient_funds_skips default_config (rising_bars 51) 50
           zero_balance_state
           (rising_bar 50) buy_at_zero_balance order_at_zero_balance);
    vm_compute; reflexivity.
Defined.

(* ===================================================================== *)
(** * Bankruptcy *)
(* ===================================================================== *)

(** A negative balance is answered by [stop]. *)
Lemma negative_balance_stops (candles : list Candle) (pos : option Position)
  (account : Account) :
  (balance account <? nZ 0)%num = true ->
  analyze candles pos account
  = Ok (SigStop "Account bankrupt - balance is zero or negative").
Proof.
  intros H. unfold analyze.
  assert (E : (or_else (balance account) (nZ 1000) <=? nZ 0)%num = true).
  { unfold or_else, truthy.
    destruct (balance account) as [q| | |]; simpl in *; try discriminate;
      try reflexivity.
    unfold q_ltb, q_eqb in *.
    destruct (q ?= qz 0)%Qc eqn:C; try discriminate. simpl.
    unfold q_leb. rewrite C. reflexivity. }
  rewrite E. reflexivity.
Qed.

(** With no position open, a negative balance makes the step record the
    halt and leave the loop. *)
Lemma negative_balance_halts (config : Config) (priceData : list Candle)
  (i : Z) (st : SimState) (c : Candle) :
  get (slice priceData 0 (i + 1)) i = Ok c ->
  currentPosition st = None ->
  (balance (tradingAccount st) <? nZ 0)%num = true ->
  exists r,
    step config priceData i st
    = Ok (Break (mkSim (tradingAccount st) None
                   (tradeHistory st
                    ++ [HaltEntry (time c) r (balance (tradingAccount st))])
                   (i :: engineCalls st))).
Proof.
  intros Hc Hpos Hb. unfold step. rewrite Hc. cbn [bind].
  assert (Hbr : balance_break st = false).
  { unfold balance_break. rewrite Hpos.
    destruct (balance (tradingAccount st)) as [q| | |]; simpl in *;
      try discriminate; try reflexivity.
    apply q_ltb_lt in Hb.
    assert (L : q_ltb q (qz 2) = true).
    { apply q_ltb_lt. eapply Qclt_trans; [exact Hb|]. reflexivity. }
    rewrite L. reflexivity. }
  rewrite Hbr, (negative_balance_stops _ _ _ Hb). cbn [bind].
  eexists. unfold apply_signal, log_call. simpl. rewrite Hpos. reflexivity.
Qed.

(** A balance of exactly 0 is read as the default 1000. *)
Lemma zero_balance_reads_as_1000 (candles : list Candle)
  (pos : option Position) (e e' : num) :
  analyze candles pos (mkAccount (nZ 0) e)
  = analyze candles pos (mkAccount (nZ 1000) e').
Proof. reflexivity. Qed.

(** With a balance of exactly 0 the strategy never answers [stop]. *)
Lemma zero_balance_never_stops (candles : list Candle)
  (pos : option Position) (e : num) (sig : Signal) :
  analyze candles pos (mkAccount (nZ 0) e) = Ok sig -> action sig <> Stop.
Proof.
  intros H. destruct pos as [p|].
  - unfold analyze in H. simpl in H.
    destruct (len candles <? 15); [injection H as <-; discriminate|].
    destruct (snapshot candles) as [s| |]; cbn [bind] in H;
      try discriminate.
    injection H as <-.
    destruct (manage_cases s p) as [(r & price & -> & _)| ->]; discriminate.
  - unfold analyze in H. simpl in H.
    destruct (len candles <? 15); [injection H as <-; discriminate|].
    destruct (snapshot candles) as [s| |]; cbn [bind] in H;
      try discriminate.
    injection H as <-.
    pose proof (look_for_entry_cases s (nZ 1000)) as C.
    change (or_else (nZ 0) (nZ 1000)) with (nZ 1000).
    destruct (look_for_entry s (nZ 1000)); simpl; try discriminate;
      contradiction.
Qed.

(** C1, the failing input.  At a balance of exactly 0 the strategy does
    not answer [stop]: on 51 flat bars it waits, on 51 rising bars it asks
    to buy; the loop records no halt and goes on to the next bar. *)
Theorem zero_balance_does_not_halt :
  analyze (flat_bars 51) None (createAccount (nZ 0))
  = Ok (SigWait "Extremely low volatility")
  /\ action buy_at_zero_balance = Buy
  /\ analyze (rising_bars 51) None (createAccount (nZ 0))
     = Ok buy_at_zero_balance
  /\ step default_config (flat_bars 51) 50 zero_balance_state
     = Ok (Continue (log_call 50 zero_balance_state))
  /\ tradeHistory (log_call 50 zero_balance_state) = [].
Proof. do 4 (split; [vm_compute; reflexivity|]). reflexivity. Qed.

(** With a position open the low-balance test of the loop breaks before
    the strategy is asked, and nothing is recorded. *)
Lemma low_balance_break_records_nothing (config : Config)
  (priceData : list Candle) (i : Z) (st : SimState) (c : Candle)
  (p : Position) :
  get (slice priceData 0 (i + 1)) i = Ok c ->
  currentPosition st = Some p ->
  (balance (tradingAccount st) <? nQ 1 2)%num = true ->
  step config priceData i st = Ok (Break st).
Proof.
  intros Hc Hp Hb. unfold step. rewrite Hc. cbn [bind].
  unfold balance_break. rewrite Hp, Hb. reflexivity.
Qed.

(** A run into bankruptcy.  The short of bar 50 is closed at bar 51 with a
    loss of 12001.5 and leaves a balance of -2003; at bar 52 the strategy
    answers [stop], the halt is recorded and bar 53 is not visited.  The
    halt record is an element of [tradeHistory], so [totalTrades] is 2 for
    the one trade that was executed. *)
Example bankruptcy_run :
  exists stats t r b,
    run default_config crash_bars
    = Ok (stats, [ClosedTrade t; HaltEntry 52 r b])
    /\ b = nQ (-2003) 1
    /\ profit t = nQ (-24003) 2
    /\ finalBalance stats = nQ (-2003) 1
    /\ totalTrades stats = 2
    /\ winningTrades stats = 0 /\ losingTrades stats = 1
    /\ (exists st, run_loop default_config crash_bars = Ok st
                   /\ engineCalls st = [52; 51; 50]).
Proof.
  eexists. eexists. eexists. eexists.
  split; [vm_compute; reflexivity|].
  split; [js_eval|]. split; [js_eval|]. split; [js_eval|].
  split; [reflexivity|]. split; [reflexivity|]. split; [reflexivity|].
  eexists. split; [vm_compute; reflexivity | reflexivity].
Qed.

(* ===================================================================== *)
(** * Exit priority *)
(* ===================================================================== *)


Lemma app_one_not_self {A} (l : list A) (x : A) : l ++ [x] <> l.
Proof.
  intros H. apply (f_equal (@List.length A)) in H.
  rewrite length_app in H. simpl in H. lia.
Qed.

(** The entry branch appends nothing to the ledger. *)
Lemma enter_history (config : Config) (c : Candle) (r : string) (o : Order)
  (st : SimState) :
  tradeHistory (flow_state (enter config c r o st)) = tradeHistory st.
Proof. unfold enter. destruct (_ >? _)%num; reflexivity. Qed.




(* ===================================================================== *)
(** * The MACD signal line *)
(* ===================================================================== *)

Lemma qz_add (a b : Z) : qz (a + b) = (qz a + qz b)%Qc.
Proof.
  unfold qz, Qcplus. apply Q2Qc_eq_iff. cbn [this Q2Qc].
  rewrite !Qred_correct. rewrite inject_Z_plus. reflexivity.
Qed.

Lemma qz_pos_nonzero (p : Z) : 0 < p -> qz p <> qz 0.
Proof.
  intros Hp E. unfold qz in E. apply Q2Qc_eq_iff in E.
  unfold Qeq in E. simpl in E. lia.
Qed.

Lemma div_by_positive (a : Qc) (p : Z) :
  0 < p -> (Fin a / ofZ p)%num = Fin (a / qz p).
Proof.
  intros Hp. unfold ofZ, nZ. cbn [div].
  destruct (q_eqb (qz p) (qz 0)) eqn:E; [|reflexivity].
  apply q_eqb_eq in E. destruct (qz_pos_nonzero p Hp E).
Qed.

Section Closes.

Context {A : Type} `{HasClose A}.

(** The window sum is finite when the closes are. *)
Lemma sum_closes_finite (f : A -> Qc) (l : list A) (a b : Z) :
  closes_are f l -> 0 <= a -> b <= len l ->
  exists q, sum_closes l a b = Ok (Fin q).
Proof.
  intros Hl Ha Hb. unfold sum_closes.
  destruct (Z_le_gt_dec a b) as [Hab|Hab].
  - destruct (@for_range_inv _ (fun _ acc => exists q, acc = Fin q)
                (fun i sum => c <- get l i ;; Ok (sum + close_of c)%num)
                a b (nZ 0) Hab) as (acc & Hacc & q & ->).
    + eexists. reflexivity.
    + intros j t Hj (q & ->).
      destruct (get_ok l j) as (c & Hc); [lia|].
      rewrite Hc. cbn [bind]. rewrite (Hl c (get_in _ _ _ Hc)).
      eexists. split; [reflexivity|]. eexists. reflexivity.
    + eauto.
  - rewrite for_range_empty by lia. eexists. reflexivity.
Qed.

(** The EMA of finite closes is finite. *)
Lemma calculateEMA_finite (f : A -> Qc) (l : list A) (period : Z) :
  closes_are f l -> l <> [] -> 0 < period ->
  exists q, calculateEMA l period = Ok (Fin q).
Proof.
  intros Hl Hne Hp. unfold calculateEMA.
  assert (Hlen : 0 < len l).
  { pose proof (len_nonneg l). destruct (Z.eq_dec (len l) 0) as [E|E];
      [apply len_nil_iff in E; contradiction | lia]. }
  destruct (len l <? period) eqn:G.
  - destruct (get_ok l (len l - 1)) as (c & Hc); [lia|].
    rewrite Hc. cbn [bind]. rewrite (Hl c (get_in _ _ _ Hc)). eauto.
  - apply Z.ltb_ge in G.
    destruct (sum_closes_finite f l (len l - period) (len l) Hl)
      as (sum & Hsum); [lia | lia |].
    rewrite Hsum. cbn [bind].
    rewrite (div_by_positive sum period) by lia.
    change (nZ 2) with (Fin (qz 2)).
    rewrite (div_by_positive (qz 2) (period + 1)) by lia.
    destruct (@for_range_inv _ (fun _ ema => exists q, ema = Fin q)
                (fun i ema =>
                   c <- get l i ;;
                   Ok ((close_of c - ema)
                       * Fin (qz 2 / qz (period + 1)) + ema)%num)
                (len l - period + 1) (len l) (Fin (sum / qz period)))
      as (ema & Hema & q & ->).
    + lia.
    + eauto.
    + intros j t Hj (q & ->).
      destruct (get_ok l j) as (c & Hc); [lia|].
      rewrite Hc. cbn [bind]. rewrite (Hl c (get_in _ _ _ Hc)).
      eexists. split; [reflexivity|]. eexists. reflexivity.
    + eauto.
Qed.

(** The sum of a window of a constant series. *)
Lemma sum_closes_const (v : Qc) (l : list A) (a b : Z) :
  closes_are (fun _ => v) l -> 0 <= a <= b -> b <= len l ->
  sum_closes l a b = Ok (Fin (qz (b - a) * v)).
Proof.
  intros Hl Hab Hb. unfold sum_closes.
  destruct (@for_range_inv _ (fun i acc => acc = Fin (qz (i - a) * v))
              (fun i sum => c <- get l i ;; Ok (sum + close_of c)%num)
              a b (nZ 0)) as (acc & Hacc & ->).
  - lia.
  - rewrite Z.sub_diag. unfold nZ. f_equal.
    change (qz 0) with 0%Qc. ring.
  - intros j t Hj ->.
    destruct (get_ok l j) as (c & Hc); [lia|].
    rewrite Hc. cbn [bind]. rewrite (Hl c (get_in _ _ _ Hc)).
    eexists. split; [reflexivity|]. cbn [add]. f_equal.
    replace (j + 1 - a) with ((j - a) + 1) by lia.
    rewrite qz_add. change (qz 1) with 1%Qc. ring.
  - exact Hacc.
Qed.

(** The EMA of a constant series is that constant. *)
Lemma calculateEMA_const (v : Qc) (l : list A) (period : Z) :
  closes_are (fun _ => v) l -> l <> [] -> 0 < period ->
  calculateEMA l period = Ok (Fin v).
Proof.
  intros Hl Hne Hp. unfold calculateEMA.
  assert (Hlen : 0 < len l).
  { pose proof (len_nonneg l). destruct (Z.eq_dec (len l) 0) as [E|E];
      [apply len_nil_iff in E; contradiction | lia]. }
  destruct (len l <? period) eqn:G.
  - destruct (get_ok l (len l - 1)) as (c & Hc); [lia|].
    rewrite Hc. cbn [bind]. rewrite (Hl c (get_in _ _ _ Hc)). reflexivity.
  - apply Z.ltb_ge in G.
    rewrite (sum_closes_const v l (len l - period) (len l) Hl)
      by lia.
    cbn [bind].
    change (nZ 2) with (Fin (qz 2)).
    rewrite (div_by_positive (qz 2) (period + 1)) by lia.
    rewrite div_by_positive by lia.
    replace (len l - (len l - period)) with period by lia.
    assert (Hsma : (qz period * v / qz period)%Qc = v).
    { field. apply qz_pos_nonzero. exact Hp. }
    rewrite Hsma.
    destruct (@for_range_inv _ (fun _ ema => ema = Fin v)
                (fun i ema =>
                   c <- get l i ;;
                   Ok ((close_of c - ema)
                       * Fin (qz 2 / qz (period + 1)) + ema)%num)
                (len l - period + 1) (len l) (Fin v))
      as (ema & Hema & ->).
    + lia.
    + reflexivity.
    + intros j t Hj ->.
      destruct (get_ok l j) as (c & Hc); [lia|].
      rewrite Hc. cbn [bind]. rewrite (Hl c (get_in _ _ _ Hc)).
      eexists. split; [reflexivity|]. cbn [sub add neg mul]. f_equal. ring.
    + exact Hema.
Qed.

End Closes.

Lemma candle_closes (l : list Candle) : closes_are close l.
Proof. intros a _. reflexivity. Qed.

Lemma slice_last_nonempty {A} (l : list A) (k : Z) :
  l <> [] -> 0 < k -> slice_last l k <> [].
Proof.
  intros Hne Hk E. apply (f_equal (@List.length A)) in E.
  unfold slice_last in E. rewrite length_skipn in E. simpl in E.
  assert (0 < len l).
  { pose proof (len_nonneg l). destruct (Z.eq_dec (len l) 0) as [Z0|Z0];
      [apply len_nil_iff in Z0; contradiction | lia]. }
  unfold len in *. lia.
Qed.

(** [calculateMACD] on a non-empty series: finite lines, and a signal line
    equal to the MACD line. *)
Lemma calculateMACD_signal (candles : list Candle) (fast slow signal : Z) :
  candles <> [] -> 0 < fast -> 0 < slow -> 0 < signal ->
  exists v, calculateMACD candles fast slow signal
            = Ok (mkMACD (Fin v) (Fin v) (nZ 0)).
Proof.
  intros Hne Hf Hs Hg. unfold calculateMACD.
  destruct (calculateEMA_finite close candles fast (candle_closes _) Hne Hf)
    as (f & Hfast).
  destruct (calculateEMA_finite close candles slow (candle_closes _) Hne Hs)
    as (s & Hslow).
  rewrite Hfast, Hslow. cbn [bind sub add neg].
  rewrite (calculateEMA_const (f + - s)%Qc).
  - cbn [bind sub add neg]. exists (f + - s)%Qc. unfold nZ. do 2 f_equal.
    f_equal. change (qz 0) with 0%Qc. ring.
  - intros a Ha. apply in_map_iff in Ha. destruct Ha as (c & <- & _).
    reflexivity.
  - intros E. apply map_eq_nil in E.
    exact (slice_last_nonempty candles signal Hne Hg E).
  - exact Hg.
Qed.

Lemma snapshot_macd (candles : list Candle) (s : Snapshot) :
  snapshot candles = Ok s ->
  candles <> [] /\ calculateMACD_default candles = Ok (macd s).
Proof.
  unfold snapshot. intros H.
  repeat match type of H with
         | bind ?c _ = Ok _ =>
             let E := fresh "E" in
             destruct c eqn:E; cbn [bind] in H; try discriminate
         end.
  injection H as <-. simpl. split; [|reflexivity].
  intros ->. discriminate.
Qed.

(** C4, as amended.  In exact arithmetic, for every non-empty candle
    array and the default periods (12, 26, 9), [calculateMACD] returns a
    signal line equal to its MACD line and a histogram of 0; hence, in
    exact arithmetic, the strategy's tests [macd.histogram > 0] and
    [macd.histogram < 0] are false whenever it evaluates them. *)
Theorem macd_histogram_is_zero (candles : list Candle) :
  (candles <> [] ->
   exists m, calculateMACD_default candles = Ok m
             /\ signalLine m = macdLine m
             /\ histogram m = nZ 0)
  /\ (forall s, snapshot candles = Ok s ->
                histogram (macd s) = nZ 0
                /\ (histogram (macd s) >? nZ 0)%num = false
                /\ (histogram (macd s) <? nZ 0)%num = false).
Proof.
  assert (Hm : candles <> [] ->
               exists m, calculateMACD_default candles = Ok m
                         /\ signalLine m = macdLine m
                         /\ histogram m = nZ 0).
  { intros Hne.
    destruct (calculateMACD_signal candles 12 26 9 Hne) as (v & Hv);
      try reflexivity.
    eexists. split; [exact Hv|]. split; reflexivity. }
  split; [exact Hm|].
  intros s Hs. destruct (snapshot_macd candles s Hs) as (Hne & Hmacd).
  destruct (Hm Hne) as (m & Hm1 & _ & Hm3).
  rewrite Hmacd in Hm1. injection Hm1 as <-.
  rewrite Hm3. repeat split.
Qed.

(** The theorem at sixty rising bars. *)
Lemma macd_histogram_is_zero_witness :
  exists m, calculateMACD_default (rising_bars 60) = Ok m
            /\ signalLine m = macdLine m
            /\ histogram m = nZ 0.
Proof.
  apply macd_histogram_is_zero. discriminate.
Defined.

(** C4, the claim as stated fails in the program's own arithmetic.  In
    binary64 the EMA of nine equal doubles need not be that double: on
    twelve bars closing at 1, ..., 12 the signal line differs from the
    MACD line and the histogram is positive (2^-50), and on twelve bars
    closing at 3, 6, ..., 36 it is negative, so the tests
    [macd.histogram > 0] and [macd.histogram < 0] are not always false. *)
Lemma macd_histogram_in_binary64 :
  Binary64.signal_is_macd (Binary64.calculateMACD closes_1_to_12 12 26 9)
  = false
  /\ Binary64.histogram_positive
       (Binary64.calculateMACD closes_1_to_12 12 26 9) = true
  /\ Binary64.histogram_negative
       (Binary64.calculateMACD closes_3_to_36 12 26 9) = true.
Proof. repeat split; vm_compute; reflexivity. Qed.

(* ===================================================================== *)
(** * Balance accounting *)
(* ===================================================================== *)

Lemma div_finite (a b : Qc) :
  b <> qz 0 -> (Fin a / Fin b)%num = Fin (a / b).
Proof.
  intros Hb. cbn [div].
  destruct (q_eqb b (qz 0)) eqn:E; [|reflexivity].
  apply q_eqb_eq in E. contradiction.
Qed.

Lemma positive_nonzero (c : Qc) : (qz 0 < c)%Qc -> c <> qz 0.
Proof. intros H ->. exact (Qclt_not_le _ _ H (Qcle_refl _)). Qed.

(** For a finite balance and a positive price the position size is
    finite. *)
Lemma position_size_finite (ab c : Qc) :
  (qz 0 < c)%Qc -> exists ps, position_size (Fin ab) (Fin c) = Fin ps.
Proof.
  intros Hc. unfold position_size.
  assert (E1 : (riskPercentage / nZ 100)%num = Fin (qfrac 3 10 / qz 100))
    by reflexivity.
  assert (E2 : (stopLossPct / nZ 100)%num = Fin (qfrac 15 100 / qz 100))
    by reflexivity.
  rewrite E1, E2. unfold nQ. cbn [mul].
  assert (Hsl : (c * (qfrac 15 100 / qz 100))%Qc <> qz 0).
  { intros E. apply Qcmult_integral in E. destruct E as [E|E].
    - exact (positive_nonzero c Hc E).
    - apply (f_equal this) in E. vm_compute in E. discriminate. }
  rewrite (div_finite _ _ Hsl). cbn [mul].
  destruct (_ >? _)%num; [|eauto].
  rewrite (div_finite _ _ (positive_nonzero c Hc)). eauto.
Qed.

Lemma snapshot_volatility (candles : list Candle) (s : Snapshot) :
  snapshot candles = Ok s ->
  (close_of (currentCandle s) >? nZ 0)%num = false ->
  snap_volatilityPercent s = nZ 0.
Proof.
  unfold snapshot. intros H.
  repeat match type of H with
         | bind ?c _ = Ok _ =>
             let E := fresh "E" in
             destruct c eqn:E; cbn [bind] in H; try discriminate
         end.
  injection H as <-. simpl. intros ->. reflexivity.
Qed.

Lemma look_for_entry_order (s : Snapshot) (accountBalance : num) (o : Order) :
  entry_order (look_for_entry s accountBalance) = Some o ->
  (snap_volatilityPercent s <? nQ 2 100)%num = false
  /\ o_positionSize o
     = position_size accountBalance (close_of (currentCandle s))
  /\ o_leverage o = strategyLeverage
  /\ o_price o = close_of (currentCandle s).
Proof.
  unfold look_for_entry.
  destruct (snap_volatilityPercent s <? nQ 2 100)%num; [discriminate|].
  repeat match goal with
         | |- context [if ?b then _ else _] =>
             destruct b; try discriminate
         end;
    simpl; intros [= <-]; simpl; auto.
Qed.

(** The order of an enter signal has a finite size and leverage 3 when the
    balance is finite. *)
Lemma analyze_order_finite (candles : list Candle) (account : Account)
  (b : Qc) (sig : Signal) (o : Order) :
  balance account = Fin b ->
  analyze candles None account = Ok sig ->
  entry_order sig = Some o ->
  exists ps, o_positionSize o = Fin ps /\ o_leverage o = nZ 3.
Proof.
  intros Hb. unfold analyze. rewrite Hb.
  assert (Hab : exists ab, or_else (Fin b) (nZ 1000) = Fin ab).
  { unfold or_else. destruct (truthy (Fin b)); eexists; reflexivity. }
  destruct Hab as (ab & ->).
  destruct (_ <=? _)%num; [intros [= <-]; discriminate|].
  destruct (len candles <? 15); [intros [= <-]; discriminate|].
  destruct (snapshot candles) as [s| |] eqn:Hs; cbn [bind]; try discriminate.
  intros [= <-] Ho.
  destruct (look_for_entry_order s (Fin ab) o Ho) as (Hvol & Hps & Hlev & _).
  destruct (close_of (currentCandle s) >? nZ 0)%num eqn:Hc.
  - unfold close_of, Candle_HasClose, gtb in Hc. cbn [ltb] in Hc.
    apply q_ltb_lt in Hc.
    destruct (position_size_finite ab (close (currentCandle s)) Hc)
      as (ps & Hfin).
    exists ps. split; [|exact Hlev].
    rewrite Hps. exact Hfin.
  - rewrite (snapshot_volatility candles s Hs Hc) in Hvol. discriminate.
Qed.

Lemma trade_profits_closed (l : list LedgerEntry) (t : Trade) :
  trade_profits (l ++ [ClosedTrade t]) = (trade_profits l + profit t)%num.
Proof. unfold trade_profits. rewrite fold_left_app. reflexivity. Qed.

Lemma trade_profits_halt (l : list LedgerEntry) (ts : Z) (r : string)
  (b : num) :
  trade_profits (l ++ [HaltEntry ts r b]) = trade_profits l.
Proof. unfold trade_profits. rewrite fold_left_app. reflexivity. Qed.

Lemma entry_fees_paid_closed (config : Config) (l : list LedgerEntry)
  (t : Trade) :
  entry_fees_paid config (l ++ [ClosedTrade t])
  = (entry_fees_paid config l + margin (position t) * fee_rate config)%num.
Proof. unfold entry_fees_paid. rewrite fold_left_app. reflexivity. Qed.

Lemma entry_fees_paid_halt (config : Config) (l : list LedgerEntry) (ts : Z)
  (r : string) (b : num) :
  entry_fees_paid config (l ++ [HaltEntry ts r b]) = entry_fees_paid config l.
Proof. unfold entry_fees_paid. rewrite fold_left_app. reflexivity. Qed.

(** What a step that appends a closed trade has done: it closed the open
    position at the bar's close and paid margin and profit back. *)
Lemma apply_signal_closes (config : Config) (c : Candle) (sig : Signal)
  (st : SimState) (t : Trade) :
  tradeHistory (flow_state (apply_signal config c sig st))
  = tradeHistory st ++ [ClosedTrade t] ->
  exists p r,
    currentPosition st = Some p
    /\ t = close_trade config c r p
    /\ apply_signal config c sig st = close_position config c r p st.
Proof.
  unfold apply_signal.
  destruct sig as [r|r|r|r price|r o|r o];
    destruct (currentPosition st) as [p|] eqn:Hp; cbn [flow_state];
    try (simpl; intros H; apply app_inj_tail in H; destruct H as [_ H];
         discriminate);
    try (simpl; intros H; symmetry in H;
         destruct (app_one_not_self _ _ H));
    try (rewrite enter_history; intros H; symmetry in H;
         destruct (app_one_not_self _ _ H));
    try (unfold price_triggers;
         destruct (direction p);
         repeat match goal with
                | |- context [if ?b then _ else _] => destruct b
                end;
         simpl; intros H;
         first [ symmetry in H; destruct (app_one_not_self _ _ H)
               | apply app_inj_tail in H; destruct H as [_ H];
                 injection H as <-; eauto ]).
Qed.

Section Accounting.

Variable config : Config.
Variables b0 fee : Qc.
Hypothesis initial_finite : initialBalance config = Fin b0.
Hypothesis fee_finite : feePercentage config = Fin fee.

Lemma fee_rate_finite : fee_rate config = Fin (fee / qz 100).
Proof. unfold fee_rate. rewrite fee_finite. reflexivity. Qed.

Lemma initial_accounted : accounted config b0 fee (initial_state config).
Proof.
  exists b0, (qz 0), (qz 0). simpl. rewrite initial_finite.
  repeat split; try reflexivity.
  change (qz 0) with 0%Qc. ring.
Qed.

Lemma enter_accounted (c : Candle) (r : string) (o : Order) (st : SimState)
  (ps : Qc) :
  accounted config b0 fee st -> currentPosition st = None ->
  o_positionSize o = Fin ps -> o_leverage o = nZ 3 ->
  accounted config b0 fee (flow_state (enter config c r o st)).
Proof.
  intros (b & P & F & Hb & HP & HF & Hinv) Hpos Hps Hlev.
  rewrite Hpos in Hinv. unfold enter.
  destruct (_ >? _)%num.
  - exists b, P, F. cbn [flow_state]. rewrite Hpos. auto.
  - unfold accounted.
    cbn [flow_state tradingAccount currentPosition tradeHistory set_balance
           balance].
    assert (Hm : required_margin c o = Fin (ps * qz 3 * close c / qz 3)).
    { unfold required_margin, leveraged_size. rewrite Hps, Hlev.
      unfold close_of, Candle_HasClose, nZ. cbn [mul].
      apply div_finite. apply qz_pos_nonzero. lia. }
    assert (Hz : leveraged_size o = Fin (ps * qz 3)).
    { unfold leveraged_size. rewrite Hps, Hlev. reflexivity. }
    unfold entry_fees. rewrite Hm, Hz, fee_rate_finite, Hb.
    cbn [mul add sub neg].
    eexists _, P, F.
    split; [reflexivity|]. split; [exact HP|]. split; [exact HF|].
    eexists _, _, _.
    split; [reflexivity|]. split; [reflexivity|]. split; [reflexivity|].
    split; [rewrite Hinv; reflexivity|].
    rewrite Hinv. ring.
Qed.

Lemma pnl_finite (p : Position) (c e z : Qc) :
  entryPrice p = Fin e -> size p = Fin z ->
  exists v, pnl_of p (Fin c) = Fin v.
Proof.
  intros He Hz. unfold pnl_of. rewrite He, Hz.
  destruct (direction p); eexists; reflexivity.
Qed.

Lemma close_accounted (c : Candle) (r : string) (p : Position)
  (st : SimState) :
  accounted config b0 fee st -> currentPosition st = Some p ->
  accounted config b0 fee (flow_state (close_position config c r p st)).
Proof.
  intros (b & P & F & Hb & HP & HF & Hinv) Hpos.
  rewrite Hpos in Hinv.
  destruct Hinv as (e & z & m & He & Hz & Hm & Hbal & Hinv).
  destruct (pnl_finite p (close c) e z He Hz) as (v & Hv).
  unfold close_position, accounted.
  cbn [flow_state tradingAccount currentPosition tradeHistory set_balance
         balance].
  rewrite trade_profits_closed, entry_fees_paid_closed.
  unfold close_trade. cbn [profit position].
  unfold close_of, Candle_HasClose.
  rewrite Hv, Hm, HP, HF, Hb, fee_rate_finite. cbn [mul add sub neg].
  eexists _, _, _.
  split; [reflexivity|]. split; [reflexivity|]. split; [reflexivity|].
  rewrite Hinv. ring.
Qed.

Lemma price_triggers_accounted (c : Candle) (p : Position) (st : SimState) :
  accounted config b0 fee st -> currentPosition st = Some p ->
  accounted config b0 fee (flow_state (price_triggers config c p st)).
Proof.
  intros Hst Hpos. unfold price_triggers.
  destruct (direction p);
    repeat match goal with
           | |- context [if ?b then _ else _] => destruct b
           end;
    try exact Hst; apply close_accounted; assumption.
Qed.

Lemma apply_signal_accounted (c : Candle) (sig : Signal) (st : SimState) :
  accounted config b0 fee st ->
  (forall o, entry_order sig = Some o -> currentPosition st = None ->
             exists ps, o_positionSize o = Fin ps /\ o_leverage o = nZ 3) ->
  accounted config b0 fee (flow_state (apply_signal config c sig st)).
Proof.
  intros Hst Horder. unfold apply_signal.
  destruct sig as [r|r|r|r price|r o|r o].
  { destruct Hst as (b & P & F & Hb & HP & HF & Hinv).
    exists b, P, F. cbn [flow_state tradingAccount currentPosition
                           tradeHistory].
    rewrite trade_profits_halt, entry_fees_paid_halt. auto. }
  all: destruct (currentPosition st) as [p|] eqn:Hp; cbn [flow_state];
    try exact Hst;
    try (apply price_triggers_accounted; assumption);
    try (apply close_accounted; assumption);
    try (destruct (Horder o eq_refl eq_refl) as (ps & Hps & Hlev);
         eapply enter_accounted; eassumption).
Qed.

Lemma log_call_accounted (i : Z) (st : SimState) :
  accounted config b0 fee st -> accounted config b0 fee (log_call i st).
Proof. intros H. exact H. Qed.

Lemma step_accounted (priceData : list Candle) (i : Z) (st : SimState)
  (f : Flow) :
  accounted config b0 fee st -> step config priceData i st = Ok f ->
  accounted config b0 fee (flow_state f).
Proof.
  intros Hst. unfold step.
  destruct (get _ i) as [c| |]; cbn [bind]; try discriminate.
  destruct (balance_break st); [intros [= <-]; exact Hst|].
  destruct (analyze _ _ _) as [sig| |] eqn:Hsig; cbn [bind];
    try discriminate.
  intros [= <-]. apply apply_signal_accounted.
  - apply log_call_accounted. exact Hst.
  - intros o Ho Hpos. simpl in Hpos. rewrite Hpos in Hsig.
    destruct Hst as (b & _ & _ & Hb & _).
    exact (analyze_order_finite _ _ b sig o Hb Hsig Ho).
Qed.

Lemma sim_loop_accounted (priceData : list Candle) :
  forall (n : nat) (i : Z) (st st' : SimState),
    accounted config b0 fee st ->
    sim_loop config priceData n i st = Ok st' ->
    accounted config b0 fee st'.
Proof.
  induction n as [|n IH]; intros i st st' Hst; simpl.
  - intros [= <-]. exact Hst.
  - destruct (step config priceData i st) as [f| |] eqn:Hf; cbn [bind];
      try discriminate.
    pose proof (step_accounted priceData i st f Hst Hf) as Hacc.
    destruct f as [st1|st1]; simpl in Hacc.
    + apply IH. exact Hacc.
    + intros [= <-]. exact Hacc.
Qed.

(** The invariant, read as the specification states it. *)
Lemma accounted_balance (st : SimState) :
  accounted config b0 fee st ->
  match currentPosition st with
  | None =>
      balance (tradingAccount st)
      = (initialBalance config + trade_profits (tradeHistory st)
         - entry_fees_paid config (tradeHistory st))%num
  | Some p =>
      balance (tradingAccount st)
      = (initialBalance config + trade_profits (tradeHistory st)
         - entry_fees_paid config (tradeHistory st)
         - (margin p + margin p * fee_rate config))%num
      /\ balance (tradingAccount st)
         = (entryBalance p - (margin p + margin p * fee_rate config))%num
  end.
Proof.
  intros (b & P & F & Hb & HP & HF & Hinv).
  rewrite Hb, HP, HF, initial_finite.
  destruct (currentPosition st) as [p|].
  - destruct Hinv as (e & z & m & He & Hz & Hm & Hbal & Hinv).
    rewrite Hm, Hbal, fee_rate_finite. cbn [mul add sub neg].
    split; f_equal; rewrite Hinv; ring.
  - cbn [mul add sub neg]. f_equal. rewrite Hinv. ring.
Qed.

End Accounting.

(** The replay of the ledger.  These steps use no property of the
    numbers: they hold of every arithmetic in which the loop and the
    replay perform the same operations, as they do in binary64. *)
Lemma replay_app (config : Config) (b : num) (l : list LedgerEntry)
  (e : LedgerEntry) :
  replay config b (l ++ [e]) = replay_trade config (replay config b l) e.
Proof. unfold replay. rewrite fold_left_app. reflexivity. Qed.

Lemma enter_replayed (config : Config) (c : Candle) (r : string) (o : Order)
  (st : SimState) :
  replayed config st -> currentPosition st = None ->
  replayed config (flow_state (enter config c r o st)).
Proof.
  intros H Hpos. unfold enter. destruct (_ >? _)%num; [exact H|].
  unfold replayed in *. rewrite Hpos in H.
  cbn [flow_state currentPosition tradingAccount set_balance balance
         tradeHistory margin].
  rewrite H. reflexivity.
Qed.

Lemma close_replayed (config : Config) (c : Candle) (r : string)
  (p : Position) (st : SimState) :
  replayed config st -> currentPosition st = Some p ->
  replayed config (flow_state (close_position config c r p st)).
Proof.
  intros H Hpos. unfold replayed in *. rewrite Hpos in H.
  unfold close_position.
  cbn [flow_state currentPosition tradingAccount set_balance balance
         tradeHistory].
  rewrite replay_app, H. reflexivity.
Qed.

Lemma apply_signal_replayed (config : Config) (c : Candle) (sig : Signal)
  (st : SimState) :
  replayed config st ->
  replayed config (flow_state (apply_signal config c sig st)).
Proof.
  intros H. unfold apply_signal.
  destruct sig as [r|r|r|r price|r o|r o].
  { unfold replayed in *.
    cbn [flow_state currentPosition tradingAccount tradeHistory].
    rewrite replay_app. exact H. }
  all: destruct (currentPosition st) as [p|] eqn:Hp; cbn [flow_state];
    try exact H;
    try (apply enter_replayed; assumption);
    try (apply close_replayed; assumption);
    unfold price_triggers; destruct (direction p);
    repeat match goal with
           | |- context [if ?b then _ else _] => destruct b
           end;
    try exact H; apply close_replayed; assumption.
Qed.

Lemma step_replayed (config : Config) (priceData : list Candle) (i : Z)
  (st : SimState) (f : Flow) :
  replayed config st -> step config priceData i st = Ok f ->
  replayed config (flow_state f).
Proof.
  intros H. unfold step.
  destruct (get _ i) as [c| |]; cbn [bind]; try discriminate.
  destruct (balance_break st); [intros [= <-]; exact H|].
  destruct (analyze _ _ _) as [sig| |]; cbn [bind]; try discriminate.
  intros [= <-]. apply apply_signal_replayed. exact H.
Qed.

Lemma sim_loop_replayed (config : Config) (priceData : list Candle) :
  forall (n : nat) (i : Z) (st st' : SimState),
    replayed config st ->
    sim_loop config priceData n i st = Ok st' ->
    replayed config st'.
Proof.
  induction n as [|n IH]; intros i st st' H; simpl.
  - intros [= <-]. exact H.
  - destruct (step config priceData i st) as [f| |] eqn:Hf; cbn [bind];
      try discriminate.
    pose proof (step_replayed config priceData i st f H Hf) as Hr.
    destruct f as [st1|st1]; simpl in Hr.
    + apply IH. exact Hr.
    + intros [= <-]. exact Hr.
Qed.

(** The entry branch stores the balance before the entry in the
    position. *)
Lemma enter_records_balance (config : Config) (c : Candle) (r : string)
  (o : Order) (st : SimState) (p : Position) :
  currentPosition st = None ->
  currentPosition (flow_state (enter config c r o st)) = Some p ->
  entryBalance p = balance (tradingAccount st)
  /\ margin p = required_margin c o
  /\ balance (tradingAccount (flow_state (enter config c r o st)))
     = (balance (tradingAccount st)
        - (margin p + margin p * fee_rate config))%num.
Proof.
  intros Hnone. unfold enter.
  destruct (_ >? _)%num; cbn [flow_state currentPosition].
  - rewrite Hnone. discriminate.
  - intros [= <-]. repeat split.
Qed.

(** C3, as amended.  In every state that the loop reaches from the initial
    state (finite initial balance and fee):
    (1) a step that closes a trade leaves the balance at the balance
    before the position opened, minus (margin + entry fee), plus
    (margin + realized P&L - exit fee), both fees being the fee rate times
    the margin, and the trade's [profit] is the realized P&L less the exit
    fee;
    (2) when no position is open the balance is the ledger replayed from
    the initial balance, each recorded trade in order subtracting
    (margin + entry fee) and then adding (margin + profit) with the
    operations of the loop, and while a position is open it is lower by
    that position's margin and entry fee;
    (3) in exact arithmetic that replay is the initial balance plus the
    recorded profits minus the entry fees paid (the program adds in
    binary64, where its balance can differ from these sums in the last
    digits). *)
Theorem balance_accounting (config : Config) (priceData : list Candle)
  (b0 fee : Qc) (n : nat) (st : SimState) :
  initialBalance config = Fin b0 ->
  feePercentage config = Fin fee ->
  sim_loop config priceData n first_bar (initial_state config) = Ok st ->
  (forall i f t,
      step config priceData i st = Ok f ->
      tradeHistory (flow_state f) = tradeHistory st ++ [ClosedTrade t] ->
      exists p,
        currentPosition st = Some p
        /\ position t = p
        /\ fees t = (margin p * fee_rate config)%num
        /\ profit t = (pnl_of p (exitPrice t) - fees t)%num
        /\ balance (tradingAccount (flow_state f))
           = (entryBalance p - (margin p + margin p * fee_rate config)
              + (margin p + (pnl_of p (exitPrice t) - fees t)))%num)
  /\ match currentPosition st with
     | None =>
         balance (tradingAccount st)
         = replay config (initialBalance config) (tradeHistory st)
     | Some p =>
         balance (tradingAccount st)
         = (replay config (initialBalance config) (tradeHistory st)
            - (margin p + margin p * fee_rate config))%num
     end
  /\ match currentPosition st with
     | None =>
         balance (tradingAccount st)
         = (initialBalance config + trade_profits (tradeHistory st)
            - entry_fees_paid config (tradeHistory st))%num
     | Some p =>
         balance (tradingAccount st)
         = (initialBalance config + trade_profits (tradeHistory st)
            - entry_fees_paid config (tradeHistory st)
            - (margin p + margin p * fee_rate config))%num
     end.
Proof.
  intros Hb0 Hfee Hloop.
  assert (Hrep : replayed config st).
  { eapply sim_loop_replayed; [|exact Hloop]. reflexivity. }
  assert (Hacc : accounted config b0 fee st).
  { eapply sim_loop_accounted; [exact Hfee | | exact Hloop].
    apply initial_accounted. exact Hb0. }
  pose proof (accounted_balance config b0 fee Hb0 Hfee st Hacc) as Hbal.
  split.
  - intros i f t Hstep Hhist. unfold step in Hstep.
    destruct (get _ i) as [c| |]; cbn [bind] in Hstep; try discriminate.
    destruct (balance_break st).
    { injection Hstep as <-. simpl in Hhist. symmetry in Hhist.
      destruct (app_one_not_self _ _ Hhist). }
    destruct (analyze _ _ _) as [sig| |]; cbn [bind] in Hstep;
      try discriminate.
    injection Hstep as <-.
    destruct (apply_signal_closes config c sig (log_call i st) t Hhist)
      as (p & r & Hp & -> & ->).
    simpl in Hp. rewrite Hp in Hbal. destruct Hbal as [_ Hbal].
    exists p. split; [exact Hp|]. split; [reflexivity|].
    split; [reflexivity|]. split; [reflexivity|].
    unfold close_position.
    cbn [flow_state tradingAccount set_balance balance log_call].
    rewrite Hbal. reflexivity.
  - split; [exact Hrep|].
    destruct (currentPosition st) as [p|]; [apply Hbal | exact Hbal].
Qed.

(** The theorem at that run. *)
Lemma balance_accounting_witness :
  List.length (tradeHistory rising_run_state) = 3%nat
  /\ balance (tradingAccount rising_run_state)
     = replay default_config (initialBalance default_config)
         (tradeHistory rising_run_state)
  /\ balance (tradingAccount rising_run_state)
     = (initialBalance default_config
        + trade_profits (tradeHistory rising_run_state)
        - entry_fees_paid default_config (tradeHistory rising_run_state))%num.
Proof.
  split; [reflexivity|].
  destruct (balance_accounting default_config (rising_bars 56)
              (qz 10000) (qfrac 75 1000) 6 rising_run_state
              eq_refl eq_refl ltac:(vm_compute; reflexivity)) as (_ & H).
  exact H.
Defined.

(** C3, the claim as stated fails: the loop over 51 rising bars ends with
    a position open and no trade recorded; the final balance is 7998.5,
    while the initial balance plus the recorded profits minus the entry
    fee paid is 9998.5, the reserved margin of 2000 apart. *)
Lemma open_position_final_balance :
  exists st p,
    run_loop default_config (rising_bars 51) = Ok st
    /\ currentPosition st = Some p
    /\ tradeHistory st = []
    /\ balance (tradingAccount st) = nQ 79985 10
    /\ (initialBalance default_config + trade_profits (tradeHistory st)
        - margin p * fee_rate default_config)%num = nQ 99985 10
    /\ balance (tradingAccount st)
       <> (initialBalance default_config + trade_profits (tradeHistory st)
           - margin p * fee_rate default_config)%num.
Proof.
  eexists. eexists.
  split; [vm_compute; reflexivity|].
  split; [reflexivity|].
  split; [reflexivity|].
  split; [js_eval|].
  split; [js_eval|].
  intros E. vm_compute in E. injection E as E. discriminate.
Qed.

(* ===================================================================== *)
(** * The levels of a position that the strategy opens *)
(* ===================================================================== *)

Lemma qc_mul_pos (a b : Qc) :
  (qz 0 < a)%Qc -> (qz 0 < b)%Qc -> (qz 0 < a * b)%Qc.
Proof.
  intros Ha Hb. unfold qz in *. qc2q.
  apply Qmult_lt_0_compat; assumption.
Qed.

Lemma qc_div_pos (a b : Qc) :
  (qz 0 < a)%Qc -> (qz 0 < b)%Qc -> (qz 0 < a / b)%Qc.
Proof.
  intros Ha Hb. unfold qz in *. qc2q.
  apply Qmult_lt_0_compat; [assumption|].
  apply Qinv_lt_0_compat. assumption.
Qed.

Lemma stop_below_price (c : Qc) :
  (qz 0 < c)%Qc -> (c * (qz 1 - qfrac 15 100 / qz 100) < c)%Qc.
Proof.
  intros Hc. unfold qz, qfrac in *. qc2q.
  change (/ inject_Z 100)%Q with (1 # 100)%Q.
  change (inject_Z 1) with 1%Q. lra.
Qed.

(** For a positive balance and a positive price the position size is
    positive. *)
Lemma position_size_positive (ab c : Qc) :
  (qz 0 < ab)%Qc -> (qz 0 < c)%Qc ->
  exists ps, position_size (Fin ab) (Fin c) = Fin ps /\ (qz 0 < ps)%Qc.
Proof.
  intros Hab Hc. unfold position_size.
  assert (E1 : (riskPercentage / nZ 100)%num = Fin (qfrac 3 10 / qz 100))
    by reflexivity.
  assert (E2 : (stopLossPct / nZ 100)%num = Fin (qfrac 15 100 / qz 100))
    by reflexivity.
  rewrite E1, E2. unfold nQ. cbn [mul].
  assert (Hr : (qz 0 < ab * (qfrac 3 10 / qz 100))%Qc)
    by (apply qc_mul_pos; [exact Hab | reflexivity]).
  assert (Hsl : (qz 0 < c * (qfrac 15 100 / qz 100))%Qc)
    by (apply qc_mul_pos; [exact Hc | reflexivity]).
  rewrite (div_finite _ _ (positive_nonzero _ Hsl)). cbn [mul].
  destruct (_ >? _)%num.
  - rewrite (div_finite _ _ (positive_nonzero c Hc)).
    eexists. split; [reflexivity|].
    apply qc_div_pos; [|exact Hc].
    apply qc_mul_pos; [exact Hab | reflexivity].
  - eexists. split; [reflexivity|].
    apply qc_div_pos; assumption.
Qed.

Lemma look_for_entry_buy (s : Snapshot) (accountBalance : num) (r : string)
  (o : Order) :
  look_for_entry s accountBalance = SigBuy r o ->
  o_direction o = Long
  /\ o_stopLoss o
     = (close_of (currentCandle s) * (nZ 1 - stopLossPct / nZ 100))%num.
Proof.
  unfold look_for_entry.
  repeat match goal with
         | |- context [if ?b then _ else _] =>
             destruct b; try discriminate
         end;
    intros [= <- <-]; split; reflexivity.
Qed.

(** A long position that the loop opens on a buy signal of the strategy
    has its stop below its entry price, a positive size and a finite,
    positive margin. *)
Lemma engine_long_position_levels (config : Config) (candles : list Candle)
  (account : Account) (b : Qc) (r : string) (o : Order) (c : Candle)
  (st : SimState) (p : Position) :
  balance account = Fin b ->
  analyze candles None account = Ok (SigBuy r o) ->
  close_of c = o_price o ->
  currentPosition st = None ->
  currentPosition (flow_state (enter config c r o st)) = Some p ->
  direction p = Long
  /\ (stopLoss p <? entryPrice p)%num = true
  /\ (size p >? nZ 0)%num = true
  /\ exists m, margin p = Fin m /\ (qz 0 <= m)%Qc.
Proof.
  intros Hb Hsig Hc Hnone Hp.
  unfold analyze in Hsig. rewrite Hb in Hsig.
  assert (Hab : exists ab, or_else (Fin b) (nZ 1000) = Fin ab).
  { unfold or_else. destruct (truthy (Fin b)); eexists; reflexivity. }
  destruct Hab as (ab & Eab). rewrite Eab in Hsig.
  destruct (Fin ab <=? nZ 0)%num eqn:Hpos; [discriminate|].
  cbn [leb nZ] in Hpos. apply q_leb_gt in Hpos.
  destruct (len candles <? 15); [discriminate|].
  destruct (snapshot candles) as [s| |] eqn:Hs; cbn [bind] in Hsig;
    try discriminate.
  injection Hsig as Hsig.
  destruct (look_for_entry_buy s (Fin ab) r o Hsig) as (Hdir & Hstop).
  assert (Ho : entry_order (look_for_entry s (Fin ab)) = Some o)
    by (rewrite Hsig; reflexivity).
  destruct (look_for_entry_order s (Fin ab) o Ho)
    as (Hvol & Hps & Hlev & Hprice).
  assert (Hclose : (qz 0 < close (currentCandle s))%Qc).
  { destruct (close_of (currentCandle s) >? nZ 0)%num eqn:G.
    - unfold close_of, Candle_HasClose, gtb in G. cbn [ltb] in G.
      apply q_ltb_lt in G. exact G.
    - rewrite (snapshot_volatility candles s Hs G) in Hvol. discriminate. }
  destruct (position_size_positive ab _ Hpos Hclose) as (ps & Hfin & Hps0).
  assert (Ecc : close c = close (currentCandle s)).
  { rewrite Hprice in Hc. unfold close_of, Candle_HasClose in Hc.
    injection Hc as Hc. exact Hc. }
  unfold enter in Hp.
  destruct (_ >? _)%num; cbn [flow_state currentPosition] in Hp;
    [rewrite Hnone in Hp; discriminate|].
  injection Hp as <-. cbn [direction stopLoss entryPrice size margin].
  split; [exact Hdir|].
  unfold required_margin, leveraged_size.
  unfold close_of, Candle_HasClose in Hps, Hstop |- *.
  rewrite Hstop, Hps, Hfin, Hlev.
  unfold strategyLeverage. rewrite Ecc.
  assert (E2 : (nZ 1 - stopLossPct / nZ 100)%num
               = Fin (qz 1 - qfrac 15 100 / qz 100)) by reflexivity.
  rewrite E2. unfold nZ. cbn [mul ltb gtb].
  rewrite (div_finite _ (qz 3) (qz_pos_nonzero 3 eq_refl)).
  assert (H3 : (qz 0 < qz 3)%Qc) by reflexivity.
  split; [apply q_ltb_lt; apply stop_below_price; exact Hclose|].
  split; [apply q_ltb_lt; apply qc_mul_pos; assumption|].
  eexists. split; [reflexivity|].
  apply Qclt_le_weak. apply qc_div_pos; [|exact H3].
  apply qc_mul_pos; [|exact Hclose]. apply qc_mul_pos; assumption.
Qed.

Lemma drop_percent (c e : Qc) :
  (qz 0 < e)%Qc ->
  (c <= e * (qz 1 - qfrac 15 100 / qz 100))%Qc ->
  ((c - e) / e * qz 100 <= - qfrac 15 100)%Qc.
Proof.
  intros He Hc.
  assert (Hd : ((c - e) / e * e = c - e)%Qc).
  { field. apply positive_nonzero. exact He. }
  revert Hd. generalize ((c - e) / e)%Qc. intros d Hd.
  assert (Hq : (this d * this e == this c - this e)%Q).
  { transitivity (this (d * e)%Qc).
    - unfold Qcmult. cbn [this Q2Qc]. rewrite Qred_correct. reflexivity.
    - rewrite Hd. unfold Qcminus, Qcplus, Qcopp. cbn [this Q2Qc].
      rewrite !Qred_correct. reflexivity. }
  clear Hd.
  unfold qz, qfrac in *. qc2q.
  change (/ inject_Z 100)%Q with (1 # 100)%Q in Hc.
  change (inject_Z 1) with 1%Q in Hc.
  change (inject_Z 100) with 100%Q.
  assert (Hle : ((d + (15 # 10000)) * e <= 0)%Q) by lra.
  assert (Hd0 : (d + (15 # 10000) <= 0)%Q).
  { destruct (Qlt_le_dec 0 (d + (15 # 10000))) as [G|G]; [|exact G].
    pose proof (Qmult_lt_0_compat _ _ G He). lra. }
  lra.
Qed.

(** For a long position with the strategy's own stop level (0.15% below a
    positive entry price), a close at or below the stored stop makes the
    strategy itself exit with 'Stop loss hit': the explicit exit comes
    first. *)
Lemma engine_stop_precedes_trigger (s : Snapshot) (p : Position) (e : Qc) :
  direction p = Long ->
  entryPrice p = Fin e -> (qz 0 < e)%Qc ->
  stopLoss p = (Fin e * (nZ 1 - stopLossPct / nZ 100))%num ->
  (close_of (currentCandle s) <=? stopLoss p)%num = true ->
  manage s p = SigExit "Stop loss hit" (close_of (currentCandle s)).
Proof.
  intros Hdir He He0 Hstop Hc.
  assert (E2 : (nZ 1 - stopLossPct / nZ 100)%num
               = Fin (qz 1 - qfrac 15 100 / qz 100)) by reflexivity.
  rewrite E2 in Hstop. cbn [mul] in Hstop. rewrite Hstop in Hc.
  unfold close_of, Candle_HasClose in Hc |- *. cbn [leb] in Hc.
  apply q_leb_le in Hc.
  pose proof (drop_percent _ _ He0 Hc) as Hpnl.
  unfold manage. rewrite Hdir, He.
  unfold close_of, Candle_HasClose, nZ. cbn [sub add neg].
  rewrite (div_finite _ _ (positive_nonzero e He0)). cbn [mul].
  change (close (currentCandle s) + - e)%Qc
    with (close (currentCandle s) - e)%Qc.
  set (pnl := ((close (currentCandle s) - e) / e * qz 100)%Qc) in *.
  assert (Hnot : (Fin pnl >=? profitTarget)%num = false).
  { unfold geb, profitTarget, nQ. cbn [leb]. apply q_leb_gt.
    eapply Qcle_lt_trans; [exact Hpnl | reflexivity]. }
  assert (Hyes : (Fin pnl <=? neg stopLossPct)%num = true).
  { unfold stopLossPct, nQ. cbn [neg leb]. apply q_leb_le. exact Hpnl. }
  rewrite Hnot, Hyes. reflexivity.
Qed.

(* ===================================================================== *)
(** * The causal view *)
(* ===================================================================== *)

Lemma slice_app_prefix {A} (l future : list A) (b : Z) :
  b <= len l -> slice (l ++ future) 0 b = slice l 0 b.
Proof.
  intros Hb. unfold slice. simpl skipn.
  rewrite firstn_app.
  replace (Z.to_nat (b - 0) - List.length l)%nat with 0%nat
    by (unfold len in Hb; lia).
  simpl. apply app_nil_r.
Qed.

Lemma step_app_prefix (config : Config) (priceData future : list Candle)
  (i : Z) (st : SimState) :
  i < len priceData ->
  step config (priceData ++ future) i st = step config priceData i st.
Proof.
  intros Hi. unfold step. rewrite slice_app_prefix by lia. reflexivity.
Qed.

(** X1.  No lookahead.  The iterations of the loop over bars [i .. i + n - 1]
    give the same result, state or exception, whatever bars follow them in
    the price history: the strategy and the engine see only the bars up to
    the current one. *)
Theorem no_lookahead (config : Config) (priceData future : list Candle) :
  forall (n : nat) (i : Z) (st : SimState),
    i + Z.of_nat n <= len priceData ->
    sim_loop config (priceData ++ future) n i st
    = sim_loop config priceData n i st.
Proof.
  induction n as [|n IH]; intros i st Hn; [reflexivity|].
  simpl. rewrite step_app_prefix by lia.
  destruct (step config priceData i st) as [f| |]; try reflexivity.
  cbn [bind]. destruct f as [st'|st']; [|reflexivity].
  apply IH. lia.
Qed.

(** The theorem at 56 rising bars followed by three bars at 450: the
    first six iterations are those of the run over the 56 bars alone. *)
Lemma no_lookahead_witness :
  sim_loop default_config
    (rising_bars 56 ++ [spike_bar 56; spike_bar 57; spike_bar 58])
    6 50 (initial_state default_config)
  = sim_loop default_config (rising_bars 56) 6 50
      (initial_state default_config).
Proof.
  apply no_lookahead. vm_compute. discriminate.
Defined.

(* ===================================================================== *)
(** * The shape of a run *)
(* ===================================================================== *)

Lemma zrange_succ (i : Z) (k : nat) :
  zrange i (S k) = i :: zrange (i + 1) k.
Proof.
  unfold zrange. simpl. f_equal; [lia|].
  rewrite <- seq_shift, map_map. apply map_ext. intros j. lia.
Qed.

Lemma step_continue_calls (config : Config) (priceData : list Candle) (i : Z)
  (st st' : SimState) :
  step config priceData i st = Ok (Continue st') ->
  engineCalls st' = i :: engineCalls st.
Proof.
  unfold step.
  destruct (get _ i) as [c| |]; cbn [bind]; try discriminate.
  destruct (balance_break st); [discriminate|].
  destruct (analyze _ _ _) as [sig| |]; cbn [bind]; try discriminate.
  intros [= H].
  pose proof (apply_signal_calls config c sig (log_call i st)) as E.
  rewrite H in E. exact E.
Qed.

(** X2.  The bars are visited once each, in order and without gaps: when the
    loop over [n] bars from bar [i] ends, the strategy has been called at
    bars [i, i + 1, ..., i + k - 1] for some [k <= n], and at no other
    bar. *)
Theorem engine_calls_consecutive (config : Config) (priceData : list Candle) :
  forall (n : nat) (i : Z) (st st' : SimState),
    sim_loop config priceData n i st = Ok st' ->
    exists k, (k <= n)%nat
              /\ engineCalls st' = rev (zrange i k) ++ engineCalls st.
Proof.
  induction n as [|n IH]; intros i st st'; simpl.
  - intros [= <-]. exists 0%nat. split; [lia | reflexivity].
  - destruct (step config priceData i st) as [f| |] eqn:Hf; cbn [bind];
      try discriminate.
    destruct f as [st1|st1].
    + intros Hloop. destruct (IH _ _ _ Hloop) as (k & Hk & Hcalls).
      exists (S k). split; [lia|].
      rewrite Hcalls, (step_continue_calls _ _ _ _ _ Hf), zrange_succ.
      simpl. rewrite <- app_assoc. reflexivity.
    + intros [= <-].
      destruct (step_calls _ _ _ _ _ Hf) as [E|E]; simpl in E.
      * exists 0%nat. split; [lia | exact E].
      * exists 1%nat. split; [lia|]. rewrite E. unfold zrange. simpl.
        f_equal. lia.
Qed.

(** The theorem at the run over 56 rising bars: six calls, bars 50 to
    55. *)
Lemma engine_calls_consecutive_witness :
  exists k, (k <= 6)%nat
            /\ engineCalls rising_run_state
               = rev (zrange 50 k)
                 ++ engineCalls (initial_state default_config).
Proof.
  apply (engine_calls_consecutive default_config (rising_bars 56) 6 50).
  vm_compute. reflexivity.
Defined.

(** What one application of a signal does to the ledger. *)
Lemma apply_signal_history (config : Config) (c : Candle) (sig : Signal)
  (st : SimState) :
  match apply_signal config c sig st with
  | Continue st' =>
      tradeHistory st' = tradeHistory st
      \/ exists t, tradeHistory st' = tradeHistory st ++ [ClosedTrade t]
  | Break st' =>
      exists ts r b, tradeHistory st' = tradeHistory st ++ [HaltEntry ts r b]
  end.
Proof.
  unfold apply_signal, enter, price_triggers, close_position.
  destruct sig; destruct (currentPosition st) as [p|]; simpl; eauto;
    repeat match goal with
           | |- context [if ?b then _ else _] => destruct b; simpl
           | |- context [match direction ?x with _ => _ end] =>
               destruct (direction x); simpl
           end;
    eauto.
Qed.

Lemma step_history (config : Config) (priceData : list Candle) (i : Z)
  (st : SimState) (f : Flow) :
  step config priceData i st = Ok f ->
  match f with
  | Continue st' =>
      tradeHistory st' = tradeHistory st
      \/ exists t, tradeHistory st' = tradeHistory st ++ [ClosedTrade t]
  | Break st' =>
      tradeHistory st' = tradeHistory st
      \/ exists ts r b, tradeHistory st' = tradeHistory st ++ [HaltEntry ts r b]
  end.
Proof.
  unfold step.
  destruct (get _ i) as [c| |]; cbn [bind]; try discriminate.
  destruct (balance_break st); [intros [= <-]; auto|].
  destruct (analyze _ _ _) as [sig| |]; cbn [bind]; try discriminate.
  intros [= <-].
  pose proof (apply_signal_history config c sig (log_call i st)) as H.
  destruct (apply_signal config c sig (log_call i st)); simpl in H; auto.
Qed.

Lemma sim_loop_ledger (config : Config) (priceData : list Candle) :
  forall (n : nat) (i : Z) (st st' : SimState),
    sim_loop config priceData n i st = Ok st' ->
    exists trades halt,
      tradeHistory st' = tradeHistory st ++ map ClosedTrade trades ++ halt
      /\ (List.length trades <= n)%nat
      /\ (halt = [] \/ exists ts r b, halt = [HaltEntry ts r b]).
Proof.
  induction n as [|n IH]; intros i st st'; simpl.
  - intros [= <-]. exists [], []. simpl. rewrite app_nil_r. auto.
  - destruct (step config priceData i st) as [f| |] eqn:Hf; cbn [bind];
      try discriminate.
    pose proof (step_history _ _ _ _ _ Hf) as Hh.
    destruct f as [st1|st1].
    + intros Hloop.
      destruct (IH _ _ _ Hloop) as (trades & halt & Ht & Hlen & Hhalt).
      destruct Hh as [E|(t & E)]; rewrite E in Ht.
      * exists trades, halt. repeat split; auto.
      * exists (t :: trades), halt. simpl. rewrite <- app_assoc in Ht.
        repeat split; auto. lia.
    + intros [= <-]. destruct Hh as [E|(ts & r & b & E)].
      * exists [], []. simpl. rewrite app_nil_r. repeat split; auto. lia.
      * exists [], [HaltEntry ts r b]. simpl. repeat split; eauto 6. lia.
Qed.

(** X3.  The ledger is append-only and a halt record can only be its last
    element: the loop over [n] bars leaves the ledger it started with,
    followed by at most [n] closed trades, followed by at most one halt
    record. *)
Theorem ledger_shape (config : Config) (priceData : list Candle) :
  forall (n : nat) (i : Z) (st st' : SimState),
    sim_loop config priceData n i st = Ok st' ->
    exists trades halt,
      tradeHistory st' = tradeHistory st ++ map ClosedTrade trades ++ halt
      /\ (List.length trades <= n)%nat
      /\ (halt = [] \/ exists ts r b, halt = [HaltEntry ts r b]).
Proof. exact (sim_loop_ledger config priceData). Qed.

(** The theorem at the run into bankruptcy: one trade, then the halt. *)
Lemma ledger_shape_witness :
  exists trades halt,
    tradeHistory crash_run_state
    = tradeHistory (initial_state default_config)
      ++ map ClosedTrade trades ++ halt
    /\ (List.length trades <= 4)%nat
    /\ (halt = [] \/ exists ts r b, halt = [HaltEntry ts r b]).
Proof.
  apply (ledger_shape default_config crash_bars 4 50).
  vm_compute. reflexivity.
Defined.

(** X4.  One position at a time.  While a position is open no signal replaces
    it (a buy or sell signal opens nothing): after the signal is applied
    the same position is still open, or no position is open and the trade
    that closes it, at the bar's close, is the last element of the
    ledger. *)
Theorem open_position_is_kept_or_closed (config : Config) (c : Candle)
  (sig : Signal) (st : SimState) (p : Position) :
  currentPosition st = Some p ->
  let st' := flow_state (apply_signal config c sig st) in
  (currentPosition st' = Some p
   /\ balance (tradingAccount st') = balance (tradingAccount st))
  \/ (currentPosition st' = None
      /\ exists r,
           tradeHistory st'
           = tradeHistory st ++ [ClosedTrade (close_trade config c r p)]).
Proof.
  intros Hp. unfold apply_signal. rewrite Hp.
  destruct sig; simpl; auto;
    try (right; split; [reflexivity | eexists; reflexivity]);
    unfold price_triggers;
    destruct (direction p);
    repeat match goal with
           | |- context [if ?b then _ else _] => destruct b; simpl
           end;
    auto; right; split; try reflexivity; eexists; reflexivity.
Qed.

(** The theorem at scenario C with a buy signal: the long is closed by
    its stop, nothing is bought. *)
Lemma open_position_is_kept_or_closed_witness :
  let st' := flow_state (apply_signal default_config scenario_c_bar
                           buy_at_zero_balance scenario_c_state) in
  (currentPosition st' = Some scenario_c_position
   /\ balance (tradingAccount st') = balance (tradingAccount scenario_c_state))
  \/ (currentPosition st' = None
      /\ exists r,
           tradeHistory st'
           = tradeHistory scenario_c_state
             ++ [ClosedTrade (close_trade default_config scenario_c_bar r
                                scenario_c_position)]).
Proof.
  apply open_position_is_kept_or_closed. reflexivity.
Defined.

(* ===================================================================== *)
(** * Position sizing *)
(* ===================================================================== *)

Lemma position_size_capped (ab c : Qc) :
  (qz 0 < ab)%Qc -> (qz 0 < c)%Qc ->
  position_size (Fin ab) (Fin c) = Fin (ab * qfrac 1 5 / c).
Proof.
  intros Hab Hc. unfold position_size.
  assert (E1 : (riskPercentage / nZ 100)%num = Fin (qfrac 3 10 / qz 100))
    by reflexivity.
  assert (E2 : (stopLossPct / nZ 100)%num = Fin (qfrac 15 100 / qz 100))
    by reflexivity.
  rewrite E1, E2. unfold nQ. cbn [mul].
  set (sl := (qfrac 15 100 / qz 100)%Qc).
  assert (Hsl0 : (qz 0 < sl)%Qc) by reflexivity.
  assert (Er : (qfrac 3 10 / qz 100)%Qc = ((1 + 1) * sl)%Qc)
    by (apply Qc_is_canon; reflexivity).
  assert (E5 : qfrac 20 100 = qfrac 1 5) by (apply Qc_is_canon; reflexivity).
  rewrite Er, E5.
  assert (Hden : (c * sl)%Qc <> qz 0)
    by (apply positive_nonzero; apply qc_mul_pos; assumption).
  rewrite (div_finite _ _ Hden). cbn [mul].
  assert (Hval : (ab * ((1 + 1) * sl) / (c * sl) * c = (1 + 1) * ab)%Qc).
  { field. split; apply positive_nonzero; assumption. }
  rewrite Hval.
  assert (Hcap : (Fin ((1 + 1) * ab) >? Fin (ab * qfrac 1 5))%num = true).
  { unfold gtb. cbn [ltb]. apply q_ltb_lt. clear - Hab.
    unfold qz, qfrac in *. qc2q. lra. }
  rewrite Hcap. apply div_finite. apply positive_nonzero. exact Hc.
Qed.

(** X5.  The risk-based size is worth twice the balance, so the cap of 20% of
    the balance always applies: for a positive balance and price the
    position size is a fifth of the balance divided by the price. *)
Theorem position_size_is_capped (ab c : Qc) :
  (qz 0 < ab)%Qc -> (qz 0 < c)%Qc ->
  position_size (Fin ab) (Fin c) = Fin (ab * qfrac 1 5 / c).
Proof. exact (position_size_capped ab c). Qed.

(** The theorem at a balance of 10000 and a price of 150. *)
Lemma position_size_is_capped_witness :
  position_size (nZ 10000) (nZ 150)
  = Fin (qz 10000 * qfrac 1 5 / qz 150).
Proof.
  apply position_size_is_capped; reflexivity.
Defined.

(* ===================================================================== *)
(** * The orders of the strategy *)
(* ===================================================================== *)

Lemma snapshot_current (candles : list Candle) (s : Snapshot) :
  snapshot candles = Ok s ->
  get candles (len candles - 1) = Ok (currentCandle s).
Proof.
  unfold snapshot. intros H.
  destruct (get candles (len candles - 1)) as [c| |]; cbn [bind] in H;
    try discriminate.
  repeat match type of H with
         | bind ?c _ = Ok _ =>
             let E := fresh "E" in
             destruct c eqn:E; cbn [bind] in H; try discriminate
         end.
  injection H as <-. reflexivity.
Qed.

Lemma long_levels_const :
  (nZ 1 - stopLossPct / nZ 100)%num = Fin (qfrac 9985 10000)
  /\ (nZ 1 + profitTarget / nZ 100)%num = Fin (qfrac 1001 1000)
  /\ (nZ 1 + stopLossPct / nZ 100)%num = Fin (qfrac 10015 10000)
  /\ (nZ 1 - profitTarget / nZ 100)%num = Fin (qfrac 999 1000).
Proof. repeat split; js_eval. Qed.

Lemma look_for_entry_levels (s : Snapshot) (accountBalance : num) (o : Order) :
  entry_order (look_for_entry s accountBalance) = Some o ->
  let c := close (currentCandle s) in
  (exists r, look_for_entry s accountBalance = SigBuy r o)
  /\ o_direction o = Long
  /\ o_stopLoss o = Fin (c * qfrac 9985 10000)
  /\ o_takeProfit o = Fin (c * qfrac 1001 1000)
  \/
  (exists r, look_for_entry s accountBalance = SigSell r o)
  /\ o_direction o = Short
  /\ o_stopLoss o = Fin (c * qfrac 10015 10000)
  /\ o_takeProfit o = Fin (c * qfrac 999 1000).
Proof.
  destruct long_levels_const as (L1 & L2 & L3 & L4).
  unfold look_for_entry. rewrite L1, L2, L3, L4.
  unfold close_of, Candle_HasClose. cbn [mul].
  repeat match goal with
         | |- context [if ?b then _ else _] =>
             destruct b; try discriminate
         end;
    simpl; intros [= <-]; simpl; eauto 10.
Qed.

Lemma analyze_order_levels (candles : list Candle) (account : Account)
  (sig : Signal) (o : Order) :
  analyze candles None account = Ok sig ->
  entry_order sig = Some o ->
  exists c,
    get candles (len candles - 1) = Ok c
    /\ (qz 0 < close c)%Qc
    /\ o_price o = Fin (close c)
    /\ o_leverage o = nZ 3
    /\ (action sig = Buy /\ o_direction o = Long
        /\ o_stopLoss o = Fin (close c * qfrac 9985 10000)
        /\ o_takeProfit o = Fin (close c * qfrac 1001 1000)
        \/
        action sig = Sell /\ o_direction o = Short
        /\ o_stopLoss o = Fin (close c * qfrac 10015 10000)
        /\ o_takeProfit o = Fin (close c * qfrac 999 1000)).
Proof.
  unfold analyze.
  destruct (_ <=? _)%num; [intros [= <-]; discriminate|].
  destruct (len candles <? 15); [intros [= <-]; discriminate|].
  destruct (snapshot candles) as [s| |] eqn:Hs; cbn [bind]; try discriminate.
  intros [= <-] Ho.
  destruct (look_for_entry_order s _ o Ho) as (Hvol & _ & Hlev & Hprice).
  exists (currentCandle s).
  split; [exact (snapshot_current candles s Hs)|].
  split.
  { destruct (close_of (currentCandle s) >? nZ 0)%num eqn:G.
    - unfold close_of, Candle_HasClose, gtb in G. cbn [ltb] in G.
      apply q_ltb_lt in G. exact G.
    - rewrite (snapshot_volatility candles s Hs G) in Hvol. discriminate. }
  split; [exact Hprice|]. split; [exact Hlev|].
  destruct (look_for_entry_levels s _ o Ho)
    as [((r & E) & Hd & H1 & H2)|((r & E) & Hd & H1 & H2)];
    rewrite E; [left | right]; auto.
Qed.

(** X6.  Every order of the strategy is priced at the positive close of the
    current bar with leverage 3; a buy is a long with its stop 0.15%
    below and its target 0.1% above that price, a sell is a short with its
    stop 0.15% above and its target 0.1% below. *)
Theorem order_levels (candles : list Candle) (account : Account)
  (sig : Signal) (o : Order) :
  analyze candles None account = Ok sig ->
  entry_order sig = Some o ->
  exists c,
    get candles (len candles - 1) = Ok c
    /\ (qz 0 < close c)%Qc
    /\ o_price o = Fin (close c)
    /\ o_leverage o = nZ 3
    /\ (action sig = Buy /\ o_direction o = Long
        /\ o_stopLoss o = Fin (close c * qfrac 9985 10000)
        /\ o_takeProfit o = Fin (close c * qfrac 1001 1000)
        \/
        action sig = Sell /\ o_direction o = Short
        /\ o_stopLoss o = Fin (close c * qfrac 10015 10000)
        /\ o_takeProfit o = Fin (close c * qfrac 999 1000)).
Proof. exact (analyze_order_levels candles account sig o). Qed.

(** The theorem at the buy of 51 rising bars. *)
Lemma order_levels_witness :
  exists c,
    get (rising_bars 51) (len (rising_bars 51) - 1) = Ok c
    /\ (qz 0 < close c)%Qc
    /\ o_price order_at_zero_balance = Fin (close c)
    /\ o_leverage order_at_zero_balance = nZ 3
    /\ (action buy_at_zero_balance = Buy
        /\ o_direction order_at_zero_balance = Long
        /\ o_stopLoss order_at_zero_balance
           = Fin (close c * qfrac 9985 10000)
        /\ o_takeProfit order_at_zero_balance
           = Fin (close c * qfrac 1001 1000)
        \/
        action buy_at_zero_balance = Sell
        /\ o_direction order_at_zero_balance = Short
        /\ o_stopLoss order_at_zero_balance
           = Fin (close c * qfrac 10015 10000)
        /\ o_takeProfit order_at_zero_balance
           = Fin (close c * qfrac 999 1000)).
Proof.
  apply (order_levels (rising_bars 51) (createAccount (nZ 0))
           buy_at_zero_balance order_at_zero_balance);
    vm_compute; reflexivity.
Defined.

(* ===================================================================== *)
(** * Entries of the loop *)
(* ===================================================================== *)

Lemma len_slice_le {A} (l : list A) (b : Z) :
  0 <= b -> len (slice l 0 b) <= b.
Proof.
  intros Hb. unfold slice, len. simpl skipn.
  pose proof (firstn_le_length (Z.to_nat (b - 0)) l). lia.
Qed.

(** The bar that a step reads is the last bar of the view that it hands
    to the strategy. *)
Lemma step_candle_is_last {A} (l : list A) (i : Z) (c : A) :
  get (slice l 0 (i + 1)) i = Ok c ->
  len (slice l 0 (i + 1)) - 1 = i.
Proof.
  intros H. apply get_inv in H.
  pose proof (len_slice_le l (i + 1)). lia.
Qed.

Lemma truthy_positive (b : Qc) :
  (qz 0 < b)%Qc -> or_else (Fin b) (nZ 1000) = Fin b.
Proof.
  intros Hb. unfold or_else, truthy.
  destruct (q_eqb b (qz 0)) eqn:E; [|reflexivity].
  apply q_eqb_eq in E. destruct (positive_nonzero b Hb E).
Qed.

Lemma fifth_with_fee_fits (b f : Qc) :
  (qz 0 < b)%Qc -> (qz 0 <= f)%Qc -> (f <= qz 400)%Qc ->
  (b * qfrac 1 5 + b * qfrac 1 5 * (f / qz 100) <= b)%Qc.
Proof.
  intros Hb Hf0 Hf. unfold qz, qfrac in *. qc2q.
  change (/ inject_Z 100)%Q with (1 # 100)%Q.
  change (inject_Z 400) with 400%Q in Hf.
  assert (H : (0 <= b * (400 - f))%Q) by (apply Qmult_le_0_compat; lra).
  lra.
Qed.

(** X7.  An entry always fits.  With no position open, a positive balance
    and a fee between 0% and 100%, an enter signal of the strategy is
    never skipped for insufficient funds: the step opens the position at
    the bar's close, stores the balance before the entry in the position,
    and appends nothing to the ledger.  In exact arithmetic the margin it
    reserves is a fifth of the balance, and the balance left is the
    balance less that margin and the fee on it. *)
Theorem entry_reserves_a_fifth (config : Config) (priceData : list Candle)
  (i : Z) (st : SimState) (c : Candle) (b f : Qc) (sig : Signal) (o : Order) :
  get (slice priceData 0 (i + 1)) i = Ok c ->
  currentPosition st = None ->
  balance (tradingAccount st) = Fin b -> (qz 0 < b)%Qc ->
  feePercentage config = Fin f -> (qz 0 <= f)%Qc -> (f <= qz 100)%Qc ->
  analyze (slice priceData 0 (i + 1)) None (tradingAccount st) = Ok sig ->
  entry_order sig = Some o ->
  exists st' p,
    step config priceData i st = Ok (Continue st')
    /\ currentPosition st' = Some p
    /\ direction p = o_direction o
    /\ entryPrice p = Fin (close c)
    /\ margin p = Fin (b * qfrac 1 5)
    /\ entryBalance p = Fin b
    /\ balance (tradingAccount st')
       = Fin (b - (b * qfrac 1 5 + b * qfrac 1 5 * (f / qz 100)))
    /\ tradeHistory st' = tradeHistory st.
Proof.
  intros Hc Hnone Hb Hb0 Hf Hf0 Hf100 Hsig Ho.
  assert (Hf400 : (f <= qz 400)%Qc)
    by (eapply Qcle_trans; [exact Hf100 | discriminate]).
  pose proof (step_candle_is_last _ _ _ Hc) as Hlast.
  destruct (analyze_order_levels _ _ _ _ Hsig Ho)
    as (c' & Hc' & Hclose & Hprice & Hlev & _).
  rewrite Hlast, Hc in Hc'. injection Hc' as <-.
  assert (Hps : o_positionSize o = Fin (b * qfrac 1 5 / close c)).
  { unfold analyze in Hsig. rewrite Hb, (truthy_positive b Hb0) in Hsig.
    destruct (_ <=? _)%num; [injection Hsig as <-; discriminate|].
    destruct (len _ <? 15); [injection Hsig as <-; discriminate|].
    destruct (snapshot _) as [s| |] eqn:Hs; cbn [bind] in Hsig;
      try discriminate.
    injection Hsig as <-.
    destruct (look_for_entry_order s _ o Ho) as (_ & Hsize & _ & Hp).
    rewrite Hprice in Hp. rewrite <- Hp in Hsize.
    rewrite Hsize. apply position_size_capped; assumption. }
  assert (Hc0 : close c <> qz 0) by (apply positive_nonzero; exact Hclose).
  assert (Hm : required_margin c o = Fin (b * qfrac 1 5)).
  { unfold required_margin, leveraged_size. rewrite Hps, Hlev.
    unfold close_of, Candle_HasClose, nZ. cbn [mul].
    rewrite (div_finite _ (qz 3) (qz_pos_nonzero 3 eq_refl)).
    f_equal. field.
    repeat split; first [exact Hc0 | exact (qz_pos_nonzero 3 eq_refl)]. }
  assert (Hfee : entry_fees config c o
                 = Fin (b * qfrac 1 5 * (f / qz 100))).
  { unfold entry_fees. rewrite Hm, (fee_rate_finite config f Hf).
    reflexivity. }
  assert (Hfit : (required_margin c o + entry_fees config c o
                  >? balance (tradingAccount st))%num = false).
  { rewrite Hm, Hfee, Hb. unfold gtb. cbn [add ltb]. apply q_ltb_ge.
    apply fifth_with_fee_fits; assumption. }
  assert (Hbr : balance_break st = false).
  { unfold balance_break. rewrite Hnone, Hb. unfold nZ, nQ. cbn [ltb].
    destruct (q_ltb b (qz 2)) eqn:L2; [reflexivity|].
    apply q_ltb_ge in L2. apply q_ltb_ge.
    eapply Qcle_trans; [|exact L2]. discriminate. }
  unfold step. rewrite Hc. cbn [bind]. rewrite Hbr, Hnone, Hsig.
  cbn [bind].
  assert (E : apply_signal config c sig (log_call i st)
              = enter config c (reason sig) o (log_call i st)).
  { unfold apply_signal. destruct sig; try discriminate;
      injection Ho as ->; simpl; rewrite Hnone; reflexivity. }
  rewrite E. unfold enter.
  cbn [log_call tradingAccount currentPosition tradeHistory engineCalls].
  rewrite Hfit. eexists _, _. split; [reflexivity|].
  cbn [currentPosition direction entryPrice margin entryBalance
         tradingAccount set_balance balance tradeHistory].
  rewrite Hm, Hfee, Hb.
  repeat split.
Qed.

(** The theorem at the first step of the run over 51 rising bars: a
    margin of 2000 out of 10000. *)
Lemma entry_reserves_a_fifth_witness :
  exists st' p,
    step default_config (rising_bars 51) 50 (initial_state default_config)
    = Ok (Continue st')
    /\ currentPosition st' = Some p
    /\ direction p = o_direction order_at_zero_balance
    /\ entryPrice p = Fin (close (rising_bar 50))
    /\ margin p = Fin (qz 10000 * qfrac 1 5)
    /\ entryBalance p = Fin (qz 10000)
    /\ balance (tradingAccount st')
       = Fin (qz 10000
              - (qz 10000 * qfrac 1 5
                 + qz 10000 * qfrac 1 5 * (qfrac 75 1000 / qz 100)))
    /\ tradeHistory st' = tradeHistory (initial_state default_config).
Proof.
  apply (entry_reserves_a_fifth default_config (rising_bars 51) 50
           (initial_state default_config) (rising_bar 50)
           (qz 10000) (qfrac 75 1000)
           first_entry_signal first_entry_order);
    try reflexivity; try discriminate; vm_compute; reflexivity.
Defined.

(* ===================================================================== *)
(** * Statistics *)
(* ===================================================================== *)

Lemma win_lose_disjoint (x : num) :
  (x >? nZ 0)%num && (x <=? nZ 0)%num = false.
Proof.
  unfold gtb, nZ. destruct x as [q| | |]; cbn [ltb leb]; try reflexivity.
  destruct (q_ltb (qz 0) q) eqn:L; [|reflexivity].
  apply q_ltb_lt in L. simpl. apply q_leb_gt. exact L.
Qed.

Lemma filter_disjoint_length {A} (f g : A -> bool) (l : list A) :
  (forall x, f x && g x = false) ->
  (List.length (filter f l) + List.length (filter g l) <= List.length l)%nat.
Proof.
  intros H. induction l as [|x l IH]; simpl; [lia|].
  specialize (H x). destruct (f x), (g x); simpl in *; try discriminate; lia.
Qed.

Lemma ratio_percent (w n : Z) :
  0 <= w <= n -> 0 < n ->
  (qz 0 <= qz w / qz n * qz 100)%Qc /\ (qz w / qz n * qz 100 <= qz 100)%Qc.
Proof.
  intros Hw Hn.
  assert (Hd : (qz w / qz n * qz n = qz w)%Qc).
  { field. apply qz_pos_nonzero. exact Hn. }
  revert Hd. generalize (qz w / qz n)%Qc. intros d Hd.
  assert (Hq : (this d * inject_Z n == inject_Z w)%Q).
  { transitivity (this (d * qz n)%Qc).
    - unfold Qcmult, qz. cbn [this Q2Qc]. rewrite !Qred_correct. reflexivity.
    - rewrite Hd. unfold qz. cbn [this Q2Qc]. apply Qred_correct. }
  clear Hd.
  assert (HW0 : (0 <= inject_Z w)%Q)
    by (change 0%Q with (inject_Z 0); rewrite <- Zle_Qle; lia).
  assert (HWN : (inject_Z w <= inject_Z n)%Q) by (rewrite <- Zle_Qle; lia).
  assert (HN : (0 < inject_Z n)%Q)
    by (change 0%Q with (inject_Z 0); rewrite <- Zlt_Qlt; lia).
  revert Hq HW0 HWN HN. generalize (inject_Z w) (inject_Z n). intros W N.
  intros Hq HW0 HWN HN.
  unfold qz. destruct d as [d Hcanon].
  unfold Qcle, Qcmult. cbn [this Q2Qc] in *.
  rewrite !Qred_correct.
  change (inject_Z 0) with 0%Q. change (inject_Z 100) with 100%Q.
  assert (Hd0 : (0 <= d)%Q).
  { destruct (Qlt_le_dec d 0) as [G|G]; [|exact G].
    assert (G' : (0 < - d)%Q) by lra.
    pose proof (Qmult_lt_0_compat _ _ G' HN). lra. }
  assert (Hd1 : (d <= 1)%Q).
  { destruct (Qlt_le_dec 1 d) as [G|G]; [|exact G].
    assert (G' : (0 < d - 1)%Q) by lra.
    pose proof (Qmult_lt_0_compat _ _ G' HN). lra. }
  split; lra.
Qed.

(** X9.  The counts of the statistics: [totalTrades] is the length of the
    ledger (halt record included), winners and losers are disjoint, so
    together they are at most [totalTrades], and the win rate is a
    percentage between 0 and 100. *)
Theorem stats_counts (config : Config) (st : SimState) :
  totalTrades (compute_stats config st) = len (tradeHistory st)
  /\ 0 <= winningTrades (compute_stats config st)
  /\ 0 <= losingTrades (compute_stats config st)
  /\ winningTrades (compute_stats config st)
     + losingTrades (compute_stats config st)
     <= totalTrades (compute_stats config st)
  /\ exists w, winRate (compute_stats config st) = Fin w
               /\ (qz 0 <= w)%Qc /\ (w <= qz 100)%Qc.
Proof.
  unfold compute_stats. cbn [totalTrades winningTrades losingTrades winRate].
  set (h := tradeHistory st).
  set (fw := fun e : LedgerEntry => (to_number (entry_profit e) >? nZ 0)%num).
  set (fl := fun e : LedgerEntry => (to_number (entry_profit e) <=? nZ 0)%num).
  pose proof (filter_disjoint_length fw fl h
                (fun e => win_lose_disjoint (to_number (entry_profit e))))
    as Hsum.
  pose proof (len_nonneg (filter fw h)) as Hw0.
  pose proof (len_nonneg (filter fl h)) as Hl0.
  split; [reflexivity|]. split; [exact Hw0|]. split; [exact Hl0|].
  split; [unfold len in *; lia|].
  destruct (len h >? 0) eqn:G.
  - apply Z.gtb_lt in G.
    assert (Hwn : 0 <= len (filter fw h) <= len h)
      by (unfold len in *; lia).
    destruct (ratio_percent _ _ Hwn G) as (R0 & R1).
    unfold ofZ, nZ. rewrite (div_finite _ _ (qz_pos_nonzero _ G)).
    cbn [mul]. eexists. split; [reflexivity|]. split; assumption.
  - exists (qz 0). repeat split; discriminate.
Qed.

Lemma add_fin_inv (x y : num) (q : Qc) :
  (x + y)%num = Fin q -> exists a b, x = Fin a /\ y = Fin b.
Proof.
  destruct x, y; simpl; try discriminate. eauto.
Qed.

(** A finite sum of profits has finite terms. *)
Lemma trade_profits_finite (l : list LedgerEntry) :
  forall P, trade_profits l = Fin P ->
            forall t, In t (closed_trades l) -> exists q, profit t = Fin q.
Proof.
  induction l as [|x l IH] using rev_ind; intros P HP t Ht; [destruct Ht|].
  unfold closed_trades in Ht. rewrite flat_map_app in Ht.
  apply in_app_or in Ht. destruct x as [t'|ts r b].
  - rewrite trade_profits_closed in HP.
    destruct (add_fin_inv _ _ _ HP) as (a & q & Ha & Hq).
    destruct Ht as [Ht|Ht]; [exact (IH a Ha t Ht)|].
    simpl in Ht. destruct Ht as [<-|[]]. eauto.
  - rewrite trade_profits_halt in HP.
    destruct Ht as [Ht|Ht]; [exact (IH P HP t Ht) | destruct Ht].
Qed.

Lemma win_or_lose (q : Qc) :
  (Fin q >? nZ 0)%num = negb (Fin q <=? nZ 0)%num.
Proof.
  unfold gtb, nZ. cbn [ltb leb].
  destruct (q_ltb (qz 0) q) eqn:L.
  - apply q_ltb_lt in L. symmetry. apply negb_true_iff. apply q_leb_gt.
    exact L.
  - apply q_ltb_ge in L. symmetry. apply negb_false_iff. apply q_leb_le.
    exact L.
Qed.

Lemma finite_profits_partition (l : list LedgerEntry) :
  (forall t, In t (closed_trades l) -> exists q, profit t = Fin q) ->
  len (filter (fun e => (to_number (entry_profit e) >? nZ 0)%num) l)
  + len (filter (fun e => (to_number (entry_profit e) <=? nZ 0)%num) l)
  = len (closed_trades l)
  /\ len l = len (closed_trades l) + halt_count l.
Proof.
  unfold halt_count.
  induction l as [|x l IH]; intros Hfin; [split; reflexivity|].
  assert (Hfin' : forall t, In t (closed_trades l) ->
                            exists q, profit t = Fin q).
  { intros t Ht. apply Hfin. unfold closed_trades. simpl.
    apply in_or_app. right. exact Ht. }
  destruct (IH Hfin') as (IH1 & IH2). clear IH.
  destruct x as [t|ts r b].
  - destruct (Hfin t) as (q & Hq); [left; reflexivity|].
    cbn [filter entry_profit to_number closed_trades flat_map app].
    rewrite Hq, win_or_lose.
    fold (closed_trades l).
    destruct (Fin q <=? nZ 0)%num; cbn [negb]; unfold len in *;
      cbn [List.length] in *; lia.
  - cbn [filter entry_profit to_number closed_trades flat_map app].
    fold (closed_trades l).
    change (NaN >? nZ 0)%num with false.
    change (NaN <=? nZ 0)%num with false.
    unfold len in *; cbn [List.length] in *; lia.
Qed.

Lemma closed_trades_app (l1 l2 : list LedgerEntry) :
  closed_trades (l1 ++ l2) = closed_trades l1 ++ closed_trades l2.
Proof. unfold closed_trades. apply flat_map_app. Qed.

Lemma halt_count_shape (trades : list Trade) (halt : list LedgerEntry) :
  (halt = [] \/ exists ts r b, halt = [HaltEntry ts r b]) ->
  halt_count (map ClosedTrade trades ++ halt) <= 1.
Proof.
  intros Hh. unfold halt_count. rewrite filter_app, len_app.
  assert (E : filter (fun e => match e with
                               | ClosedTrade _ => false
                               | HaltEntry _ _ _ => true
                               end) (map ClosedTrade trades) = []).
  { induction trades as [|t l IH]; [reflexivity | exact IH]. }
  rewrite E. destruct Hh as [->|(ts & r & b & ->)]; simpl; unfold len;
    simpl; lia.
Qed.

(** X10.  The statistics of a run (finite initial balance and fee): every
    closed trade is counted once, as a winner or as a loser, and
    [totalTrades] exceeds the number of closed trades by the halt record
    when the run ended in bankruptcy, and by nothing otherwise. *)
Theorem run_stats_counts (config : Config) (priceData : list Candle)
  (b0 fee : Qc) (stats : Stats) (ledger : list LedgerEntry) :
  initialBalance config = Fin b0 ->
  feePercentage config = Fin fee ->
  run config priceData = Ok (stats, ledger) ->
  winningTrades stats + losingTrades stats = len (closed_trades ledger)
  /\ totalTrades stats = len (closed_trades ledger) + halt_count ledger
  /\ 0 <= halt_count ledger <= 1.
Proof.
  intros Hb0 Hfee. unfold run.
  destruct (len priceData =? 0); [discriminate|].
  destruct (sim_loop _ _ _ _ _) as [st| |] eqn:Hloop; cbn [bind];
    try discriminate.
  intros [= <- <-].
  assert (Hacc : accounted config b0 fee st).
  { eapply sim_loop_accounted; [exact Hfee | | exact Hloop].
    apply initial_accounted. exact Hb0. }
  destruct Hacc as (b & P & F & _ & HP & _).
  pose proof (trade_profits_finite _ P HP) as Hfin.
  destruct (finite_profits_partition _ Hfin) as (H1 & H2).
  destruct (sim_loop_ledger _ _ _ _ _ _ Hloop)
    as (trades & halt & Hh & _ & Hhalt).
  simpl in Hh.
  unfold compute_stats. cbn [totalTrades winningTrades losingTrades].
  split; [exact H1|]. split; [exact H2|].
  split; [unfold halt_count; apply len_nonneg|].
  rewrite Hh. apply halt_count_shape. exact Hhalt.
Qed.

(** The theorem at the run into bankruptcy: one closed trade, a loser,
    and the halt record. *)
Lemma run_stats_counts_witness :
  winningTrades crash_run_stats + losingTrades crash_run_stats
  = len (closed_trades (tradeHistory crash_run_state))
  /\ totalTrades crash_run_stats
     = len (closed_trades (tradeHistory crash_run_state))
       + halt_count (tradeHistory crash_run_state)
  /\ 0 <= halt_count (tradeHistory crash_run_state) <= 1.
Proof.
  apply (run_stats_counts default_config crash_bars (qz 10000)
           (qfrac 75 1000) crash_run_stats (tradeHistory crash_run_state)
           eq_refl eq_refl).
  vm_compute. reflexivity.
Defined.

(* ===================================================================== *)
(** * Ranges of the indicators *)
(* ===================================================================== *)

(** Use the loop rule with invariant [P] on the first loop of the goal. *)
Ltac use_loop P :=
  match goal with
  | |- context [for_range ?a ?b ?body ?s] =>
      let x := fresh "x" in
      let Hx := fresh "Hloop" in
      let HP := fresh "Hinv" in
      destruct (@for_range_inv _ P body a b s) as (x & Hx & HP);
      [ | | | rewrite Hx; cbn [bind] ]
  end.

(** The quotient [x / e] as a rational [d] with [d * e == x]. *)
Lemma this_div_mul (x e : Qc) :
  e <> qz 0 -> (this (x / e)%Qc * this e == this x)%Q.
Proof.
  intros He.
  assert (Hd : (x / e * e = x)%Qc) by (field; exact He).
  transitivity (this (x / e * e)%Qc).
  - unfold Qcmult. cbn [this Q2Qc]. rewrite Qred_correct. reflexivity.
  - rewrite Hd. reflexivity.
Qed.

Lemma qz_le (a b : Z) : a <= b -> (qz a <= qz b)%Qc.
Proof.
  intros H. unfold qz, Qcle. cbn [this Q2Qc]. rewrite !Qred_correct.
  rewrite <- Zle_Qle. exact H.
Qed.

Lemma qz_lt (a b : Z) : a < b -> (qz a < qz b)%Qc.
Proof.
  intros H. unfold qz, Qclt. cbn [this Q2Qc]. rewrite !Qred_correct.
  rewrite <- Zlt_Qlt. exact H.
Qed.

(** A quotient of a non-negative by a positive rational. *)
Lemma qc_div_nonneg (a p : Qc) :
  (qz 0 <= a)%Qc -> (qz 0 < p)%Qc -> (qz 0 <= a / p)%Qc.
Proof.
  intros Ha Hp. unfold qz in *. qc2q.
  apply Qmult_le_0_compat; [assumption|].
  apply Qlt_le_weak, Qinv_lt_0_compat. assumption.
Qed.

(** A quotient between two bounds. *)
Lemma qc_div_within (s p lo hi : Qc) :
  (qz 0 < p)%Qc -> (p * lo <= s)%Qc -> (s <= p * hi)%Qc ->
  (lo <= s / p)%Qc /\ (s / p <= hi)%Qc.
Proof.
  intros Hp Hlo Hhi.
  pose proof (this_div_mul s p (positive_nonzero p Hp)) as Hd.
  revert Hd. generalize (s / p)%Qc. intros d Hd.
  unfold qz in *. qc2q.
  split.
  - destruct (Qlt_le_dec d lo) as [G|G]; [|exact G].
    assert (G' : (0 < lo - d)%Q) by lra.
    pose proof (Qmult_lt_0_compat _ _ G' Hp). lra.
  - destruct (Qlt_le_dec hi d) as [G|G]; [|exact G].
    assert (G' : (0 < d - hi)%Q) by lra.
    pose proof (Qmult_lt_0_compat _ _ G' Hp). lra.
Qed.

(** The smoothing factor [2 / (period + 1)] is in (0, 1]. *)
Lemma multiplier_bounds (period : Z) :
  0 < period ->
  (qz 0 < qz 2 / qz (period + 1))%Qc /\ (qz 2 / qz (period + 1) <= qz 1)%Qc.
Proof.
  intros Hp.
  assert (Hp1 : (qz 2 <= qz (period + 1))%Qc) by (apply qz_le; lia).
  assert (Hp0 : (qz 0 < qz (period + 1))%Qc) by (apply qz_lt; lia).
  split.
  - apply qc_div_pos; [reflexivity | exact Hp0].
  - apply (qc_div_within (qz 2) (qz (period + 1)) (qz 0) (qz 1) Hp0).
    + assert (E : (qz (period + 1) * qz 0 = qz 0)%Qc)
        by (change (qz 0) with 0%Qc; ring).
      rewrite E. discriminate.
    + assert (E : (qz (period + 1) * qz 1 = qz (period + 1))%Qc)
        by (change (qz 1) with 1%Qc; ring).
      rewrite E. exact Hp1.
Qed.

(** One step of the EMA stays between the bounds of its two inputs. *)
Lemma ema_step_within (c e m lo hi : Qc) :
  (qz 0 < m)%Qc -> (m <= qz 1)%Qc ->
  (lo <= c)%Qc -> (c <= hi)%Qc -> (lo <= e)%Qc -> (e <= hi)%Qc ->
  (lo <= (c - e) * m + e)%Qc /\ ((c - e) * m + e <= hi)%Qc.
Proof.
  intros Hm0 Hm1 Hc1 Hc2 He1 He2. unfold qz in *. qc2q.
  change (inject_Z 1) with 1%Q in *.
  assert (H1 : (0 <= m * (c - lo))%Q) by (apply Qmult_le_0_compat; lra).
  assert (H2 : (0 <= (1 - m) * (e - lo))%Q)
    by (apply Qmult_le_0_compat; lra).
  assert (H3 : (0 <= m * (hi - c))%Q) by (apply Qmult_le_0_compat; lra).
  assert (H4 : (0 <= (1 - m) * (hi - e))%Q)
    by (apply Qmult_le_0_compat; lra).
  split; lra.
Qed.

Lemma sum_step_within (k : Z) (acc c lo hi : Qc) :
  (qz k * lo <= acc)%Qc -> (acc <= qz k * hi)%Qc ->
  (lo <= c)%Qc -> (c <= hi)%Qc ->
  (qz (k + 1) * lo <= acc + c)%Qc /\ (acc + c <= qz (k + 1) * hi)%Qc.
Proof.
  intros H1 H2 H3 H4. rewrite qz_add.
  revert H1 H2. generalize (qz k). intros K H1 H2.
  unfold qz in *. qc2q. change (inject_Z 1) with 1%Q. split; lra.
Qed.

Section AverageRange.

Context {A : Type} `{HasClose A}.
Variables (f : A -> Qc) (lo hi : Qc) (l : list A).
Hypothesis closes_finite : closes_are f l.
Hypothesis closes_bounded :
  forall a, In a l -> (lo <= f a)%Qc /\ (f a <= hi)%Qc.

Lemma sum_closes_within (a b : Z) :
  0 <= a <= b -> b <= len l ->
  exists s, sum_closes l a b = Ok (Fin s)
            /\ (qz (b - a) * lo <= s)%Qc /\ (s <= qz (b - a) * hi)%Qc.
Proof.
  intros Hab Hb. unfold sum_closes.
  destruct (@for_range_inv _
              (fun i acc => exists s, acc = Fin s
                                      /\ (qz (i - a) * lo <= s)%Qc
                                      /\ (s <= qz (i - a) * hi)%Qc)
              (fun i sum => c <- get l i ;; Ok (sum + close_of c)%num)
              a b (nZ 0)) as (acc & Hacc & s & -> & Hs).
  - lia.
  - exists (qz 0). rewrite Z.sub_diag. split; [reflexivity|].
    assert (E : forall x, (qz 0 * x = qz 0)%Qc)
      by (intros x; change (qz 0) with 0%Qc; ring).
    rewrite !E. split; discriminate.
  - intros j t Hj (s & -> & Hs1 & Hs2).
    destruct (get_ok l j) as (c & Hc); [lia|].
    rewrite Hc. cbn [bind].
    pose proof (get_in _ _ _ Hc) as Hin.
    rewrite (closes_finite c Hin).
    destruct (closes_bounded c Hin) as (Hc1 & Hc2).
    eexists. split; [reflexivity|]. cbn [add]. eexists. split; [reflexivity|].
    replace (j + 1 - a) with ((j - a) + 1) by lia.
    apply sum_step_within; assumption.
  - eauto.
Qed.

Lemma calculateSMA_within (period : Z) :
  l <> [] -> 0 < period -> exists q, calculateSMA l period = Ok (Fin q)
                                     /\ (lo <= q)%Qc /\ (q <= hi)%Qc.
Proof.
  intros Hne Hp. unfold calculateSMA.
  assert (Hlen : 0 < len l).
  { pose proof (len_nonneg l). destruct (Z.eq_dec (len l) 0) as [E|E];
      [apply len_nil_iff in E; contradiction | lia]. }
  destruct (len l <? period) eqn:G.
  - destruct (get_ok l (len l - 1)) as (c & Hc); [lia|].
    rewrite Hc. cbn [bind].
    pose proof (get_in _ _ _ Hc) as Hin.
    rewrite (closes_finite c Hin). eexists. split; [reflexivity|].
    apply closes_bounded. exact Hin.
  - apply Z.ltb_ge in G.
    destruct (sum_closes_within (len l - period) (len l))
      as (s & Hs & Hs1 & Hs2); [lia | lia |].
    rewrite Hs. cbn [bind]. rewrite div_by_positive by lia.
    replace (len l - (len l - period)) with period in Hs1, Hs2 by lia.
    eexists. split; [reflexivity|].
    apply qc_div_within; [apply (qz_lt 0); lia | assumption..].
Qed.

Lemma calculateEMA_within (period : Z) :
  l <> [] -> 0 < period -> exists q, calculateEMA l period = Ok (Fin q)
                                     /\ (lo <= q)%Qc /\ (q <= hi)%Qc.
Proof.
  intros Hne Hp. unfold calculateEMA.
  assert (Hlen : 0 < len l).
  { pose proof (len_nonneg l). destruct (Z.eq_dec (len l) 0) as [E|E];
      [apply len_nil_iff in E; contradiction | lia]. }
  destruct (len l <? period) eqn:G.
  - destruct (get_ok l (len l - 1)) as (c & Hc); [lia|].
    rewrite Hc. cbn [bind].
    pose proof (get_in _ _ _ Hc) as Hin.
    rewrite (closes_finite c Hin). eexists. split; [reflexivity|].
    apply closes_bounded. exact Hin.
  - apply Z.ltb_ge in G.
    destruct (sum_closes_within (len l - period) (len l))
      as (s & Hs & Hs1 & Hs2); [lia | lia |].
    rewrite Hs. cbn [bind].
    rewrite (div_by_positive s period) by lia.
    change (nZ 2) with (Fin (qz 2)).
    rewrite (div_by_positive (qz 2) (period + 1)) by lia.
    replace (len l - (len l - period)) with period in Hs1, Hs2 by lia.
    destruct (multiplier_bounds period Hp) as (Hm0 & Hm1).
    destruct (qc_div_within s (qz period) lo hi) as (Hq1 & Hq2);
      [apply (qz_lt 0); lia | assumption | assumption |].
    destruct (@for_range_inv _
                (fun _ ema => exists q, ema = Fin q
                                        /\ (lo <= q)%Qc /\ (q <= hi)%Qc)
                (fun i ema =>
                   c <- get l i ;;
                   Ok ((close_of c - ema)
                       * Fin (qz 2 / qz (period + 1)) + ema)%num)
                (len l - period + 1) (len l) (Fin (s / qz period)))
      as (ema & Hema & q & -> & Hq).
    + lia.
    + eauto.
    + intros j t Hj (q & -> & Hq3 & Hq4).
      destruct (get_ok l j) as (c & Hc); [lia|].
      rewrite Hc. cbn [bind].
      pose proof (get_in _ _ _ Hc) as Hin.
      rewrite (closes_finite c Hin).
      destruct (closes_bounded c Hin) as (Hc1 & Hc2).
      eexists. split; [reflexivity|]. cbn [sub add neg mul].
      eexists. split; [reflexivity|].
      change (f c + - q)%Qc with (f c - q)%Qc.
      apply ema_step_within; assumption.
    + eauto.
Qed.

End AverageRange.

(** X11.  In exact arithmetic the moving averages stay within the range
    of the closes: on a non-empty series whose closes all lie between
    [lo] and [hi], and for a positive period, SMA and EMA return (without
    throwing) a finite value that, computed exactly, lies between [lo]
    and [hi]; the program's binary64 result can leave that range by a
    rounding error. *)
Theorem moving_averages_within (candles : list Candle) (period : Z)
  (lo hi : Qc) :
  candles <> [] -> 0 < period ->
  (forall c, In c candles -> (lo <= close c)%Qc /\ (close c <= hi)%Qc) ->
  within lo hi (match calculateSMA candles period with
                | Ok x => x | _ => NaN end)
  /\ within lo hi (match calculateEMA candles period with
                   | Ok x => x | _ => NaN end).
Proof.
  intros Hne Hp Hb.
  destruct (calculateSMA_within close lo hi candles (candle_closes _) Hb
              period Hne Hp) as (q & -> & Hq).
  destruct (calculateEMA_within close lo hi candles (candle_closes _) Hb
              period Hne Hp) as (r & -> & Hr).
  split; eexists; (split; [reflexivity | assumption]).
Qed.

(** The theorem at twenty rising bars, closes 100 to 119, period 5. *)
Lemma moving_averages_within_witness :
  within (qz 100) (qz 119)
    (match calculateSMA (rising_bars 20) 5 with Ok x => x | _ => NaN end)
  /\ within (qz 100) (qz 119)
       (match calculateEMA (rising_bars 20) 5 with Ok x => x | _ => NaN end).
Proof.
  apply moving_averages_within; [discriminate | reflexivity |].
  intros c Hc. apply in_map_iff in Hc. destruct Hc as (i & <- & Hi).
  apply in_seq in Hi. unfold rising_bar. cbn [close].
  split; apply qz_le; lia.
Defined.

(** [candles[i].close - candles[i - 1].close] is a finite number for
    every bar after the first. *)
Lemma close_change_ok (candles : list Candle) (i : Z) :
  1 <= i < len candles ->
  exists ch, close_change candles i = Ok (Fin ch).
Proof.
  intros Hi. unfold close_change.
  destruct (get_ok candles i) as (c & Hc); [lia|].
  destruct (get_ok candles (i - 1)) as (p & Hp); [lia|].
  rewrite Hc, Hp. cbn [bind]. eexists. reflexivity.
Qed.

Lemma qc_add_nonneg (a b : Qc) :
  (qz 0 <= a)%Qc -> (qz 0 <= b)%Qc -> (qz 0 <= a + b)%Qc.
Proof. intros Ha Hb. unfold qz in *. qc2q. lra. Qed.

Lemma qc_sub_neg_nonneg (a b : Qc) :
  (qz 0 <= a)%Qc -> (b < qz 0)%Qc -> (qz 0 <= a + - b)%Qc.
Proof. intros Ha Hb. unfold qz in *. qc2q. lra. Qed.

Lemma qc_mul_nonneg (a b : Qc) :
  (qz 0 <= a)%Qc -> (qz 0 <= b)%Qc -> (qz 0 <= a * b)%Qc.
Proof.
  intros Ha Hb. unfold qz in *. qc2q. apply Qmult_le_0_compat; assumption.
Qed.

Lemma qc_neg_nonneg (b : Qc) : (b < qz 0)%Qc -> (qz 0 <= - b)%Qc.
Proof. intros Hb. unfold qz in *. qc2q. lra. Qed.

(** [100 - 100 / (1 + a / b)] lies in [0, 100]. *)
Lemma rsi_formula_range (a b : Qc) :
  (qz 0 <= a)%Qc -> (qz 0 < b)%Qc ->
  (nZ 100 - nZ 100 / (nZ 1 + Fin a / Fin b))%num
  = Fin (qz 100 - qz 100 / (qz 1 + a / b))
  /\ (qz 0 <= qz 100 - qz 100 / (qz 1 + a / b))%Qc
  /\ (qz 100 - qz 100 / (qz 1 + a / b) <= qz 100)%Qc.
Proof.
  intros Ha Hb.
  pose proof (qc_div_nonneg a b Ha Hb) as Hr.
  assert (H1 : (qz 0 < qz 1 + a / b)%Qc).
  { revert Hr. generalize (a / b)%Qc. intros r Hr.
    unfold qz in *. qc2q. change (inject_Z 1) with 1%Q. lra. }
  split.
  - rewrite (div_finite a b (positive_nonzero b Hb)).
    unfold nZ. cbn [add].
    rewrite (div_finite _ _ (positive_nonzero _ H1)). reflexivity.
  - pose proof (this_div_mul (qz 100) _ (positive_nonzero _ H1)) as Hd.
    pose proof (qc_div_pos (qz 100) _ eq_refl H1) as Hd0.
    revert Hd Hd0 H1 Hr.
    generalize (qz 100 / (qz 1 + a / b))%Qc. generalize (a / b)%Qc.
    intros r d Hd Hd0 H1 Hr.
    unfold qz in *. qc2q.
    change (inject_Z 1) with 1%Q in *. change (inject_Z 100) with 100%Q in *.
    assert (Hdr : (0 <= d * r)%Q)
      by (apply Qmult_le_0_compat; [apply Qlt_le_weak|]; assumption).
    split; lra.
Qed.

Lemma calculateRSI_ok (candles : list Candle) (period : Z) :
  0 < period ->
  exists q, calculateRSI candles period = Ok (Fin q)
            /\ (qz 0 <= q)%Qc /\ (q <= qz 100)%Qc.
Proof.
  intros Hp. unfold calculateRSI.
  destruct (len candles <? period + 1) eqn:G.
  - exists (qz 50). split; [reflexivity|]. split; discriminate.
  - apply Z.ltb_ge in G.
    use_loop (fun (_ : Z) (gl : num * num) => nonneg_pair gl).
    + lia.
    + exists (qz 0), (qz 0). repeat split; discriminate.
    + intros j [g l] Hj (a & b & [= -> ->] & Ha & Hb).
      destruct (close_change_ok candles j) as (ch & ->); [lia|].
      cbn [bind]. unfold geb, nZ. cbn [leb].
      destruct (q_leb (qz 0) ch) eqn:E.
      * apply q_leb_le in E. eexists. split; [reflexivity|].
        exists (a + ch)%Qc, b. repeat split; auto using qc_add_nonneg.
      * apply q_leb_gt in E. eexists. split; [reflexivity|].
        exists a, (b + - ch)%Qc.
        repeat split; auto using qc_sub_neg_nonneg.
    + destruct x as [g l]. destruct Hinv as (a & b & [= -> ->] & Ha & Hb).
      rewrite !div_by_positive by lia.
      assert (Hq : (qz 0 < qz period)%Qc) by (apply qz_lt; lia).
      assert (Hq1 : (qz 0 <= qz (period - 1))%Qc) by (apply qz_le; lia).
      use_loop (fun (_ : Z) (gl : num * num) => nonneg_pair gl).
      * lia.
      * exists (a / qz period)%Qc, (b / qz period)%Qc.
        repeat split; auto using qc_div_nonneg.
      * intros j [g l] Hj (a' & b' & [= -> ->] & Ha' & Hb').
        destruct (close_change_ok candles j) as (ch & ->); [lia|].
        cbn [bind]. unfold geb, ofZ, nZ. cbn [leb mul add neg].
        destruct (q_leb (qz 0) ch) eqn:E.
        -- apply q_leb_le in E. cbn [add].
           rewrite !(div_finite _ _ (positive_nonzero _ Hq)).
           eexists. split; [reflexivity|].
           eexists _, _. split; [reflexivity|].
           split; apply qc_div_nonneg; try exact Hq;
             apply qc_add_nonneg;
             auto using qc_mul_nonneg; discriminate.
        -- apply q_leb_gt in E. cbn [add].
           rewrite !(div_finite _ _ (positive_nonzero _ Hq)).
           eexists. split; [reflexivity|].
           eexists _, _. split; [reflexivity|].
           split; apply qc_div_nonneg; try exact Hq;
             apply qc_add_nonneg;
             auto using qc_mul_nonneg, qc_neg_nonneg; discriminate.
      * destruct x as [g l].
        destruct Hinv as (a' & b' & [= -> ->] & Ha' & Hb').
        unfold nZ at 1. cbn [eqb].
        destruct (q_eqb b' (qz 0)) eqn:E.
        -- exists (qz 100). split; [reflexivity|]. split; discriminate.
        -- assert (Hb0 : (qz 0 < b')%Qc).
           { destruct (Qc_dec (qz 0) b') as [[L|L]|L]; [exact L| |].
             - destruct (Qclt_not_le _ _ L Hb').
             - symmetry in L. apply q_eqb_eq in L. congruence. }
           destruct (rsi_formula_range a' b' Ha' Hb0) as (-> & Hr).
           eexists. split; [reflexivity | exact Hr].
Qed.

(** X12.  RSI is a number between 0 and 100: for a positive period the
    function returns, without throwing, a finite value in [0, 100] on
    every series of bars. *)
Theorem rsi_between_0_and_100 (candles : list Candle) (period : Z) :
  0 < period ->
  within (qz 0) (qz 100)
    (match calculateRSI candles period with Ok x => x | _ => NaN end).
Proof.
  intros Hp. destruct (calculateRSI_ok candles period Hp) as (q & -> & Hq).
  exists q. split; [reflexivity | exact Hq].
Qed.

(** The theorem at twenty rising bars, period 14. *)
Lemma rsi_between_0_and_100_witness :
  within (qz 0) (qz 100)
    (match calculateRSI (rising_bars 20) 14 with Ok x => x | _ => NaN end).
Proof. apply rsi_between_0_and_100. reflexivity. Defined.

Lemma abs_nonneg (x : Qc) : nonneg (abs (Fin x)).
Proof.
  cbn [abs]. destruct (q_ltb x (qz 0)) eqn:E.
  - apply q_ltb_lt in E. eexists. split; [reflexivity|].
    apply qc_neg_nonneg. exact E.
  - apply q_ltb_ge in E. eexists. split; [reflexivity | exact E].
Qed.

(** [Math.max] of a finite number and a non-negative one. *)
Lemma max_nonneg_r (x : Qc) (y : num) : nonneg y -> nonneg (max (Fin x) y).
Proof.
  intros (b & -> & Hb). cbn [max ltb].
  destruct (q_ltb x b) eqn:E.
  - eexists. split; [reflexivity | exact Hb].
  - apply q_ltb_ge in E. eexists. split; [reflexivity|].
    eapply Qcle_trans; eassumption.
Qed.

Lemma max_finite (x y : Qc) : exists m, max (Fin x) (Fin y) = Fin m.
Proof. cbn [max ltb]. destruct (q_ltb x y); eauto. Qed.

(** The true range of a bar after the first is finite and not negative,
    whatever the bar's high and low are. *)
Lemma true_range_nonneg (candles : list Candle) (i : Z) :
  1 <= i < len candles ->
  exists tr, true_range candles i = Ok tr /\ nonneg tr.
Proof.
  intros Hi. unfold true_range.
  destruct (get_ok candles i) as (c & Hc); [lia|].
  destruct (get_ok candles (i - 1)) as (p & Hp); [lia|].
  rewrite Hc, Hp. cbn [bind]. eexists. split; [reflexivity|].
  unfold max3, high_of, low_of, close_of, Candle_HasClose. cbn [sub neg add].
  destruct (abs_nonneg (high c + - close p)) as (t2 & E2 & H2).
  rewrite E2.
  destruct (max_finite (high c + - low c) t2) as (m & ->).
  apply max_nonneg_r. apply abs_nonneg.
Qed.

Lemma item_num_in (xs : list num) (i : Z) :
  0 <= i < len xs -> In (item_num xs i) xs.
Proof.
  intros Hi. unfold item_num, item.
  destruct (i <? 0) eqn:E; [apply Z.ltb_lt in E; lia|].
  destruct (nth_error xs (Z.to_nat i)) eqn:N.
  - eapply nth_error_In; eassumption.
  - apply nth_error_None in N. unfold len in Hi. lia.
Qed.

(** The list of true ranges has one entry for every bar after the first,
    each finite and not negative. *)
Lemma true_ranges_nonneg (candles : list Candle) :
  candles <> [] ->
  exists trs, true_ranges candles = Ok trs
              /\ len trs = len candles - 1
              /\ Forall nonneg trs.
Proof.
  intros Hne. unfold true_ranges.
  assert (Hlen : 1 <= len candles).
  { pose proof (len_nonneg candles).
    destruct (Z.eq_dec (len candles) 0) as [E|E];
      [apply len_nil_iff in E; contradiction | lia]. }
  use_loop (fun (i : Z) (trs : list num) =>
              len trs = i - 1 /\ Forall nonneg trs).
  - exact Hlen.
  - split; [reflexivity | constructor].
  - intros j trs Hj (Hl & Hall).
    destruct (true_range_nonneg candles j Hj) as (tr & -> & Htr).
    cbn [bind]. eexists. split; [reflexivity|]. split.
    + rewrite len_app, Hl. change (len [tr]) with 1. lia.
    + apply Forall_app. split; [exact Hall|].
      constructor; [exact Htr | constructor].
  - exists x. split; [reflexivity | exact Hinv].
Qed.

Lemma calculateATR_ok (candles : list Candle) (period : Z) :
  0 < period ->
  exists q, calculateATR candles period = Ok (Fin q) /\ (qz 0 <= q)%Qc.
Proof.
  intros Hp. unfold calculateATR.
  destruct (len candles <? period + 1) eqn:G.
  - exists (qz 0). split; [reflexivity | discriminate].
  - apply Z.ltb_ge in G.
    destruct (true_ranges_nonneg candles) as (trs & -> & Hl & Hall).
    { intros ->. change (len (@nil Candle)) with 0 in G. lia. }
    cbn [bind].
    assert (Hitem : forall i, 0 <= i < len trs -> nonneg (item_num trs i)).
    { intros i Hi. rewrite Forall_forall in Hall.
      apply Hall, item_num_in, Hi. }
    assert (Hq : (qz 0 < qz period)%Qc) by (apply qz_lt; lia).
    assert (Hq1 : (qz 0 <= qz (period - 1))%Qc) by (apply qz_le; lia).
    use_loop (fun (_ : Z) (atr : num) => nonneg atr).
    + lia.
    + exists (qz 0). split; [reflexivity | discriminate].
    + intros j t Hj (a & -> & Ha).
      destruct (Hitem j) as (b & -> & Hb); [lia|].
      eexists. split; [reflexivity|]. cbn [add].
      eexists. split; [reflexivity|]. apply qc_add_nonneg; assumption.
    + destruct Hinv as (a0 & -> & Ha0).
      rewrite div_by_positive by lia.
      use_loop (fun (_ : Z) (atr : num) => nonneg atr).
      * lia.
      * eexists. split; [reflexivity|]. apply qc_div_nonneg; assumption.
      * intros j t Hj (a & -> & Ha).
        destruct (Hitem j) as (b & -> & Hb); [lia|].
        eexists. split; [reflexivity|]. unfold ofZ, nZ. cbn [mul add].
        rewrite (div_finite _ _ (positive_nonzero _ Hq)).
        eexists. split; [reflexivity|].
        apply qc_div_nonneg; [|exact Hq].
        apply qc_add_nonneg; [apply qc_mul_nonneg|]; assumption.
      * destruct Hinv as (q & -> & Hq0). eauto.
Qed.

(** X13.  ATR is never negative: for a positive period the function returns,
    without throwing, a finite value that is at least 0 on every series
    of bars, also on bars whose high is below their low. *)
Theorem atr_is_not_negative (candles : list Candle) (period : Z) :
  0 < period ->
  nonneg (match calculateATR candles period with Ok x => x | _ => NaN end).
Proof.
  intros Hp. destruct (calculateATR_ok candles period Hp) as (q & -> & Hq).
  exists q. split; [reflexivity | exact Hq].
Qed.

(** The theorem at the sixty bars of the crash scenario, period 14. *)
Lemma atr_is_not_negative_witness :
  nonneg (match calculateATR crash_bars 14 with Ok x => x | _ => NaN end).
Proof. apply atr_is_not_negative. reflexivity. Defined.

(* ===================================================================== *)
(** * The strategy and the loop never throw *)
(* ===================================================================== *)

(** A loop whose body never throws in range never throws. *)
Lemma for_range_total {St} (body : Z -> St -> result St) (a b : Z) (s : St) :
  (forall j t, a <= j < b -> exists t', body j t = Ok t') ->
  exists s', for_range a b body s = Ok s'.
Proof.
  intros Hbody. destruct (Z_le_gt_dec a b) as [Hab|Hab].
  - destruct (@for_range_inv _ (fun _ _ => True) body a b s Hab I)
      as (s' & Hs' & _).
    + intros j t Hj _. destruct (Hbody j t Hj) as (t' & Ht'). eauto.
    + eauto.
  - exists s. apply for_range_empty. lia.
Qed.

Lemma len_slice_init {A} (l : list A) :
  l <> [] -> len (slice_init l) = len l - 1.
Proof.
  intros Hne. destruct (exists_last Hne) as (front & c & ->).
  unfold slice_init. rewrite removelast_last, len_app.
  change (len [c]) with 1. lia.
Qed.

Lemma len_pos_nonempty {A} (l : list A) : 0 < len l -> l <> [].
Proof. intros H ->. change (len (@nil A)) with 0 in H. lia. Qed.

Lemma calculateADX_ok (candles : list Candle) (period : Z) :
  exists v, calculateADX candles period = Ok v.
Proof.
  unfold calculateADX. destruct (len candles <? period + 2); [eauto|].
  destruct (for_range_total (dm_step candles) 1 (len candles) (mkDM [] [] []))
    as (s & ->).
  { intros j t Hj. unfold dm_step.
    destruct (get_ok candles j) as (c & ->); [lia|].
    destruct (get_ok candles (j - 1)) as (p & ->); [lia|].
    destruct (true_range_nonneg candles j Hj) as (tr & -> & _).
    cbn [bind]. eauto. }
  cbn [bind].
  match goal with
  | |- context [for_range ?a ?b ?body ?s0] =>
      destruct (for_range_total body a b s0) as (final & ->)
  end.
  { intros j t _. eauto. }
  cbn [bind]. eauto.
Qed.

Lemma smooth_pass_ok (values : list num) :
  exists out, smooth_pass values = Ok out.
Proof.
  unfold smooth_pass. apply for_range_total. intros j t _. eauto.
Qed.

Lemma calculateStochastic_ok (candles : list Candle)
  (period smoothK smoothD : Z) :
  0 < period ->
  exists st, calculateStochastic candles period smoothK smoothD = Ok st.
Proof.
  intros Hp. unfold calculateStochastic.
  destruct (len candles <? period); [eauto|].
  match goal with
  | |- context [for_range ?a ?b ?body ?s0] =>
      destruct (for_range_total body a b s0) as (raws & ->)
  end.
  { intros j t Hj.
    destruct (raw_k_ok candles period j Hp) as (r & ->); [lia|].
    cbn [bind]. eauto. }
  cbn [bind].
  match goal with
  | |- context [for_range ?a ?b ?body ?s0] =>
      destruct (for_range_total body a b s0) as (smoothed & ->)
  end.
  { intros j t _. apply smooth_pass_ok. }
  cbn [bind].
  destruct (len smoothed >=? smoothD).
  - match goal with
    | |- context [for_range ?a ?b ?body ?s0] =>
        destruct (for_range_total body a b s0) as (sum & ->)
    end.
    { intros j t _. eauto. }
    cbn [bind]. eauto.
  - cbn [bind]. eauto.
Qed.

(** On fifteen bars or more every indicator of the strategy returns. *)
Lemma snapshot_ok (candles : list Candle) :
  15 <= len candles -> exists s, snapshot candles = Ok s.
Proof.
  intros Hlen. unfold snapshot.
  assert (Hne : candles <> []) by (apply len_pos_nonempty; lia).
  assert (Hne' : slice_init candles <> []).
  { apply len_pos_nonempty. rewrite len_slice_init by exact Hne. lia. }
  destruct (get_ok candles (len candles - 1)) as (c & ->); [lia|].
  destruct (get_ok candles (len candles - 2)) as (p & ->); [lia|].
  cbn [bind].
  destruct (calculateEMA_finite close candles 5 (candle_closes _) Hne eq_refl)
    as (e5 & ->).
  destruct (calculateEMA_finite close candles 8 (candle_closes _) Hne eq_refl)
    as (e8 & ->).
  destruct (calculateEMA_finite close candles 13 (candle_closes _) Hne eq_refl)
    as (e13 & ->).
  destruct (calculateEMA_finite close (slice_init candles) 5
              (candle_closes _) Hne' eq_refl) as (pe5 & ->).
  destruct (calculateEMA_finite close (slice_init candles) 8
              (candle_closes _) Hne' eq_refl) as (pe8 & ->).
  cbn [bind].
  destruct (calculateRSI_ok candles 14 eq_refl) as (r & -> & _).
  destruct (calculateRSI_ok (slice_init candles) 14 eq_refl) as (pr & -> & _).
  destruct (calculateATR_ok candles 14 eq_refl) as (a & -> & _).
  cbn [bind].
  destruct (calculateADX_ok candles 14) as (adx & ->).
  unfold calculateMACD_default.
  destruct (calculateMACD_signal candles 12 26 9 Hne eq_refl eq_refl eq_refl)
    as (m & ->).
  destruct (calculateMACD_signal (slice_init candles) 12 26 9 Hne'
              eq_refl eq_refl eq_refl) as (pm & ->).
  cbn [bind]. unfold calculateStochastic_default.
  destruct (calculateStochastic_ok candles 14 1 3 eq_refl) as (st & ->).
  destruct (calculateStochastic_ok (slice_init candles) 14 1 3 eq_refl)
    as (pst & ->).
  cbn [bind]. eauto.
Qed.

Lemma analyze_ok (candles : list Candle) (currentPosition : option Position)
  (account : Account) :
  exists signal, analyze candles currentPosition account = Ok signal.
Proof.
  unfold analyze.
  destruct (or_else (balance account) (nZ 1000) <=? nZ 0)%num; [eauto|].
  destruct (len candles <? 15) eqn:G; [eauto|].
  apply Z.ltb_ge in G.
  destruct (snapshot_ok candles G) as (s & ->). cbn [bind].
  destruct currentPosition; eauto.
Qed.

(** X14.  The strategy always answers: [analyze] returns a signal, and throws
    nothing, for every series of bars, every open position or none, and
    every account; while a position is open the signal is stop, wait,
    exit or hold, and while none is open it is stop, wait, buy or sell. *)
Theorem strategy_never_throws (candles : list Candle)
  (currentPosition : option Position) (account : Account) :
  exists signal,
    analyze candles currentPosition account = Ok signal
    /\ answers_to currentPosition (action signal) = true.
Proof.
  destruct (analyze_ok candles currentPosition account) as (signal & E).
  exists signal. split; [exact E|]. revert E. unfold analyze.
  destruct (or_else (balance account) (nZ 1000) <=? nZ 0)%num.
  { intros [= <-]. destruct currentPosition; reflexivity. }
  destruct (len candles <? 15).
  { intros [= <-]. destruct currentPosition; reflexivity. }
  destruct (snapshot candles) as [s| |]; cbn [bind]; try discriminate.
  destruct currentPosition as [p|]; intros [= <-].
  - destruct (manage_cases s p) as [(r & price & -> & _)| ->]; reflexivity.
  - pose proof (look_for_entry_cases s
                  (or_else (balance account) (nZ 1000))) as H.
    destruct (look_for_entry s (or_else (balance account) (nZ 1000)));
      first [reflexivity | destruct H].
Qed.

Lemma len_slice_prefix {A} (l : list A) (b : Z) :
  0 <= b <= len l -> len (slice l 0 b) = b.
Proof.
  intros Hb. unfold slice, len in *. simpl skipn.
  rewrite length_firstn. lia.
Qed.

Lemma step_ok (config : Config) (priceData : list Candle) (i : Z)
  (st : SimState) :
  0 <= i < len priceData -> exists f, step config priceData i st = Ok f.
Proof.
  intros Hi. unfold step.
  destruct (get_ok (slice priceData 0 (i + 1)) i) as (c & ->).
  { rewrite len_slice_prefix by lia. lia. }
  cbn [bind]. destruct (balance_break st); [eauto|].
  destruct (analyze_ok (slice priceData 0 (i + 1)) (currentPosition st)
              (tradingAccount st)) as (signal & ->).
  cbn [bind]. eauto.
Qed.

Lemma sim_loop_ok (config : Config) (priceData : list Candle) :
  forall (n : nat) (i : Z) (st : SimState),
    0 <= i -> i + Z.of_nat n <= len priceData ->
    exists st', sim_loop config priceData n i st = Ok st'.
Proof.
  induction n as [|n IH]; intros i st Hi Hn; simpl; [eauto|].
  destruct (step_ok config priceData i st) as (f & ->); [lia|].
  cbn [bind]. destruct f as [st'|st']; [|eauto].
  apply IH; lia.
Qed.

(** X15.  The backtest completes on every non-empty history: the loop over the
    bars and the statistics (persistence and logging aside) return a
    result and throw nothing, whatever the prices are; the reported
    final balance is the balance the loop ends with, and the reported
    number of trades is the length of the returned ledger. *)
Theorem backtest_completes (config : Config) (priceData : list Candle) :
  priceData <> [] ->
  exists st,
    run_loop config priceData = Ok st
    /\ run config priceData
       = Ok (compute_stats config st, tradeHistory st)
    /\ finalBalance (compute_stats config st) = balance (tradingAccount st)
    /\ totalTrades (compute_stats config st) = len (tradeHistory st).
Proof.
  intros Hne. unfold run, run_loop.
  destruct (len priceData =? 0) eqn:E.
  { apply Z.eqb_eq, len_nil_iff in E. contradiction. }
  assert (Hloop : exists st,
             sim_loop config priceData
               (Z.to_nat (len priceData - first_bar)) first_bar
               (initial_state config) = Ok st).
  { unfold first_bar. destruct (Z_le_gt_dec 50 (len priceData)) as [L|L].
    - apply sim_loop_ok; lia.
    - replace (Z.to_nat (len priceData - 50)) with 0%nat by lia.
      simpl. eauto. }
  destruct Hloop as (st & Hst).
  exists st. rewrite Hst. cbn [bind]. repeat split.
Qed.

(** The theorem at the sixty bars of the crash scenario. *)
Lemma backtest_completes_witness :
  exists st,
    run_loop default_config crash_bars = Ok st
    /\ run default_config crash_bars
       = Ok (compute_stats default_config st, tradeHistory st)
    /\ finalBalance (compute_stats default_config st)
       = balance (tradingAccount st)
    /\ totalTrades (compute_stats default_config st)
       = len (tradeHistory st).
Proof. apply backtest_completes. discriminate. Defined.

(* ===================================================================== *)
(** * Support and resistance *)
(* ===================================================================== *)

Lemma get_nth {A} (l : list A) (k : Z) (d : A) :
  0 <= k < len l -> get l k = Ok (nth (Z.to_nat k) l d).
Proof.
  intros Hk. destruct (get_ok l k Hk) as (a & Ha). rewrite Ha. f_equal.
  unfold get in Ha. destruct (k <? 0); [discriminate|].
  destruct (nth_error l (Z.to_nat k)) eqn:N; [|discriminate].
  injection Ha as <-. symmetry. apply nth_error_nth. exact N.
Qed.

(** A scanning loop whose test never throws ends without its [return]
    exactly when the test fails at every index. *)
Lemma return_loop_spec (cond : Z -> result bool) (f : Z -> bool) :
  forall (n : nat) (j : Z),
    (forall k, j <= k < j + Z.of_nat n -> cond k = Ok (f k)) ->
    exists hit, return_loop n j cond = Ok hit
                /\ (hit = false <->
                    forall k, j <= k < j + Z.of_nat n -> f k = false).
Proof.
  induction n as [|n IH]; intros j Hc.
  - exists false. split; [reflexivity|]. split; [intros _ k Hk; lia | auto].
  - cbn [return_loop]. rewrite (Hc j) by lia. cbn [bind].
    destruct (f j) eqn:Fj.
    + exists true. split; [reflexivity|]. split; [discriminate|].
      intros H. rewrite <- Fj. apply H. lia.
    + destruct (IH (j + 1)) as (hit & -> & Hhit).
      { intros k Hk. apply Hc. lia. }
      exists hit. split; [reflexivity|]. rewrite Hhit. split.
      * intros H k Hk. destruct (Z.eq_dec k j) as [->|Hne]; [exact Fj|].
        apply H. lia.
      * intros H k Hk. apply H. lia.
Qed.

Lemma return_range_spec (cond : Z -> result bool) (f : Z -> bool) (a b : Z) :
  (forall k, a <= k < b -> cond k = Ok (f k)) ->
  exists hit, return_range a b cond = Ok hit
              /\ (hit = false <-> forall k, a <= k < b -> f k = false).
Proof.
  intros Hc. unfold return_range.
  destruct (return_loop_spec cond f (Z.to_nat (b - a)) a)
    as (hit & Hhit & Hiff).
  - intros k Hk. apply Hc. lia.
  - exists hit. split; [exact Hhit|]. rewrite Hiff.
    split; intros H k Hk; apply H; lia.
Qed.

Lemma pivot_spec (hit : Candle -> Candle -> bool) (candles : list Candle)
  (i lookback : Z) :
  0 <= lookback ->
  exists b,
    pivot hit candles i lookback = Ok b
    /\ (b = true <->
        lookback <= i < len candles - lookback
        /\ forall j cur c,
             i - lookback <= j <= i + lookback -> j <> i ->
             get candles i = Ok cur -> get candles j = Ok c ->
             hit cur c = false).
Proof.
  intros Hlb. unfold pivot.
  destruct ((i <? lookback) || (i >=? len candles - lookback)) eqn:G.
  { exists false. split; [reflexivity|]. split; [discriminate|].
    intros (Hr & _). apply orb_true_iff in G. destruct G as [G|G].
    - apply Z.ltb_lt in G. lia.
    - apply Z.geb_le in G. lia. }
  apply orb_false_iff in G. destruct G as (G1 & G2).
  apply Z.ltb_ge in G1. rewrite Z.geb_leb in G2. apply Z.leb_gt in G2.
  destruct (get_ok candles i) as (cur & Hcur); [lia|].
  rewrite Hcur. cbn [bind].
  set (f := fun k => hit cur (nth (Z.to_nat k) candles cur)).
  destruct (return_range_spec
              (fun j => c <- get candles j ;; Ok (hit cur c)) f
              (i - lookback) i) as (before & -> & Hbefore).
  { intros k Hk. rewrite (get_nth candles k cur) by lia. reflexivity. }
  destruct (return_range_spec
              (fun j => c <- get candles j ;; Ok (hit cur c)) f
              (i + 1) (i + lookback + 1)) as (after & Hafter & Hafter').
  { intros k Hk. rewrite (get_nth candles k cur) by lia. reflexivity. }
  cbn [bind].
  assert (Hf : forall j c, i - lookback <= j <= i + lookback ->
                           get candles j = Ok c -> f j = hit cur c).
  { intros j c Hj Hc. unfold f.
    rewrite (get_nth candles j cur) in Hc by lia. congruence. }
  destruct before.
  { exists false. split; [reflexivity|]. split; [discriminate|].
    intros (_ & H). exfalso.
    assert (E : true = false); [|discriminate].
    apply Hbefore. intros k Hk.
    destruct (get_ok candles k) as (c & Hc); [lia|].
    rewrite (Hf k c) by (lia || exact Hc).
    apply (H k cur c); first [lia | assumption | reflexivity]. }
  rewrite Hafter. cbn [bind]. destruct after.
  { exists false. split; [reflexivity|]. split; [discriminate|].
    intros (_ & H). exfalso.
    assert (E : true = false); [|discriminate].
    apply Hafter'. intros k Hk.
    destruct (get_ok candles k) as (c & Hc); [lia|].
    rewrite (Hf k c) by (lia || exact Hc).
    apply (H k cur c); first [lia | assumption | reflexivity]. }
  exists true. split; [reflexivity|]. split; [|reflexivity].
  intros _. split; [lia|].
  intros j cur' c Hj Hne Hcur' Hc.
  assert (cur' = cur) by congruence. subst cur'.
  rewrite <- (Hf j c Hj Hc).
  destruct (Z_lt_ge_dec j i) as [L|L].
  - apply (proj1 Hbefore eq_refl). lia.
  - apply (proj1 Hafter' eq_refl). lia.
Qed.

Lemma isSupport_pivot (candles : list Candle) (i lookback : Z) :
  isSupport candles i lookback
  = pivot (fun cur c => q_leb (low c) (low cur)) candles i lookback.
Proof. reflexivity. Qed.

Lemma isResistance_pivot (candles : list Candle) (i lookback : Z) :
  isResistance candles i lookback
  = pivot (fun cur c => q_leb (high cur) (high c)) candles i lookback.
Proof. reflexivity. Qed.

(** X16.  A support is a strict local minimum of the lows: for a lookback that
    is not negative, [isSupport] throws nothing, and it answers [true]
    exactly when bar [i] has [lookback] bars on either side and its low is
    strictly below the low of each of them. *)
Theorem support_is_strict_local_minimum (candles : list Candle)
  (i lookback : Z) :
  0 <= lookback ->
  exists b, isSupport candles i lookback = Ok b
            /\ (b = true <-> strict_local_min low candles i lookback).
Proof.
  intros Hlb. rewrite isSupport_pivot.
  destruct (pivot_spec (fun cur c => q_leb (low c) (low cur))
              candles i lookback Hlb) as (b & Hb & Hiff).
  exists b. split; [exact Hb|]. rewrite Hiff. unfold strict_local_min.
  split; intros (Hr & H); (split; [exact Hr|]);
    intros j cur c Hj Hne Hcur Hc.
  - apply q_leb_gt. exact (H j cur c Hj Hne Hcur Hc).
  - apply q_leb_gt. exact (H j cur c Hj Hne Hcur Hc).
Qed.

(** The theorem at bar 3 of the valley, lookback 3. *)
Lemma support_is_strict_local_minimum_witness :
  exists b, isSupport valley_bars 3 3 = Ok b
            /\ (b = true <-> strict_local_min low valley_bars 3 3).
Proof. apply support_is_strict_local_minimum. lia. Defined.

(** X17.  A resistance is a strict local maximum of the highs: for a lookback
    that is not negative, [isResistance] throws nothing, and it answers
    [true] exactly when bar [i] has [lookback] bars on either side and
    its high is strictly above the high of each of them. *)
Theorem resistance_is_strict_local_maximum (candles : list Candle)
  (i lookback : Z) :
  0 <= lookback ->
  exists b, isResistance candles i lookback = Ok b
            /\ (b = true <-> strict_local_max high candles i lookback).
Proof.
  intros Hlb. rewrite isResistance_pivot.
  destruct (pivot_spec (fun cur c => q_leb (high cur) (high c))
              candles i lookback Hlb) as (b & Hb & Hiff).
  exists b. split; [exact Hb|]. rewrite Hiff. unfold strict_local_max.
  split; intros (Hr & H); (split; [exact Hr|]);
    intros j cur c Hj Hne Hcur Hc.
  - apply q_leb_gt. exact (H j cur c Hj Hne Hcur Hc).
  - apply q_leb_gt. exact (H j cur c Hj Hne Hcur Hc).
Qed.

(** The theorem at bar 3 of the valley, lookback 3. *)
Lemma resistance_is_strict_local_maximum_witness :
  exists b, isResistance valley_bars 3 3 = Ok b
            /\ (b = true <-> strict_local_max high valley_bars 3 3).
Proof. apply resistance_is_strict_local_maximum. lia. Defined.

Lemma pivots_apart (hit : Candle -> Candle -> bool) (candles : list Candle)
  (i i' lookback : Z) :
  (forall a b, hit a b = false -> hit b a = false -> False) ->
  0 <= lookback -> i <> i' ->
  pivot hit candles i lookback = Ok true ->
  pivot hit candles i' lookback = Ok true ->
  lookback < Z.abs (i - i').
Proof.
  intros Hasym Hlb Hne H1 H2.
  destruct (pivot_spec hit candles i lookback Hlb) as (b1 & E1 & Hb1).
  destruct (pivot_spec hit candles i' lookback Hlb) as (b2 & E2 & Hb2).
  assert (b1 = true) by congruence. assert (b2 = true) by congruence.
  subst b1 b2.
  destruct (proj1 Hb1 eq_refl) as (Hr1 & Hi).
  destruct (proj1 Hb2 eq_refl) as (Hr2 & Hi').
  destruct (Z_lt_ge_dec lookback (Z.abs (i - i'))) as [L|L]; [exact L|].
  exfalso.
  destruct (get_ok candles i) as (c & Hc); [lia|].
  destruct (get_ok candles i') as (c' & Hc'); [lia|].
  apply (Hasym c c').
  - apply (Hi i' c c'); (lia || assumption || congruence).
  - apply (Hi' i c' c); (lia || assumption || congruence).
Qed.

(** X18.  Supports keep their distance, and so do resistances: two different
    bars that [isSupport] accepts with the same lookback are more than
    [lookback] bars apart, and likewise for [isResistance]. *)
Theorem pivots_are_separated (candles : list Candle) (i i' lookback : Z) :
  0 <= lookback -> i <> i' ->
  (isSupport candles i lookback = Ok true ->
   isSupport candles i' lookback = Ok true ->
   lookback < Z.abs (i - i'))
  /\ (isResistance candles i lookback = Ok true ->
      isResistance candles i' lookback = Ok true ->
      lookback < Z.abs (i - i')).
Proof.
  intros Hlb Hne. split; intros H1 H2.
  - rewrite isSupport_pivot in H1, H2.
    refine (pivots_apart _ candles i i' lookback _ Hlb Hne H1 H2).
    intros a b Ha Hb. apply q_leb_gt in Ha, Hb.
    exact (Qclt_not_le _ _ Ha (Qclt_le_weak _ _ Hb)).
  - rewrite isResistance_pivot in H1, H2.
    refine (pivots_apart _ candles i i' lookback _ Hlb Hne H1 H2).
    intros a b Ha Hb. apply q_leb_gt in Ha, Hb.
    exact (Qclt_not_le _ _ Ha (Qclt_le_weak _ _ Hb)).
Qed.

(** The theorem at bars 1 and 3 of the zigzag, lookback 1. *)
Lemma pivots_are_separated_witness :
  isSupport zigzag_bars 1 1 = Ok true
  /\ isSupport zigzag_bars 3 1 = Ok true
  /\ isResistance zigzag_bars 1 1 = Ok true
  /\ isResistance zigzag_bars 3 1 = Ok true
  /\ 1 < Z.abs (1 - 3).
Proof.
  do 4 (split; [vm_compute; reflexivity|]).
  destruct (pivots_are_separated zigzag_bars 1 3 1) as (H & _);
    [lia | lia |].
  apply H; vm_compute; reflexivity.
Defined.

(* ===================================================================== *)
(** * Candle patterns *)
(* ===================================================================== *)

(** Turn the boolean comparisons of the context into orders. *)
Ltac q_tests :=
  unfold q_gtb, q_geb in *;
  repeat match goal with
         | H : _ && _ = true |- _ => apply andb_true_iff in H; destruct H
         | H : q_ltb _ _ = true |- _ => apply q_ltb_lt in H
         | H : q_ltb _ _ = false |- _ => apply q_ltb_ge in H
         | H : q_leb _ _ = true |- _ => apply q_leb_le in H
         | H : q_leb _ _ = false |- _ => apply q_leb_gt in H
         end.

Lemma calcCandleStrength_in (candle : Candle) :
  In (calcCandleStrength (Some candle))
     (if q_gtb (close candle) (open candle)
      then bullish_strengths else bearish_strengths).
Proof.
  unfold calcCandleStrength, bullish_strengths, bearish_strengths.
  destruct (q_gtb (close candle) (open candle)); cbn [andb negb];
    repeat match goal with
           | |- context [if ?b then _ else _] => destruct b
           end;
    cbn [In];
    repeat first [ left; apply Qc_is_canon; reflexivity | right ].
Qed.

(** X19.  The strength of a candle is never 0 and never reaches the cap of 10:
    it is one of 1.5, 3, 3.5, 5, 6, 8 for a candle that closes above its
    open and one of -1.5, -3, -3.5, -5, -6, -8 for every other candle,
    also for one that closes at its open; only the missing candle has
    strength 0. *)
Theorem candle_strength_values (candle : Candle) :
  calcCandleStrength None = qz 0
  /\ In (calcCandleStrength (Some candle))
        (if q_gtb (close candle) (open candle)
         then bullish_strengths else bearish_strengths)
  /\ calcCandleStrength (Some candle) <> qz 0
  /\ (qz (-8) <= calcCandleStrength (Some candle))%Qc
  /\ (calcCandleStrength (Some candle) <= qz 8)%Qc.
Proof.
  split; [reflexivity|].
  pose proof (calcCandleStrength_in candle) as H.
  split; [exact H|]. revert H.
  generalize (calcCandleStrength (Some candle)). intros s H.
  unfold bullish_strengths, bearish_strengths in H.
  destruct (q_gtb (close candle) (open candle)); cbn [In] in H;
    repeat match type of H with
           | _ \/ _ => destruct H as [<-|H]
           | False => destruct H
           end;
    (split; [intros E; apply (f_equal (fun q => Qnum (this q))) in E;
             vm_compute in E; discriminate E|]);
    split; discriminate.
Qed.

Lemma qc_lt_asym (a b : Qc) : (a < b)%Qc -> (b < a)%Qc -> False.
Proof. intros H1 H2. exact (Qclt_not_le _ _ H1 (Qclt_le_weak _ _ H2)). Qed.

(** What each three-candle pattern asks of the first and the third
    candle, and each two-candle pattern of the previous body. *)
Lemma isMorningStar_bodies (c1 c2 c3 : Candle) :
  isMorningStar c1 c2 c3 = true ->
  (close c1 < open c1)%Qc /\ (open c3 < close c3)%Qc.
Proof. unfold isMorningStar. intros H. q_tests. auto. Qed.

Lemma isEveningStar_bodies (c1 c2 c3 : Candle) :
  isEveningStar c1 c2 c3 = true ->
  (open c1 < close c1)%Qc /\ (close c3 < open c3)%Qc.
Proof. unfold isEveningStar. intros H. q_tests. auto. Qed.

Lemma isThreeWhiteSoldiers_bodies (c1 c2 c3 : Candle) :
  isThreeWhiteSoldiers c1 c2 c3 = true ->
  (open c1 < close c1)%Qc /\ (open c3 < close c3)%Qc.
Proof. unfold isThreeWhiteSoldiers. intros H. q_tests. auto. Qed.

Lemma isThreeBlackCrows_bodies (c1 c2 c3 : Candle) :
  isThreeBlackCrows c1 c2 c3 = true ->
  (close c1 < open c1)%Qc /\ (close c3 < open c3)%Qc.
Proof. unfold isThreeBlackCrows. intros H. q_tests. auto. Qed.

Lemma isBullishEngulfing_bodies (c p : Candle) :
  isBullishEngulfing c p = true ->
  (close p < open p)%Qc /\ (open c < close p)%Qc.
Proof. unfold isBullishEngulfing. intros H. q_tests. auto. Qed.

Lemma isBearishEngulfing_bodies (c p : Candle) :
  isBearishEngulfing c p = true ->
  (open p < close p)%Qc /\ (close p < open c)%Qc.
Proof. unfold isBearishEngulfing. intros H. q_tests. auto. Qed.

Lemma isBullishHarami_bodies (c p : Candle) :
  isBullishHarami c p = true ->
  (close p < open p)%Qc /\ (close p < open c)%Qc.
Proof. unfold isBullishHarami. intros H. q_tests. auto. Qed.

Lemma isBearishHarami_bodies (c p : Candle) :
  isBearishHarami c p = true ->
  (open p < close p)%Qc /\ (open c < close p)%Qc.
Proof. unfold isBearishHarami. intros H. q_tests. auto. Qed.

(** Close every goal whose context orders two prices both ways. *)
Ltac both_ways :=
  exfalso;
  repeat match goal with
         | H : _ /\ _ |- _ => destruct H
         end;
  match goal with
  | H1 : (?a < ?b)%Qc, H2 : (?b < ?a)%Qc |- _ => exact (qc_lt_asym a b H1 H2)
  end.

(** A candle that is a hammer and a shooting star has no body and no
    shadows, and is a doji. *)
Lemma hammer_and_star_is_doji (candle : Candle) :
  isHammer candle = true -> isShootingStar candle = true ->
  isDoji_default candle = true.
Proof.
  unfold isHammer, isShootingStar, isDoji_default, isDoji.
  destruct candle as [t o h l c v]. cbn [open high low close].
  intros H1 H2. apply q_leb_le.
  assert (Hk : (qz 0 <= qfrac 5 100 / qz 100)%Qc) by discriminate.
  revert Hk. generalize (qfrac 5 100 / qz 100)%Qc. intros k Hk.
  revert H1 H2. unfold q_abs, q_max, q_min.
  destruct (q_ltb (c - o) (qz 0)) eqn:E1; destruct (q_ltb o c) eqn:E2;
    destruct (q_ltb c o) eqn:E3; intros H1 H2; q_tests;
    unfold qz, qfrac in *; qc2q;
    change (inject_Z 2) with 2%Q in *;
    try lra;
    match goal with
    | |- (_ <= ?r * k)%Q =>
        assert (Hr : (r == 0)%Q) by lra; rewrite Hr; lra
    end.
Qed.

(** X20.  The patterns of one size exclude each other, so the order in which
    [detectPattern] tries them within a size does not matter: at most one
    of the four three-candle patterns holds of three candles, at most one
    of the four two-candle patterns holds of two candles, and a candle
    that is both a hammer and a shooting star is a doji, which is tried
    before both. *)
Theorem patterns_exclude_each_other (c1 c2 c3 : Candle) :
  (how_many [isMorningStar c1 c2 c3; isEveningStar c1 c2 c3;
             isThreeWhiteSoldiers c1 c2 c3; isThreeBlackCrows c1 c2 c3]
   <= 1)%nat
  /\ (how_many [isBullishEngulfing c3 c2; isBearishEngulfing c3 c2;
                isBullishHarami c3 c2; isBearishHarami c3 c2]
      <= 1)%nat
  /\ isHammer c3 && isShootingStar c3 && negb (isDoji_default c3) = false.
Proof.
  split; [|split].
  - destruct (isMorningStar c1 c2 c3) eqn:A;
      [apply isMorningStar_bodies in A|];
      (destruct (isEveningStar c1 c2 c3) eqn:B;
        [apply isEveningStar_bodies in B|]);
      (destruct (isThreeWhiteSoldiers c1 c2 c3) eqn:C;
        [apply isThreeWhiteSoldiers_bodies in C|]);
      (destruct (isThreeBlackCrows c1 c2 c3) eqn:D;
        [apply isThreeBlackCrows_bodies in D|]);
      first [ cbn; lia | both_ways ].
  - destruct (isBullishEngulfing c3 c2) eqn:A;
      [apply isBullishEngulfing_bodies in A|];
      (destruct (isBearishEngulfing c3 c2) eqn:B;
        [apply isBearishEngulfing_bodies in B|]);
      (destruct (isBullishHarami c3 c2) eqn:C;
        [apply isBullishHarami_bodies in C|]);
      (destruct (isBearishHarami c3 c2) eqn:D;
        [apply isBearishHarami_bodies in D|]);
      first [ cbn; lia | both_ways ].
  - destruct (isHammer c3) eqn:A; [|reflexivity].
    destruct (isShootingStar c3) eqn:B; [|reflexivity].
    rewrite (hammer_and_star_is_doji c3 A B). reflexivity.
Qed.

(** X21.  [detectPattern] throws nothing, and the direction it reports is the
    sign of the strength it reports: bullish with a positive strength,
    bearish with a negative one, neutral with 0; only the answer on fewer
    than three candles carries no direction.  The strength lies between
    -9 and 9, and it is 0 only for the patterns unknown and doji: a basic
    candle is never neutral. *)
Theorem detected_direction_is_sign_of_strength (candles : list Candle) :
  exists p,
    detectPattern candles = Ok p
    /\ pattern_direction p
       = (if len candles <? 3 then None
          else Some (direction_of_sign (strength p)))
    /\ (qz (-9) <= strength p)%Qc /\ (strength p <= qz 9)%Qc
    /\ q_eqb (strength p) (qz 0)
       = (String.eqb (pattern p) "unknown" || String.eqb (pattern p) "doji").
Proof.
  unfold detectPattern. destruct (len candles <? 3) eqn:G.
  { eexists. split; [reflexivity|]. cbn. repeat split; discriminate. }
  apply Z.ltb_ge in G.
  destruct (get_ok candles (len candles - 3)) as (c1 & ->); [lia|].
  destruct (get_ok candles (len candles - 2)) as (c2 & ->); [lia|].
  destruct (get_ok candles (len candles - 1)) as (c3 & ->); [lia|].
  cbn [bind].
  repeat match goal with
         | |- context [if ?b then Ok _ else _] =>
             destruct b;
             [eexists; split; [reflexivity|]; cbn;
              repeat split; discriminate|]
         end.
  pose proof (calcCandleStrength_in c3) as H.
  revert H. generalize (calcCandleStrength (Some c3)). intros s H.
  eexists. split; [reflexivity|].
  cbn [pattern strength pattern_direction].
  unfold bullish_strengths, bearish_strengths in H.
  destruct (q_gtb (close c3) (open c3)); cbn [In] in H;
    repeat match type of H with
           | _ \/ _ => destruct H as [<-|H]
           | False => destruct H
           end;
    (split; [reflexivity|]); repeat split; discriminate.
Qed.

(* ===================================================================== *)
(** * Account utilities *)
(* ===================================================================== *)

(** X22.  The margin of a risk-sized position is the amount at risk: for a
    price and a leverage that are finite and not 0, the margin that
    [calculateMargin] asks for the size [calculatePositionSize] gives is
    [balance * riskPercentage / 100], whatever the price and the leverage
    are (in exact arithmetic). *)
Theorem margin_of_risk_sized_position (balance price risk leverage : Qc) :
  price <> qz 0 -> leverage <> qz 0 ->
  calculateMargin (Fin price)
    (calculatePositionSize (Fin balance) (Fin price) (Fin risk)
       (Fin leverage))
    (Fin leverage)
  = Fin (balance * (risk / qz 100)).
Proof.
  intros Hp Hl. unfold calculateMargin, calculatePositionSize.
  assert (H100 : qz 100 <> qz 0) by (apply qz_pos_nonzero; lia).
  unfold nZ. rewrite (div_finite risk _ H100). cbn [mul].
  rewrite (div_finite _ _ Hp). cbn [mul].
  rewrite (div_finite _ _ Hl). f_equal.
  change (qz 0) with 0%Qc in *. field. auto.
Qed.

(** The theorem at a balance of 10000, a price of 150, 2% at risk and
    leverage 3. *)
Lemma margin_of_risk_sized_position_witness :
  calculateMargin (nZ 150)
    (calculatePositionSize (nZ 10000) (nZ 150) (nZ 2) (nZ 3)) (nZ 3)
  = Fin (qz 10000 * (qz 2 / qz 100)).
Proof.
  apply margin_of_risk_sized_position; discriminate.
Defined.

(** The profit of a long is the loss of a short: for finite prices and
    size the results of [calculatePnL] for 'long' and for 'short' add up
    to 0, and the simulator's own profit formula is [calculatePnL] at the
    position's direction. *)
Theorem long_and_short_pnl_cancel (entry current amount : Qc)
  (p : Position) (price : num) :
  (calculatePnL "long" (Fin entry) (Fin current) (Fin amount)
   + calculatePnL "short" (Fin entry) (Fin current) (Fin amount))%num
  = nZ 0
  /\ pnl_of p price
     = calculatePnL (direction_name (direction p)) (entryPrice p) price
         (size p).
Proof.
  split.
  - unfold calculatePnL. cbn. unfold nZ. f_equal.
    change (qz 0) with 0%Qc. ring.
  - unfold pnl_of, calculatePnL. destruct (direction p); reflexivity.
Qed.

(* ===================================================================== *)
(** * Resampling *)
(* ===================================================================== *)

Lemma add_candle_volume (k : Z) (c : Candle) (g : list (Z * Candle)) :
  total_volume (map snd (add_candle k c g))
  = (total_volume (map snd g) + volume c)%Qc.
Proof.
  induction g as [|[key group] rest IH]; cbn [add_candle].
  - cbn. ring.
  - destruct (key =? k); cbn [map snd total_volume fold_right].
    + cbn [update_group volume]. fold (total_volume (map snd rest)). ring.
    + fold (total_volume (map snd (add_candle k c rest))).
      fold (total_volume (map snd rest)). rewrite IH. ring.
Qed.

Lemma add_candle_length (k : Z) (c : Candle) (g : list (Z * Candle)) :
  (List.length (add_candle k c g) <= S (List.length g))%nat.
Proof.
  induction g as [|[key group] rest IH]; cbn [add_candle]; [cbn; lia|].
  destruct (key =? k); cbn [List.length]; lia.
Qed.

Lemma group_loop_volume (ms : Z) (candles : list Candle) :
  forall g,
    total_volume
      (map snd (fold_left
                  (fun groupedCandles candle =>
                     add_candle (interval_start ms candle) candle
                       groupedCandles) candles g))
    = (total_volume (map snd g) + total_volume candles)%Qc
    /\ (List.length
          (fold_left
             (fun groupedCandles candle =>
                add_candle (interval_start ms candle) candle
                  groupedCandles) candles g)
        <= List.length g + List.length candles)%nat.
Proof.
  induction candles as [|c rest IH]; intros g; cbn [fold_left].
  - split; [cbn; change (qz 0) with 0%Qc; ring | lia].
  - destruct (IH (add_candle (interval_start ms c) c g)) as (H1 & H2).
    split.
    + rewrite H1, add_candle_volume. cbn [total_volume fold_right].
      fold (total_volume rest). ring.
    + pose proof (add_candle_length (interval_start ms c) c g).
      cbn [List.length]. lia.
Qed.

Lemma insert_by_time_volume (c : Candle) (l : list Candle) :
  total_volume (insert_by_time c l) = (volume c + total_volume l)%Qc.
Proof.
  induction l as [|x rest IH]; cbn [insert_by_time]; [reflexivity|].
  destruct (time c <=? time x); [reflexivity|].
  cbn [total_volume fold_right]. fold (total_volume (insert_by_time c rest)).
  fold (total_volume rest). rewrite IH. ring.
Qed.

Lemma insert_by_time_length (c : Candle) (l : list Candle) :
  List.length (insert_by_time c l) = S (List.length l).
Proof.
  induction l as [|x rest IH]; cbn [insert_by_time]; [reflexivity|].
  destruct (time c <=? time x); cbn [List.length]; congruence.
Qed.

Lemma sort_by_time_volume (l : list Candle) :
  total_volume (sort_by_time l) = total_volume l
  /\ List.length (sort_by_time l) = List.length l.
Proof.
  induction l as [|c rest [IH1 IH2]]; [split; reflexivity|].
  cbn [sort_by_time fold_right]. fold (sort_by_time rest).
  rewrite insert_by_time_volume, insert_by_time_length, IH1, IH2.
  split; reflexivity.
Qed.

(** X23.  Resampling adds no bars and, in exact arithmetic, loses no
    volume: for every interval name and every order of the given candles
    there are at most as many resampled candles as given ones, and the
    volumes of the resampled candles, added exactly, are the volumes of
    the given candles, added exactly (the program's binary64 sums can
    differ in the last digits). *)
Theorem resampling_conserves_volume (candles : list Candle)
  (interval : string) :
  total_volume (resampleCandles candles interval) = total_volume candles
  /\ len (resampleCandles candles interval) <= len candles.
Proof.
  unfold resampleCandles.
  destruct (String.eqb interval "1m" || (len candles =? 0));
    [split; [reflexivity | lia]|].
  destruct (interval_ms interval) as [ms|]; [|split; [reflexivity | lia]].
  destruct (sort_by_time_volume (map snd (group_candles ms candles)))
    as (-> & Hlen).
  unfold len. rewrite Hlen, length_map. unfold group_candles.
  destruct (group_loop_volume ms candles []) as (-> & Hn).
  split; [cbn; change (qz 0) with 0%Qc; ring | cbn in Hn; lia].
Qed.

Lemma interval_start_aligned (ms : Z) (c : Candle) :
  ms <> 0 ->
  interval_start ms c / ms * ms = interval_start ms c.
Proof.
  intros Hms. unfold interval_start. rewrite Z.div_mul by exact Hms.
  reflexivity.
Qed.

Lemma add_candle_keys (k : Z) (c : Candle) (g : list (Z * Candle)) (x : Z) :
  In x (map fst (add_candle k c g)) <-> x = k \/ In x (map fst g).
Proof.
  induction g as [|[key group] rest IH]; cbn [add_candle].
  - cbn. intuition.
  - destruct (key =? k) eqn:E; cbn [map fst In].
    + apply Z.eqb_eq in E. subst key. intuition.
    + rewrite IH. intuition.
Qed.

Lemma add_candle_grouped (ms k : Z) (c : Candle) (g : list (Z * Candle)) :
  k / ms * ms = k -> grouped ms g -> grouped ms (add_candle k c g).
Proof.
  intros Hk. induction g as [|[key group] rest IH]; intros (Hnd & Hall).
  - cbn [add_candle]. split.
    + cbn. constructor; [intros [] | constructor].
    + intros k' c' [[= <- <-]|[]]. split; [reflexivity | exact Hk].
  - cbn [add_candle]. destruct (key =? k) eqn:E.
    + split; [exact Hnd|].
      intros k' c' [[= <- <-]|Hin].
      * destruct (Hall key group (or_introl eq_refl)) as (H1 & H2).
        split; [exact H1 | exact H2].
      * apply Hall. right. exact Hin.
    + apply Z.eqb_neq in E. cbn [map fst] in Hnd.
      apply NoDup_cons_iff in Hnd. destruct Hnd as (Hnotin & Hnd).
      destruct IH as (IHnd & IHall).
      { split; [exact Hnd|]. intros k' c' Hin. apply Hall. right. exact Hin. }
      split.
      * cbn [map fst]. constructor; [|exact IHnd].
        rewrite add_candle_keys. intros [->|Hin]; [congruence | auto].
      * intros k' c' [[= <- <-]|Hin].
        -- apply Hall. left. reflexivity.
        -- apply IHall. exact Hin.
Qed.

Lemma group_loop_grouped (ms : Z) (candles : list Candle) :
  ms <> 0 ->
  forall g, grouped ms g ->
    grouped ms
      (fold_left
         (fun groupedCandles candle =>
            add_candle (interval_start ms candle) candle groupedCandles)
         candles g).
Proof.
  intros Hms. induction candles as [|c rest IH]; intros g Hg;
    cbn [fold_left]; [exact Hg|].
  apply IH. apply add_candle_grouped; [|exact Hg].
  apply interval_start_aligned. exact Hms.
Qed.

Lemma insert_by_time_in (c x : Candle) (l : list Candle) :
  In x (insert_by_time c l) <-> x = c \/ In x l.
Proof.
  induction l as [|y rest IH]; cbn [insert_by_time].
  - cbn. intuition.
  - destruct (time c <=? time y); cbn [In]; [intuition|].
    rewrite IH. intuition.
Qed.

Lemma sort_by_time_in (x : Candle) (l : list Candle) :
  In x (sort_by_time l) <-> In x l.
Proof.
  induction l as [|c rest IH]; [reflexivity|].
  cbn [sort_by_time fold_right]. fold (sort_by_time rest).
  rewrite insert_by_time_in, IH. cbn [In]. intuition.
Qed.

Lemma insert_by_time_increasing (c : Candle) (l : list Candle) :
  increasing (map time l) -> ~ In (time c) (map time l) ->
  increasing (map time (insert_by_time c l)).
Proof.
  induction l as [|y rest IH]; intros Hinc Hnotin; cbn [insert_by_time].
  - cbn. split; [intros ? []|exact I].
  - cbn [map increasing] in Hinc. destruct Hinc as (Hy & Hrest).
    destruct (time c <=? time y) eqn:E.
    + apply Z.leb_le in E. cbn [map increasing].
      assert (Hlt : time c < time y).
      { destruct (Z.eq_dec (time c) (time y)) as [Heq|Hne]; [|lia].
        exfalso. apply Hnotin. left. symmetry. exact Heq. }
      split; [|split; assumption].
      intros z [<-|Hz]; [exact Hlt|]. specialize (Hy z Hz). lia.
    + apply Z.leb_gt in E. cbn [map increasing]. split.
      * intros z Hz. apply in_map_iff in Hz. destruct Hz as (w & <- & Hw).
        apply (proj1 (insert_by_time_in _ _ _)) in Hw.
        destruct Hw as [->|Hw]; [exact E|].
        apply Hy. apply in_map. exact Hw.
      * apply IH; [exact Hrest|]. intros Hin. apply Hnotin. right. exact Hin.
Qed.

Lemma sort_by_time_increasing (l : list Candle) :
  NoDup (map time l) -> increasing (map time (sort_by_time l)).
Proof.
  induction l as [|c rest IH]; intros Hnd; [exact I|].
  cbn [map] in Hnd. apply NoDup_cons_iff in Hnd. destruct Hnd as (Hc & Hnd).
  cbn [sort_by_time fold_right]. fold (sort_by_time rest).
  apply insert_by_time_increasing; [apply IH; exact Hnd|].
  intros Hin. apply Hc. apply in_map_iff in Hin.
  destruct Hin as (w & Hw & Hin). apply (proj1 (sort_by_time_in _ _)) in Hin.
  rewrite <- Hw. apply in_map. exact Hin.
Qed.

Lemma grouped_times (ms : Z) (g : list (Z * Candle)) :
  grouped ms g -> map time (map snd g) = map fst g.
Proof.
  intros (_ & Hall). induction g as [|[k c] rest IH]; [reflexivity|].
  cbn [map fst snd]. f_equal.
  - apply (Hall k c). left. reflexivity.
  - apply IH. intros k' c' Hin. apply Hall. right. exact Hin.
Qed.

Lemma sort_groups_resampled (ms : Z) (g : list (Z * Candle)) :
  grouped ms g -> resampled ms (sort_by_time (map snd g)).
Proof.
  intros Hg. split.
  - apply sort_by_time_increasing. rewrite (grouped_times ms g Hg).
    exact (proj1 Hg).
  - intros c Hc. apply (proj1 (sort_by_time_in _ _)) in Hc.
    apply in_map_iff in Hc.
    destruct Hc as ([k c'] & E & Hin). cbn [snd] in E. subst c'.
    destruct (proj2 Hg k c Hin) as (Ht & Hk).
    unfold interval_start. rewrite Ht. exact Hk.
Qed.

Lemma interval_ms_nonzero (interval : string) (ms : Z) :
  interval_ms interval = Some ms -> ms <> 0.
Proof.
  unfold interval_ms.
  repeat match goal with
         | |- context [if ?b then _ else _] => destruct b
         end; intros [= <-]; lia || discriminate.
Qed.

Lemma resampleCandles_resampled (candles : list Candle) (interval : string)
  (ms : Z) :
  interval_ms interval = Some ms ->
  resampled ms (resampleCandles candles interval)
  \/ resampleCandles candles interval = candles
     /\ (interval = "1m" \/ candles = []).
Proof.
  intros Hms. unfold resampleCandles.
  destruct (String.eqb interval "1m") eqn:E1.
  { right. split; [reflexivity|]. left. apply String.eqb_eq. exact E1. }
  destruct (len candles =? 0) eqn:E2.
  { right. split; [reflexivity|]. right.
    apply Z.eqb_eq, len_nil_iff in E2. exact E2. }
  cbn [orb]. rewrite Hms. left.
  apply sort_groups_resampled. unfold group_candles.
  apply group_loop_grouped; [exact (interval_ms_nonzero _ _ Hms)|].
  split; [constructor | intros k c []].
Qed.

(** X24.  The resampled candles start on the interval and come in order: for
    the intervals 1h, 4h and 1d the time of every resampled candle is a
    multiple of the interval, and the times are strictly increasing (no
    two candles share an interval), in whatever order the given candles
    come. *)
Theorem resampled_times_are_aligned_and_increasing (candles : list Candle)
  (interval : string) (ms : Z) :
  interval_ms interval = Some ms ->
  increasing (map time (resampleCandles candles interval))
  /\ forall c, In c (resampleCandles candles interval) ->
               (ms | time c).
Proof.
  intros Hms.
  destruct (resampleCandles_resampled candles interval ms Hms)
    as [(Hinc & Hal)|(E & [-> | ->])].
  - split; [exact Hinc|]. intros c Hc. exists (time c / ms).
    symmetry. exact (Hal c Hc).
  - discriminate Hms.
  - rewrite E. split; [exact I | intros c []].
Qed.

(** The theorem at the seven one-minute bars, by the hour. *)
Lemma resampled_times_are_aligned_and_increasing_witness :
  increasing (map time (resampleCandles minute_bars "1h"))
  /\ forall c, In c (resampleCandles minute_bars "1h") ->
               (3600000 | time c).
Proof.
  apply resampled_times_are_aligned_and_increasing. reflexivity.
Defined.

Lemma new_group_same (c : Candle) : new_group (time c) c = c.
Proof. destruct c. reflexivity. Qed.

Lemma add_candle_fresh (k : Z) (c : Candle) (g : list (Z * Candle)) :
  ~ In k (map fst g) -> add_candle k c g = g ++ [(k, new_group k c)].
Proof.
  induction g as [|[key group] rest IH]; intros Hk; [reflexivity|].
  cbn [add_candle]. destruct (key =? k) eqn:E.
  - apply Z.eqb_eq in E. exfalso. apply Hk. left. exact E.
  - cbn [app]. f_equal. apply IH. intros Hin. apply Hk. right. exact Hin.
Qed.

Lemma group_loop_resampled (ms : Z) (l : list Candle) :
  forall g,
    increasing (map time l) ->
    (forall c, In c l -> interval_start ms c = time c) ->
    (forall k c, In k (map fst g) -> In c l -> k <> time c) ->
    fold_left
      (fun groupedCandles candle =>
         add_candle (interval_start ms candle) candle groupedCandles) l g
    = g ++ map (fun c => (time c, c)) l.
Proof.
  induction l as [|c rest IH]; intros g Hinc Hal Hfresh; cbn [fold_left].
  - cbn. rewrite app_nil_r. reflexivity.
  - cbn [map increasing] in Hinc. destruct Hinc as (Hc & Hinc).
    rewrite (Hal c (or_introl eq_refl)).
    rewrite add_candle_fresh, new_group_same.
    + rewrite IH.
      * rewrite <- app_assoc. reflexivity.
      * exact Hinc.
      * intros c' Hc'. apply Hal. right. exact Hc'.
      * intros k c' Hk Hc'. rewrite map_app, in_app_iff in Hk.
        destruct Hk as [Hk|[<-|[]]].
        -- apply (Hfresh k c' Hk). right. exact Hc'.
        -- cbn [fst]. specialize (Hc (time c') (in_map time _ _ Hc')). lia.
    + intros Hin. apply (Hfresh (time c) c Hin); [left|]; reflexivity.
Qed.

Lemma sort_by_time_sorted (l : list Candle) :
  increasing (map time l) -> sort_by_time l = l.
Proof.
  induction l as [|c rest IH]; intros Hinc; [reflexivity|].
  cbn [map increasing] in Hinc. destruct Hinc as (Hc & Hinc).
  cbn [sort_by_time fold_right]. fold (sort_by_time rest).
  rewrite (IH Hinc). destruct rest as [|y rest']; [reflexivity|].
  cbn [insert_by_time].
  assert (H : time c < time y) by (apply Hc; left; reflexivity).
  destruct (time c <=? time y) eqn:E; [reflexivity|].
  apply Z.leb_gt in E. lia.
Qed.

(** X25.  Resampling twice is resampling once: the candles that
    [resampleCandles] returns are returned unchanged when they are
    resampled again to the same interval, for every interval name and
    every list of candles. *)
Theorem resampling_is_idempotent (candles : list Candle) (interval : string) :
  resampleCandles (resampleCandles candles interval) interval
  = resampleCandles candles interval.
Proof.
  destruct (interval_ms interval) as [ms|] eqn:Hms.
  - destruct (resampleCandles_resampled candles interval ms Hms)
      as [(Hinc & Hal)|(E & [-> | ->])].
    + revert Hinc Hal. generalize (resampleCandles candles interval).
      intros out Hinc Hal. unfold resampleCandles.
      destruct (String.eqb interval "1m" || (len out =? 0)); [reflexivity|].
      rewrite Hms. unfold group_candles.
      rewrite (group_loop_resampled ms out [] Hinc Hal)
        by (intros k c []).
      cbn [app]. rewrite map_map. cbn [snd]. rewrite map_id.
      apply sort_by_time_sorted. exact Hinc.
    + discriminate Hms.
    + rewrite E. exact E.
  - unfold resampleCandles at 2. rewrite Hms.
    destruct (String.eqb interval "1m" || (len candles =? 0)).
    + unfold resampleCandles. rewrite Hms.
      destruct (String.eqb interval "1m" || (len candles =? 0)); reflexivity.
    + unfold resampleCandles. rewrite Hms.
      destruct (String.eqb interval "1m" || (len candles =? 0)); reflexivity.
Qed.

(* ===================================================================== *)
(** * Saving the trades *)
(* ===================================================================== *)

Lemma insert_rows_halt (trades : list LedgerEntry) (ts : Z) (r : string)
  (b : num) :
  In (HaltEntry ts r b) trades ->
  forall runningBalance, insert_rows runningBalance trades = None.
Proof.
  induction trades as [|e rest IH]; intros Hin rb; [destruct Hin|].
  cbn [insert_rows]. destruct Hin as [->|Hin]; [reflexivity|].
  destruct (trade_row rb e) as [row|]; [|reflexivity].
  rewrite (IH Hin). reflexivity.
Qed.

(** X26.  A run that the strategy stopped saves none of its trades: when the
    ledger holds the record of a stop, building the row for it throws,
    the transaction is rolled back and [saveTrades] returns [false] with
    no row in the table, also for the trades closed before the stop. *)
Theorem stopped_run_saves_no_trade (simulationId : option Z)
  (trades : list LedgerEntry) (initialBalance : num) (ts : Z) (r : string)
  (b : num) :
  In (HaltEntry ts r b) trades ->
  saveTrades simulationId trades initialBalance = (false, []).
Proof.
  intros Hin. unfold saveTrades.
  rewrite (insert_rows_halt trades ts r b Hin).
  destruct simulationId as [[| |]|]; reflexivity.
Qed.

(** The theorem at the ledger of the run into bankruptcy: one closed
    trade, then the stop. *)
Lemma stopped_run_saves_no_trade_witness :
  closed_trades (tradeHistory crash_run_state) <> []
  /\ saveTrades (Some 1) (tradeHistory crash_run_state) (nZ 10000)
     = (false, []).
Proof.
  split; [discriminate|].
  eapply stopped_run_saves_no_trade. right. left. reflexivity.
Defined.

Lemma last_cons_default {A} (x : A) (l : list A) (d d' : A) :
  last (x :: l) d = last (x :: l) d'.
Proof.
  revert x. induction l as [|y l IH]; intros x; [reflexivity|].
  change (last (x :: y :: l) d) with (last (y :: l) d).
  change (last (x :: y :: l) d') with (last (y :: l) d'). apply IH.
Qed.

Lemma profits_fold_finite (trades : list LedgerEntry) :
  forall (acc : num) (P : Qc),
    fold_left
      (fun acc e =>
         match e with
         | ClosedTrade t => (acc + profit t)%num
         | HaltEntry _ _ _ => acc
         end) trades acc = Fin P ->
    exists a, acc = Fin a.
Proof.
  induction trades as [|e rest IH]; intros acc P; cbn [fold_left].
  - intros ->. eauto.
  - intros H. destruct (IH _ _ H) as (a & Ha). destruct e as [t|ts r b].
    + destruct (add_fin_inv _ _ _ Ha) as (x & y & -> & _). eauto.
    + eauto.
Qed.

Lemma running_balance_after (trades : list LedgerEntry) :
  forall (r a P : Qc) (rows : list TradeRow),
    insert_rows (Fin r) trades = Some rows ->
    fold_left
      (fun acc e =>
         match e with
         | ClosedTrade t => (acc + profit t)%num
         | HaltEntry _ _ _ => acc
         end) trades (Fin a) = Fin P ->
    last (map new_balance rows) (Fin r) = Fin (r + (P - a)).
Proof.
  induction trades as [|e rest IH]; intros r a P rows; cbn [insert_rows].
  - intros [= <-] [= <-]. cbn. f_equal. ring.
  - destruct e as [t|ts rs b]; cbn [trade_row]; [|discriminate].
    destruct (valid_time _ && valid_time _); [|discriminate].
    cbn [new_balance fold_left]. intros Hrows HP.
    destruct (profits_fold_finite rest _ _ HP) as (a' & Ha').
    destruct (add_fin_inv _ _ _ Ha') as (a0 & p & _ & Hp).
    rewrite Hp in Hrows, HP. cbn [add] in Hrows, HP.
    destruct (insert_rows (Fin (r + p)) rest) as [rows'|] eqn:Hrows';
      [|discriminate].
    injection Hrows as <-. cbn [map new_balance].
    pose proof (IH (r + p)%Qc (a + p)%Qc P rows' Hrows' HP) as Hlast.
    destruct rows' as [|row' rows''].
    + cbn in Hlast |- *. rewrite Hlast. f_equal. ring.
    + cbn [map] in Hlast.
      change (last (Fin (r + p) :: map new_balance (row' :: rows'')) (Fin r))
        with (last (map new_balance (row' :: rows'')) (Fin r)).
      cbn [map].
      rewrite (last_cons_default _ _ (Fin r) (Fin (r + p))), Hlast.
      f_equal. ring.
Qed.

(** X27.  The balance column of the saved trades leaves the entry fees
    out: for a run that ends with no position open, when [saveTrades]
    succeeds the [new_balance] of the last saved row (the initial balance
    when there is no row) is, in exact arithmetic, the run's final
    balance plus the entry fees the run paid, because the rows add up the
    trades' profits, which carry the exit fee alone (the program's
    binary64 sums can differ from this in the last digits). *)
Theorem saved_balance_omits_entry_fees (config : Config)
  (priceData : list Candle) (b0 fee : Qc) (n : nat) (st : SimState)
  (simulationId : option Z) (rows : list TradeRow) :
  initialBalance config = Fin b0 ->
  feePercentage config = Fin fee ->
  sim_loop config priceData n first_bar (initial_state config) = Ok st ->
  currentPosition st = None ->
  saveTrades simulationId (tradeHistory st) (initialBalance config)
  = (true, rows) ->
  last (map new_balance rows) (initialBalance config)
  = (balance (tradingAccount st)
     + entry_fees_paid config (tradeHistory st))%num.
Proof.
  intros Hb0 Hfee Hloop Hpos Hsave.
  assert (Hacc : accounted config b0 fee st).
  { eapply sim_loop_accounted; [exact Hfee | | exact Hloop].
    apply initial_accounted. exact Hb0. }
  destruct Hacc as (b & P & F & Hb & HP & HF & Hrel).
  rewrite Hpos in Hrel. rewrite Hb, HF, Hb0. cbn [add].
  unfold saveTrades in Hsave. rewrite Hb0 in Hsave.
  assert (Hrows : insert_rows (Fin b0) (tradeHistory st) = Some rows).
  { destruct simulationId as [[| |]|]; try discriminate;
      destruct (insert_rows (Fin b0) (tradeHistory st));
      try discriminate; injection Hsave as <-; reflexivity. }
  rewrite (running_balance_after _ b0 (qz 0) P rows Hrows HP).
  f_equal. rewrite Hrel. change (qz 0) with 0%Qc. ring.
Qed.

(** The theorem at the run over 56 rising bars: three trades, all
    closed. *)
Lemma saved_balance_omits_entry_fees_witness :
  last (map new_balance rising_run_rows) (initialBalance default_config)
  = (balance (tradingAccount rising_run_state)
     + entry_fees_paid default_config (tradeHistory rising_run_state))%num.
Proof.
  apply (saved_balance_omits_entry_fees default_config (rising_bars 56)
           (qz 10000) (qfrac 75 1000) 6 rising_run_state (Some 1)
           rising_run_rows).
  - reflexivity.
  - reflexivity.
  - vm_compute. reflexivity.
  - reflexivity.
  - vm_compute. reflexivity.
Defined.

(* ===================================================================== *)
(** * Bollinger bands *)
(* ===================================================================== *)

Lemma qc_square_nonneg (x : Qc) : (qz 0 <= x * x)%Qc.
Proof.
  unfold qz. qc2q.
  destruct (Qlt_le_dec x 0) as [L|L].
  - assert (H : (0 <= (- x) * (- x))%Q)
      by (apply Qmult_le_0_compat; lra).
    lra.
  - apply Qmult_le_0_compat; assumption.
Qed.

(** X28.  The bands enclose the moving average: for a square root that
    sends finite numbers that are not negative to such numbers (as
    [Math.sqrt] does), a non-empty series, a positive period and a
    multiplier that is not negative, [calculateBollingerBands] throws
    nothing, its middle band is the SMA of the same period, and the
    lower band is at most and the upper band at least the middle one. *)
Theorem bollinger_bands_enclose_the_average (sqrt : num -> num)
  (candles : list Candle) (period : Z) (multiplier : Qc) :
  (forall x, nonneg x -> nonneg (sqrt x)) ->
  candles <> [] -> 0 < period -> (qz 0 <= multiplier)%Qc ->
  exists lo mid up,
    calculateBollingerBands sqrt candles period (Fin multiplier)
    = Ok (mkBands (Fin up) (Fin mid) (Fin lo))
    /\ calculateSMA candles period = Ok (Fin mid)
    /\ (lo <= mid)%Qc /\ (mid <= up)%Qc.
Proof.
  intros Hsqrt Hne Hp Hm. unfold calculateBollingerBands, calculateSMA.
  assert (Hlen : 0 < len candles).
  { pose proof (len_nonneg candles).
    destruct (Z.eq_dec (len candles) 0) as [E|E];
      [apply len_nil_iff in E; contradiction | lia]. }
  destruct (len candles <? period) eqn:G.
  - destruct (get_ok candles (len candles - 1)) as (c & ->); [lia|].
    cbn [bind]. exists (close c), (close c), (close c).
    split; [reflexivity|]. split; [reflexivity|].
    split; apply Qcle_refl.
  - apply Z.ltb_ge in G.
    destruct (sum_closes_finite close candles (len candles - period)
                (len candles) (candle_closes _)) as (s & ->); [lia | lia |].
    cbn [bind]. rewrite div_by_positive by lia.
    use_loop (fun (_ : Z) (acc : num) => nonneg acc).
    + lia.
    + exists (qz 0). split; [reflexivity | discriminate].
    + intros j t Hj (a & -> & Ha).
      destruct (get_ok candles j) as (c & ->); [lia|].
      cbn [bind]. eexists. split; [reflexivity|].
      unfold close_of, Candle_HasClose. cbn [sub neg add mul].
      eexists. split; [reflexivity|].
      apply qc_add_nonneg; [exact Ha | apply qc_square_nonneg].
    + destruct Hinv as (v & -> & Hv).
      rewrite div_by_positive by lia.
      destruct (Hsqrt (Fin (v / qz period))) as (sd & -> & Hsd).
      { eexists. split; [reflexivity|].
        apply qc_div_nonneg; [exact Hv | apply (qz_lt 0); lia]. }
      cbn [mul add sub neg].
      eexists _, _, _. split; [reflexivity|]. split; [reflexivity|].
      pose proof (qc_mul_nonneg _ _ Hm Hsd) as Hw.
      revert Hw. generalize (multiplier * sd)%Qc. generalize (s / qz period)%Qc.
      intros mid w Hw. split.
      * unfold qz in *. qc2q. lra.
      * unfold qz in *. qc2q. lra.
Qed.

(** The theorem at twenty rising bars, period 5, two deviations, with the
    identity in the place of the square root. *)
Lemma bollinger_bands_enclose_the_average_witness :
  exists lo mid up,
    calculateBollingerBands (fun x => x) (rising_bars 20) 5 (Fin (qz 2))
    = Ok (mkBands (Fin up) (Fin mid) (Fin lo))
    /\ calculateSMA (rising_bars 20) 5 = Ok (Fin mid)
    /\ (lo <= mid)%Qc /\ (mid <= up)%Qc.
Proof.
  apply bollinger_bands_enclose_the_average.
  - intros x Hx. exact Hx.
  - discriminate.
  - reflexivity.
  - discriminate.
Defined.

(* ===================================================================== *)
(** * The range of the stochastic oscillator *)
(* ===================================================================== *)

(** The loop rule for an invariant that does not mention the index; the
    loop may be empty. *)
Lemma for_range_pres {St} (P : St -> Prop) (body : Z -> St -> result St)
  (a b : Z) (s : St) :
  P s ->
  (forall j t, a <= j < b -> P t -> exists t', body j t = Ok t' /\ P t') ->
  exists s', for_range a b body s = Ok s' /\ P s'.
Proof.
  intros Hs Hbody. destruct (Z_le_gt_dec a b) as [Hab|Hab].
  - apply (@for_range_inv _ (fun _ => P) body a b s Hab Hs). exact Hbody.
  - exists s. split; [apply for_range_empty; lia | exact Hs].
Qed.

(** The highest high and the lowest low of a window bound every bar of
    the window. *)
Lemma high_low_bounds (candles : list Candle) (a b : Z) :
  0 <= a <= b -> b < len candles ->
  exists H L,
    high_low candles a b = Ok (Fin H, Fin L)
    /\ forall j c, a <= j <= b -> get candles j = Ok c ->
                   (high c <= H)%Qc /\ (L <= low c)%Qc.
Proof.
  intros Hab Hb. unfold high_low.
  destruct (@for_range_inv _
              (fun i (hl : num * num) =>
                 (i = a /\ hl = (NInf, PInf))
                 \/ (a < i
                     /\ exists H L,
                          hl = (Fin H, Fin L)
                          /\ forall j c, a <= j < i -> get candles j = Ok c ->
                                         (high c <= H)%Qc /\ (L <= low c)%Qc))
              (fun j (hl : num * num) =>
                 let '(highestHigh, lowestLow) := hl in
                 c <- get candles j ;;
                 Ok (max highestHigh (high_of c), min lowestLow (low_of c)))
              a (b + 1) (NInf, PInf)) as (hl & Hhl & Hinv).
  - lia.
  - left. auto.
  - intros j [hh ll] Hj Hinv.
    destruct (get_ok candles j) as (c & Hc); [lia|].
    rewrite Hc. cbn [bind]. eexists. split; [reflexivity|]. right.
    split; [lia|].
    destruct Hinv as [(-> & [= -> ->])|(Haj & H & L & [= -> ->] & Hall)].
    + exists (high c), (low c). split; [reflexivity|].
      intros k c' Hk Hc'. assert (k = a) by lia. subst k.
      assert (c' = c) by congruence. subst c'.
      split; apply Qcle_refl.
    + unfold high_of, low_of. cbn [max min ltb].
      destruct (q_ltb H (high c)) eqn:E1; destruct (q_ltb (low c) L) eqn:E2;
        q_tests; eexists _, _; (split; [reflexivity|]);
        intros k c' Hk Hc';
        (destruct (Z.eq_dec k j) as [->|Hne];
         [assert (c' = c) by congruence; subst c'
         |destruct (Hall k c') as (Hh & Hl); [lia | exact Hc' |]]);
        split;
        first [ apply Qcle_refl
              | assumption
              | apply Qclt_le_weak; assumption
              | eapply Qcle_trans; [eassumption|];
                apply Qclt_le_weak; assumption
              | eapply Qcle_trans; [|eassumption];
                apply Qclt_le_weak; assumption ].
  - destruct Hinv as [(Hba & _)|(_ & H & L & -> & Hall)]; [lia|].
    exists H, L. split; [exact Hhl|].
    intros j c Hj. apply Hall. lia.
Qed.

(** [(c - L) / (H - L) * 100] for [L <= c <= H] and [L < H]. *)
Lemma percent_of_range (c L H : Qc) :
  (L <= c)%Qc -> (c <= H)%Qc -> (L < H)%Qc ->
  within (qz 0) (qz 100) ((Fin c - Fin L) / (Fin H - Fin L) * nZ 100)%num.
Proof.
  intros H1 H2 H3. cbn [sub neg add].
  assert (Hd : (qz 0 < H + - L)%Qc) by (unfold qz in *; qc2q; lra).
  rewrite (div_finite _ _ (positive_nonzero _ Hd)). unfold nZ. cbn [mul].
  eexists. split; [reflexivity|].
  destruct (qc_div_within (c + - L) (H + - L) (qz 0) (qz 1) Hd) as (Ha & Hb).
  - unfold qz in *. qc2q. lra.
  - unfold qz in *. qc2q. change (inject_Z 1) with 1%Q. lra.
  - revert Ha Hb. generalize ((c + - L) / (H + - L))%Qc. intros r Ha Hb.
    unfold qz in *. qc2q.
    change (inject_Z 1) with 1%Q in *. change (inject_Z 100) with 100%Q.
    split; lra.
Qed.

Lemma raw_k_within (candles : list Candle) (period i : Z) :
  (forall c, In c candles -> proper_bar c) ->
  0 < period -> period - 1 <= i < len candles ->
  exists r, raw_k candles period i = Ok r /\ within (qz 0) (qz 100) r.
Proof.
  intros Hbars Hp Hi. unfold raw_k.
  destruct (high_low_bounds candles (i - period + 1) i)
    as (H & L & -> & Hall); [lia | lia |].
  cbn [bind].
  destruct (get_ok candles i) as (c & Hc); [lia|].
  rewrite Hc. cbn [bind]. eexists. split; [reflexivity|].
  destruct (Hall i c) as (Hh & Hl); [lia | exact Hc |].
  destruct (Hbars c (get_in _ _ _ Hc)) as (B1 & B2 & B3).
  unfold close_of, Candle_HasClose.
  apply percent_of_range.
  - eapply Qcle_trans; eassumption.
  - eapply Qcle_trans; eassumption.
  - eapply Qcle_lt_trans; [exact Hl|].
    eapply Qclt_le_trans; [exact B3 | exact Hh].
Qed.

Lemma item_num_within (xs : list num) (i : Z) (lo hi : Qc) :
  Forall (within lo hi) xs -> 0 <= i < len xs -> within lo hi (item_num xs i).
Proof.
  intros Hall Hi. rewrite Forall_forall in Hall.
  apply Hall, item_num_in, Hi.
Qed.

Lemma average3_within (x y z : num) (lo hi : Qc) :
  within lo hi x -> within lo hi y -> within lo hi z ->
  within lo hi ((x + y + z) / nZ 3)%num.
Proof.
  intros (a & -> & Ha1 & Ha2) (b & -> & Hb1 & Hb2) (c & -> & Hc1 & Hc2).
  cbn [add]. change (nZ 3) with (ofZ 3). rewrite div_by_positive by lia.
  eexists. split; [reflexivity|].
  apply qc_div_within; [reflexivity | |];
    unfold qz in *; qc2q; change (inject_Z 3) with 3%Q; lra.
Qed.

Lemma smooth_pass_within (values : list num) (lo hi : Qc) :
  Forall (within lo hi) values ->
  exists out, smooth_pass values = Ok out /\ Forall (within lo hi) out.
Proof.
  intros Hall. unfold smooth_pass.
  apply (for_range_pres (Forall (within lo hi))); [constructor|].
  intros j t Hj Ht. eexists. split; [reflexivity|].
  apply Forall_app. split; [exact Ht|]. constructor; [|constructor].
  apply average3_within; apply item_num_within; (exact Hall || lia).
Qed.

Lemma item_val_percent (xs : list num) (i : Z) :
  Forall (within (qz 0) (qz 100)) xs -> percent_or_undefined (item_val xs i).
Proof.
  intros Hall. unfold item_val, item.
  destruct (i <? 0); [left; reflexivity|].
  destruct (nth_error xs (Z.to_nat i)) eqn:N; [|left; reflexivity].
  right. eexists. split; [reflexivity|].
  rewrite Forall_forall in Hall. apply Hall.
  eapply nth_error_In. exact N.
Qed.

Lemma sum_items_within (xs : list num) (a b : Z) (lo hi : Qc) :
  Forall (within lo hi) xs -> 0 <= a <= b -> b <= len xs ->
  exists s,
    for_range a b (fun i sum => Ok (sum + item_num xs i)%num) (nZ 0)
    = Ok (Fin s)
    /\ (qz (b - a) * lo <= s)%Qc /\ (s <= qz (b - a) * hi)%Qc.
Proof.
  intros Hall Hab Hb.
  destruct (@for_range_inv _
              (fun i acc => exists s, acc = Fin s
                                      /\ (qz (i - a) * lo <= s)%Qc
                                      /\ (s <= qz (i - a) * hi)%Qc)
              (fun i sum => Ok (sum + item_num xs i)%num)
              a b (nZ 0)) as (acc & Hacc & s & -> & Hs).
  - lia.
  - exists (qz 0). rewrite Z.sub_diag. split; [reflexivity|].
    assert (E : forall x, (qz 0 * x = qz 0)%Qc)
      by (intros x; change (qz 0) with 0%Qc; ring).
    rewrite !E. split; discriminate.
  - intros j t Hj (s & -> & Hs1 & Hs2).
    destruct (item_num_within xs j lo hi Hall) as (x & -> & Hx1 & Hx2);
      [lia|].
    eexists. split; [reflexivity|]. cbn [add]. eexists.
    split; [reflexivity|].
    replace (j + 1 - a) with ((j - a) + 1) by lia.
    apply sum_step_within; assumption.
  - eauto.
Qed.

(** X29.  The stochastic oscillator is a percentage: on bars whose close lies
    between their low and their high and whose high is above their low,
    for a positive period and a positive %D length,
    [calculateStochastic] throws nothing, and each of %K and %D is a
    number between 0 and 100, or [undefined] when the smoothing has left
    no value. *)
Theorem stochastic_is_a_percentage (candles : list Candle)
  (period smoothK smoothD : Z) :
  (forall c, In c candles -> proper_bar c) ->
  0 < period -> 0 < smoothD ->
  exists st,
    calculateStochastic candles period smoothK smoothD = Ok st
    /\ percent_or_undefined (k st) /\ percent_or_undefined (d st).
Proof.
  intros Hbars Hp Hd. unfold calculateStochastic.
  destruct (len candles <? period) eqn:G.
  { eexists. split; [reflexivity|].
    split; right; eexists; (split; [reflexivity|]); exists (qz 50);
      (split; [reflexivity|]); split; discriminate. }
  apply Z.ltb_ge in G.
  destruct (@for_range_inv _
              (fun (_ : Z) raws => Forall (within (qz 0) (qz 100)) raws)
              (fun i raws =>
                 rawK <- raw_k candles period i ;; Ok (raws ++ [rawK]))
              (period - 1) (len candles) []) as (raws & -> & Hraws).
  { lia. }
  { constructor. }
  { intros j t Hj Ht.
    destruct (raw_k_within candles period j Hbars Hp) as (r & -> & Hr); [lia|].
    cbn [bind]. eexists. split; [reflexivity|].
    apply Forall_app. split; [exact Ht | constructor; [exact Hr|constructor]]. }
  cbn [bind].
  destruct (for_range_pres (Forall (within (qz 0) (qz 100)))
              (fun _ values => smooth_pass values) 0 smoothK raws Hraws)
    as (smoothed & -> & Hsm).
  { intros j t _ Ht. apply smooth_pass_within. exact Ht. }
  cbn [bind].
  destruct (len smoothed >=? smoothD) eqn:GD.
  - rewrite Z.geb_leb in GD. apply Z.leb_le in GD.
    destruct (sum_items_within smoothed (len smoothed - smoothD)
                (len smoothed) (qz 0) (qz 100) Hsm)
      as (s & -> & Hs1 & Hs2); [lia | lia |].
    cbn [bind]. rewrite div_by_positive by lia.
    eexists. split; [reflexivity|]. cbn [k d].
    split; [apply item_val_percent; exact Hsm|].
    right. eexists. split; [reflexivity|]. eexists. split; [reflexivity|].
    replace (len smoothed - (len smoothed - smoothD)) with smoothD
      in Hs1, Hs2 by lia.
    apply qc_div_within; [apply (qz_lt 0); lia | assumption..].
  - cbn [bind]. eexists. split; [reflexivity|]. cbn [k d].
    split; apply item_val_percent; exact Hsm.
Qed.


(** The theorem at twenty rising bars with the default arguments. *)
Lemma stochastic_is_a_percentage_witness :
  exists st,
    calculateStochastic (rising_bars 20) 14 1 3 = Ok st
    /\ percent_or_undefined (k st) /\ percent_or_undefined (d st).
Proof.
  apply stochastic_is_a_percentage; [|reflexivity|reflexivity].
  intros c Hc. apply in_map_iff in Hc. destruct Hc as (i & <- & _).
  unfold proper_bar, rising_bar. cbn [low close high].
  generalize (qz (100 + Z.of_nat i)). intros p.
  repeat split; unfold qz; qc2q; change (inject_Z 1) with 1%Q; lra.
Defined.

(* ===================================================================== *)
(** * The range of the ADX *)
(* ===================================================================== *)

Lemma qc_zero_of_bounds (x : Qc) :
  (qz 0 <= x)%Qc -> (x <= qz 0)%Qc -> x = qz 0.
Proof. intros H1 H2. apply Qcle_antisym; assumption. Qed.

(** The directional index of three smoothed sums that are not negative
    is [NaN] or a percentage. *)
Lemma dx_of_ok (tr p m : num) :
  nonneg tr -> nonneg p -> nonneg m -> nan_or_percent (dx_of tr p m).
Proof.
  intros (t & -> & Ht) (a & -> & Ha) (b & -> & Hb). unfold dx_of.
  destruct (q_eqb t (qz 0)) eqn:Et.
  - left. unfold nZ. cbn [div]. rewrite Et.
    destruct (q_sign a), (q_sign b); reflexivity.
  - assert (Ht0 : (qz 0 < t)%Qc).
    { destruct (Qc_dec (qz 0) t) as [[L|L]|L]; [exact L| |].
      - destruct (Qclt_not_le _ _ L Ht).
      - symmetry in L. apply q_eqb_eq in L. congruence. }
    rewrite !(div_finite _ t (positive_nonzero t Ht0)).
    unfold nZ. cbn [mul sub neg add].
    assert (Hx : (qz 0 <= a / t * qz 100)%Qc).
    { apply qc_mul_nonneg; [apply qc_div_nonneg; assumption | discriminate]. }
    assert (Hy : (qz 0 <= b / t * qz 100)%Qc).
    { apply qc_mul_nonneg; [apply qc_div_nonneg; assumption | discriminate]. }
    revert Hx Hy. generalize (a / t * qz 100)%Qc, (b / t * qz 100)%Qc.
    intros x y Hx Hy.
    assert (Habs : exists d, abs (Fin (x + - y)) = Fin d
                             /\ (qz 0 <= d)%Qc /\ (d <= x + y)%Qc).
    { cbn [abs]. destruct (q_ltb (x + - y) (qz 0)) eqn:E; q_tests;
        eexists; (split; [reflexivity|]); unfold qz in *; qc2q; split; lra. }
    destruct Habs as (d & -> & Hd0 & Hd1).
    destruct (q_eqb (x + y) (qz 0)) eqn:Es.
    + left. cbn [div]. rewrite Es.
      apply q_eqb_eq in Es. rewrite Es in Hd1.
      rewrite (qc_zero_of_bounds d Hd0 Hd1). reflexivity.
    + assert (Hs0 : (qz 0 < x + y)%Qc).
      { destruct (Qc_dec (qz 0) (x + y)) as [[L|L]|L]; [exact L| |].
        - exfalso. apply (Qclt_not_le _ _ L).
          apply qc_add_nonneg; assumption.
        - symmetry in L. apply q_eqb_eq in L. congruence. }
      right. rewrite (div_finite _ _ (positive_nonzero _ Hs0)). cbn [mul].
      eexists. split; [reflexivity|].
      destruct (qc_div_within d (x + y) (qz 0) (qz 1) Hs0) as (R0 & R1).
      * revert Hd0. generalize (x + y)%Qc. intros s Hd0.
        unfold qz in *. qc2q. lra.
      * revert Hd1. generalize (x + y)%Qc. intros s Hd1.
        unfold qz in *. qc2q. change (inject_Z 1) with 1%Q. lra.
      * revert R0 R1. generalize (d / (x + y))%Qc. intros r R0 R1.
        unfold qz in *. qc2q.
        change (inject_Z 1) with 1%Q in *.
        change (inject_Z 100) with 100%Q. split; lra.
Qed.

(** Rounding to two decimals keeps a percentage a percentage. *)
Lemma toFixed2_percent (x : num) :
  nan_or_percent x -> nan_or_percent (toFixed2 x).
Proof.
  intros [->|(a & -> & Ha0 & Ha1)]; [left; reflexivity|]. right.
  cbn [toFixed2].
  destruct (q_ltb a (qz 0)) eqn:E.
  { apply q_ltb_lt in E. destruct (Qclt_not_le _ _ E Ha0). }
  eexists. split; [reflexivity|]. unfold round2.
  set (z := Qfloor (a * qfrac 100 1 + qfrac 1 2)%Qc).
  assert (Hz : 0 <= z <= 10000).
  { subst z. split.
    - change 0 with (Qfloor 0). apply Qfloor_resp_le.
      unfold qz, qfrac in *. qc2q. lra.
    - change 10000 with (Qfloor (20001 # 2)). apply Qfloor_resp_le.
      unfold qz, qfrac in *. qc2q.
      change (inject_Z 100) with 100%Q in *. lra. }
  unfold qz, Qcle. cbn [this Q2Qc]. rewrite !Qred_correct.
  unfold Qle. cbn [Qnum Qden inject_Z]. lia.
Qed.

Lemma dm_step_ok (candles : list Candle) (i : Z) (s : DMSeries) :
  1 <= i < len candles -> dm_series_ok s ->
  exists s', dm_step candles i s = Ok s' /\ dm_series_ok s'.
Proof.
  intros Hi (L1 & L2 & F1 & F2 & F3). unfold dm_step.
  destruct (get_ok candles i) as (c & ->); [lia|].
  destruct (get_ok candles (i - 1)) as (p & ->); [lia|].
  destruct (true_range_nonneg candles i Hi) as (tr & -> & Htr).
  cbn [bind]. eexists. split; [reflexivity|].
  unfold dm_series_ok. cbn [plusDM minusDM trueRange].
  rewrite !len_app. change (len [tr]) with 1.
  split; [change (len [_]) with 1; lia|].
  split; [change (len [_]) with 1; lia|].
  assert (Hzero : nonneg (nZ 0)).
  { exists (qz 0). split; [reflexivity | discriminate]. }
  split; [|split].
  - apply Forall_app. split; [exact F1|]. constructor; [|constructor].
    destruct (_ && _) eqn:E; [|exact Hzero].
    apply andb_true_iff in E. destruct E as (_ & E).
    unfold high_of in *. cbn [sub neg add] in *.
    unfold gtb, nZ in E. cbn [ltb] in E. apply q_ltb_lt in E.
    eexists. split; [reflexivity|]. apply Qclt_le_weak. exact E.
  - apply Forall_app. split; [exact F2|]. constructor; [|constructor].
    destruct (_ && _) eqn:E; [|exact Hzero].
    apply andb_true_iff in E. destruct E as (_ & E).
    unfold low_of in *. cbn [sub neg add] in *.
    unfold gtb, nZ in E. cbn [ltb] in E. apply q_ltb_lt in E.
    eexists. split; [reflexivity|]. apply Qclt_le_weak. exact E.
  - apply Forall_app. split; [exact F3|]. constructor; [exact Htr|constructor].
Qed.

Lemma fold_add_nonneg (xs : list num) :
  Forall nonneg xs -> forall acc, nonneg acc -> nonneg (fold_left add xs acc).
Proof.
  induction 1 as [|x xs Hx _ IH]; intros acc Hacc; [exact Hacc|].
  cbn [fold_left]. apply IH.
  destruct Hacc as (a & -> & Ha). destruct Hx as (b & -> & Hb).
  eexists. split; [reflexivity|]. apply qc_add_nonneg; assumption.
Qed.

Lemma sum_first_nonneg (xs : list num) (period : Z) :
  Forall nonneg xs -> nonneg (sum_first xs period).
Proof.
  intros Hall. unfold sum_first, slice. apply fold_add_nonneg.
  - apply Forall_forall. intros x Hx.
    rewrite Forall_forall in Hall. apply Hall.
    rewrite <- (firstn_skipn (Z.to_nat 0) xs). apply in_or_app. right.
    rewrite <- (firstn_skipn (Z.to_nat (period - 0))
                  (skipn (Z.to_nat 0) xs)).
    apply in_or_app. left. exact Hx.
  - exists (qz 0). split; [reflexivity | discriminate].
Qed.

(** One step of Wilder's smoothing, [s - s / period + x]. *)
Lemma wilder_nonneg (s x : num) (period : Z) :
  0 < period -> nonneg s -> nonneg x ->
  nonneg (s - s / ofZ period + x)%num.
Proof.
  intros Hp (a & -> & Ha) (b & -> & Hb).
  rewrite div_by_positive by exact Hp. cbn [sub neg add].
  eexists. split; [reflexivity|].
  assert (H1 : (qz 1 <= qz period)%Qc) by (apply qz_le; lia).
  assert (H0 : (qz 0 < qz period)%Qc) by (apply qz_lt; lia).
  destruct (qc_div_within a (qz period) (qz 0) a H0) as (R0 & R1).
  - assert (E : (qz period * qz 0 = qz 0)%Qc)
      by (change (qz 0) with 0%Qc; ring).
    rewrite E. exact Ha.
  - revert H1. generalize (qz period). intros P H1.
    unfold qz in *. qc2q. change (inject_Z 1) with 1%Q in *.
    assert (G : (0 <= (P - 1) * a)%Q) by (apply Qmult_le_0_compat; lra).
    lra.
  - revert R0 R1. generalize (a / qz period)%Qc. intros d R0 R1.
    unfold qz in *. qc2q. lra.
Qed.

(** X30.  The ADX is a percentage: for a positive period [calculateADX] throws
    nothing on any series of bars; its result is [null] exactly below
    [period + 2] bars, and otherwise [NaN] or a number between 0 and
    100. *)
Theorem adx_is_a_percentage (candles : list Candle) (period : Z) :
  0 < period ->
  exists v,
    calculateADX candles period = Ok v
    /\ if len candles <? period + 2 then v = Null
       else exists x, v = Number x /\ nan_or_percent x.
Proof.
  intros Hp. unfold calculateADX.
  destruct (len candles <? period + 2) eqn:G; [eauto|].
  apply Z.ltb_ge in G.
  destruct (@for_range_inv _
              (fun i s => dm_series_ok s /\ len (trueRange s) = i - 1)
              (dm_step candles) 1 (len candles) (mkDM [] [] []))
    as (s & -> & Hs & Hlen).
  { lia. }
  { split; [|reflexivity]. unfold dm_series_ok. cbn.
    repeat split; constructor. }
  { intros j t Hj (Ht & Hl).
    destruct (dm_step_ok candles j t Hj Ht) as (t' & Ht' & Hok).
    exists t'. split; [exact Ht'|]. split; [exact Hok|].
    revert Ht'. unfold dm_step.
    destruct (get candles j) as [c| |]; cbn [bind]; try discriminate.
    destruct (get candles (j - 1)) as [p| |]; cbn [bind]; try discriminate.
    destruct (true_range candles j) as [tr| |]; cbn [bind];
      try discriminate.
    intros [= <-]. cbn [trueRange]. rewrite len_app.
    change (len [tr]) with 1. lia. }
  cbn [bind].
  destruct Hs as (L1 & L2 & F1 & F2 & F3).
  cbv zeta.
  match goal with
  | |- context [for_range ?a ?b ?body ?s0] =>
      destruct (for_range_pres adx_state_ok body a b s0)
        as (final & -> & Hfinal)
  end.
  { unfold adx_state_ok. cbn [smoothedTR smoothedPlusDM smoothedMinusDM DX].
    pose proof (sum_first_nonneg _ period F3).
    pose proof (sum_first_nonneg _ period F1).
    pose proof (sum_first_nonneg _ period F2).
    repeat split; try assumption. apply dx_of_ok; assumption. }
  { intros j t Hj (T1 & T2 & T3 & _).
    eexists. split; [reflexivity|].
    unfold adx_state_ok. cbn [smoothedTR smoothedPlusDM smoothedMinusDM DX].
    assert (N1 : nonneg (item_num (trueRange s) j)).
    { rewrite Forall_forall in F3. apply F3, item_num_in. lia. }
    assert (N2 : nonneg (item_num (plusDM s) j)).
    { rewrite Forall_forall in F1. apply F1, item_num_in. lia. }
    assert (N3 : nonneg (item_num (minusDM s) j)).
    { rewrite Forall_forall in F2. apply F2, item_num_in. lia. }
    pose proof (wilder_nonneg _ _ period Hp T1 N1).
    pose proof (wilder_nonneg _ _ period Hp T2 N2).
    pose proof (wilder_nonneg _ _ period Hp T3 N3).
    repeat split; try assumption. apply dx_of_ok; assumption. }
  cbn [bind]. eexists. split; [reflexivity|].
  eexists. split; [reflexivity|].
  apply toFixed2_percent. apply Hfinal.
Qed.

(** The theorem at twenty rising bars, period 14. *)
Lemma adx_is_a_percentage_witness :
  exists v,
    calculateADX (rising_bars 20) 14 = Ok v
    /\ if len (rising_bars 20) <? 14 + 2 then v = Null
       else exists x, v = Number x /\ nan_or_percent x.
Proof. apply adx_is_a_percentage. reflexivity. Defined.
